(** * Job lifecycle engine of the image-processing service

    A shallow embedding of the Go sources: the job repository
    ([internal/database/jobs.go]), the HTTP handlers
    ([internal/api/handlers.go]), the queue producer and consumer
    ([internal/queue]), the object storage wrapper ([internal/storage]) and
    the retention sweeper ([internal/cleanup]).

    The external services (PostgreSQL, Redis, MinIO) are an explicit state
    threaded through a state monad.  Every call to one of them may fail
    with a transport error taken from a per-service script, so that the
    error paths of the Go code are part of the model; the calls of the life
    of a job (statements and queries on a job, object puts, gets and
    removes, XADD, XREADGROUP, XACK) are recorded in a trace.

    The second part covers the code around that engine: the image
    processor ([internal/processor]), the worker ([cmd/worker]), the
    session store of the middleware, the listing, the statistics of the
    queue and the health check. *)

From Stdlib Require Import ZArith String Ascii List Lia.
From stdpp Require Import gmap strings list sorting pretty.

Local Open Scope string_scope.
Local Open Scope list_scope.
Local Open Scope Z_scope.

(** ** Go base types *)

(** [uuid.UUID]: a 128-bit value. *)
Definition UUID : Type := N.

(** [time.Time] as nanoseconds since the Unix epoch.  The range of
    [time.Time] (64-bit seconds) is far larger than any instant built here,
    so the instant itself is not wrapped.  The store keeps instants as they
    are handed to it. *)
Definition Time : Type := Z.

(** [time.Duration]: a signed 64-bit count of nanoseconds. *)
Definition Duration : Type := Z.

Definition minInt64 : Z := - 2 ^ 63.
Definition maxInt64 : Z := 2 ^ 63 - 1.

(** Two's complement wrap-around of signed 64-bit arithmetic. *)
Definition wrap64 (z : Z) : Z := (z + 2 ^ 63) mod 2 ^ 64 - 2 ^ 63.

Definition int64_mul (a b : Z) : Z := wrap64 (a * b).

Module time.

Definition Nanosecond : Duration := 1.
Definition Millisecond : Duration := 1000000.
Definition Second : Duration := 1000000000.
Definition Hour : Duration := 3600000000000.

(** [t.Add(d)] *)
Definition Add (t : Time) (d : Duration) : Time := t + d.

(** [t.Sub(u)]: the difference, saturated to the range of [Duration]. *)
Definition Sub (t u : Time) : Duration :=
  if decide (t - u < minInt64) then minInt64
  else if decide (maxInt64 < t - u) then maxInt64
  else t - u.

(** [d.Milliseconds()]: integer division truncating toward zero. *)
Definition Milliseconds (d : Duration) : Z := Z.quot d 1000000.

End time.

(** Go's [error]: [None] is [nil], [Some msg] an error with that message. *)
Definition error : Type := option string.

(** A JSON text, described by what [json.Unmarshal] makes of it. *)
Inductive JSONText (A : Type) : Type :=
| EmptyText                                 (* the empty string *)
| Encodes (a : A)                           (* decodes to [a] *)
| Malformed (raw : string) (err : string).  (* rejected with [err] *)
Arguments EmptyText {A}.
Arguments Encodes {A} a.
Arguments Malformed {A} raw err.

(** Scalars of a [map[string]interface{}] parameter bag. *)
Inductive JSONValue : Type :=
| JNumber (z : Z)
| JString (s : string)
| JBool (b : bool).

(** ** internal/models/job.go *)

Module models.

Definition JobStatus : Type := string.

Definition JobStatusPending : JobStatus := "pending".
Definition JobStatusQueued : JobStatus := "queued".
Definition JobStatusProcessing : JobStatus := "processing".
Definition JobStatusCompleted : JobStatus := "completed".
Definition JobStatusFailed : JobStatus := "failed".
Definition JobStatusCancelled : JobStatus := "canceled".

Definition OperationType : Type := string.

Definition OperationResize : OperationType := "resize".
Definition OperationThumbnail : OperationType := "thumbnail".
Definition OperationBlur : OperationType := "blur".
Definition OperationSharpen : OperationType := "sharpen".
Definition OperationGrayscale : OperationType := "grayscale".
Definition OperationSepia : OperationType := "sepia".
Definition OperationRotate : OperationType := "rotate".
Definition OperationFlip : OperationType := "flip".
Definition OperationBrightness : OperationType := "brightness".
Definition OperationContrast : OperationType := "contrast".
Definition OperationSaturation : OperationType := "saturation".
Definition OperationWatermark : OperationType := "watermark".

(** [type Operation struct]; its field [Operation] is [OpName] here. *)
Record Operation : Type := {
  Parameters : list (string * JSONValue);
  OpName : OperationType
}.

(** [type Job struct] *)
Record Job : Type := {
  Operations : list Operation;
  StartedAt : option Time;
  CompletedAt : option Time;
  ProcessingTime : option Z;
  DeleteAt : option Time;
  OriginalKey : string;
  ProcessedKey : string;
  OriginalName : string;
  ContentType : string;
  OperationsJSON : JSONText (list Operation);
  Error : string;
  WorkerID : string;
  ID : UUID;
  UserID : UUID;
  CreatedAt : Time;
  UpdatedAt : Time;
  FileSize : Z;
  Status : JobStatus;
  Progress : Z
}.

(** [type JobMessage struct] *)
Record JobMessage : Type := {
  MsgOperations : list Operation;
  JobID : UUID
}.

(** [NewJob], given the results of its calls to [time.Now] and
    [uuid.New]. *)
Definition NewJob (now : Time) (fresh : UUID)
    (originalKey originalName contentType : string) (fileSize : Z)
    (operations : list Operation) : Job :=
  {| Operations := operations;
     StartedAt := None; CompletedAt := None; ProcessingTime := None;
     DeleteAt := None;
     OriginalKey := originalKey; ProcessedKey := "";
     OriginalName := originalName; ContentType := contentType;
     OperationsJSON := EmptyText;
     Error := ""; WorkerID := "";
     ID := fresh; UserID := 0%N;
     CreatedAt := now; UpdatedAt := now;
     FileSize := fileSize;
     Status := JobStatusPending;
     Progress := 0 |}.

Definition with_ID (id : UUID) (j : Job) : Job :=
  {| Operations := Operations j; StartedAt := StartedAt j;
     CompletedAt := CompletedAt j; ProcessingTime := ProcessingTime j;
     DeleteAt := DeleteAt j; OriginalKey := OriginalKey j;
     ProcessedKey := ProcessedKey j; OriginalName := OriginalName j;
     ContentType := ContentType j; OperationsJSON := OperationsJSON j;
     Error := Error j; WorkerID := WorkerID j; ID := id;
     UserID := UserID j; CreatedAt := CreatedAt j;
     UpdatedAt := UpdatedAt j; FileSize := FileSize j;
     Status := Status j; Progress := Progress j |}.

Definition with_UserID (u : UUID) (j : Job) : Job :=
  {| Operations := Operations j; StartedAt := StartedAt j;
     CompletedAt := CompletedAt j; ProcessingTime := ProcessingTime j;
     DeleteAt := DeleteAt j; OriginalKey := OriginalKey j;
     ProcessedKey := ProcessedKey j; OriginalName := OriginalName j;
     ContentType := ContentType j; OperationsJSON := OperationsJSON j;
     Error := Error j; WorkerID := WorkerID j; ID := ID j;
     UserID := u; CreatedAt := CreatedAt j;
     UpdatedAt := UpdatedAt j; FileSize := FileSize j;
     Status := Status j; Progress := Progress j |}.

Definition with_Status (s : JobStatus) (j : Job) : Job :=
  {| Operations := Operations j; StartedAt := StartedAt j;
     CompletedAt := CompletedAt j; ProcessingTime := ProcessingTime j;
     DeleteAt := DeleteAt j; OriginalKey := OriginalKey j;
     ProcessedKey := ProcessedKey j; OriginalName := OriginalName j;
     ContentType := ContentType j; OperationsJSON := OperationsJSON j;
     Error := Error j; WorkerID := WorkerID j; ID := ID j;
     UserID := UserID j; CreatedAt := CreatedAt j;
     UpdatedAt := UpdatedAt j; FileSize := FileSize j;
     Status := s; Progress := Progress j |}.

(** [MarshalOperations]: [json.Marshal] cannot fail on these values. *)
Definition MarshalOperations (j : Job) : Job * error :=
  ({| Operations := Operations j; StartedAt := StartedAt j;
      CompletedAt := CompletedAt j; ProcessingTime := ProcessingTime j;
      DeleteAt := DeleteAt j; OriginalKey := OriginalKey j;
      ProcessedKey := ProcessedKey j; OriginalName := OriginalName j;
      ContentType := ContentType j;
      OperationsJSON := Encodes (Operations j);
      Error := Error j; WorkerID := WorkerID j; ID := ID j;
      UserID := UserID j; CreatedAt := CreatedAt j;
      UpdatedAt := UpdatedAt j; FileSize := FileSize j;
      Status := Status j; Progress := Progress j |}, None).

Definition with_Operations (ops : list Operation) (j : Job) : Job :=
  {| Operations := ops; StartedAt := StartedAt j;
     CompletedAt := CompletedAt j; ProcessingTime := ProcessingTime j;
     DeleteAt := DeleteAt j; OriginalKey := OriginalKey j;
     ProcessedKey := ProcessedKey j; OriginalName := OriginalName j;
     ContentType := ContentType j; OperationsJSON := OperationsJSON j;
     Error := Error j; WorkerID := WorkerID j; ID := ID j;
     UserID := UserID j; CreatedAt := CreatedAt j;
     UpdatedAt := UpdatedAt j; FileSize := FileSize j;
     Status := Status j; Progress := Progress j |}.

(** [UnmarshalOperations] *)
Definition UnmarshalOperations (j : Job) : Job * error :=
  match OperationsJSON j with
  | EmptyText => (with_Operations [] j, None)
  | Encodes ops => (with_Operations ops j, None)
  | Malformed _ err => (j, Some err)
  end.

End models.

(** ** The relational store: table [jobs] and the statements issued on it *)

Module sql.

Import models.

(** One row of [jobs]; the primary key [id] is the key of the table map.
    Nullable columns are options. *)
Record Row : Type := {
  status : JobStatus;
  original_key : string;
  processed_key : option string;
  original_name : string;
  content_type : string;
  file_size : Z;
  operations : JSONText (list Operation);
  error_col : option string;
  progress : Z;
  worker_id : option string;
  user_id : UUID;
  created_at : Time;
  updated_at : Time;
  started_at : option Time;
  completed_at : option Time;
  processing_time_ms : option Z;
  delete_at : option Time
}.

Abbreviation Table := (gmap UUID Row).

(** One item of a [SET] list. *)
Inductive Assign : Type :=
| SetStatus (s : JobStatus)
| SetWorkerID (w : string)
| SetStartedAt (t : Time)
| SetProcessedKey (k : string)
| SetProgress (p : Z)
| SetCompletedAt (t : Time)
| SetProcessingTimeMs (ms : Z)
| SetDeleteAt (t : Time)
| SetError (e : string).

(** The statements of [jobs.go] passed to [ExecContext]. *)
Inductive Stmt : Type :=
| INSERT_INTO_jobs (j : Job)
    (* INSERT INTO jobs (id, status, original_key, original_name,
       content_type, file_size, operations, user_id, created_at,
       updated_at) VALUES (...) *)
| UPDATE_jobs (set : list Assign) (where_id : UUID)
    (where_status_in : option (list JobStatus))
    (* UPDATE jobs SET ... WHERE id = $n [AND status IN (...)] *)
| DELETE_FROM_jobs (where_id : UUID).
    (* DELETE FROM jobs WHERE id = $1 *)

(** The queries of [jobs.go]. *)
Inductive Query : Type :=
| SELECT_job_WHERE_id (id : UUID)
| SELECT_started_at_WHERE_id (id : UUID)
| SELECT_jobs_to_cleanup (limit : Z).
    (* ... WHERE delete_at IS NOT NULL AND delete_at < NOW()
       ORDER BY delete_at ASC LIMIT $1 *)

Definition assign (a : Assign) (r : Row) : Row :=
  let 'Build_Row st ok pk on ct fs ops er pr wi ui ca ua sa co pt da := r in
  match a with
  | SetStatus s => Build_Row s ok pk on ct fs ops er pr wi ui ca ua sa co pt da
  | SetWorkerID w => Build_Row st ok pk on ct fs ops er pr (Some w) ui ca ua sa co pt da
  | SetStartedAt t => Build_Row st ok pk on ct fs ops er pr wi ui ca ua (Some t) co pt da
  | SetProcessedKey k => Build_Row st ok (Some k) on ct fs ops er pr wi ui ca ua sa co pt da
  | SetProgress p => Build_Row st ok pk on ct fs ops er p wi ui ca ua sa co pt da
  | SetCompletedAt t => Build_Row st ok pk on ct fs ops er pr wi ui ca ua sa (Some t) pt da
  | SetProcessingTimeMs ms => Build_Row st ok pk on ct fs ops er pr wi ui ca ua sa co (Some ms) da
  | SetDeleteAt t => Build_Row st ok pk on ct fs ops er pr wi ui ca ua sa co pt (Some t)
  | SetError e => Build_Row st ok pk on ct fs ops (Some e) pr wi ui ca ua sa co pt da
  end.

(** Trigger [update_jobs_updated_at]: BEFORE UPDATE, for each row,
    [NEW.updated_at = NOW()]. *)
Definition update_updated_at_column (now : Time) (r : Row) : Row :=
  let 'Build_Row st ok pk on ct fs ops er pr wi ui ca _ sa co pt da := r in
  Build_Row st ok pk on ct fs ops er pr wi ui ca now sa co pt da.

(** The row an [INSERT INTO jobs] of [jobs.go] creates: the listed
    columns come from the job, the others take their column default. *)
Definition inserted_row (j : Job) : Row :=
  {| status := Status j;
     original_key := OriginalKey j;
     processed_key := None;
     original_name := OriginalName j;
     content_type := ContentType j;
     file_size := FileSize j;
     operations := OperationsJSON j;
     error_col := None;
     progress := 0;
     worker_id := None;
     user_id := UserID j;
     created_at := CreatedAt j;
     updated_at := UpdatedAt j;
     started_at := None;
     completed_at := None;
     processing_time_ms := None;
     delete_at := None |}.

Definition status_matches (cond : option (list JobStatus)) (r : Row) : bool :=
  match cond with
  | None => true
  | Some sts => bool_decide (status r ∈ sts)
  end.

(** Execution of a statement at database time [now]: the new table and
    the number of rows affected, or the error of the database. *)
Definition exec (now : Time) (s : Stmt) (t : Table) : string + (Table * Z) :=
  match s with
  | INSERT_INTO_jobs j =>
      match t !! ID j with
      | Some _ =>
          inl "pq: duplicate key value violates unique constraint jobs_pkey"
      | None => inr (<[ID j := inserted_row j]> t, 1)
      end
  | UPDATE_jobs set id cond =>
      match t !! id with
      | Some r =>
          if status_matches cond r
          then inr (<[id := update_updated_at_column now (foldl (λ r a, assign a r) r set)]> t, 1)
          else inr (t, 0)
      | None => inr (t, 0)
      end
  | DELETE_FROM_jobs id =>
      match t !! id with
      | Some _ => inr (delete id t, 1)
      | None => inr (t, 0)
      end
  end.

(** [delete_at IS NOT NULL AND delete_at < NOW()] *)
Definition expired (now : Time) (r : Row) : bool :=
  match delete_at r with
  | Some d => bool_decide (d < now)
  | None => false
  end.

(** The sort key of [ORDER BY delete_at ASC] (on rows with a non-null
    [delete_at]). *)
Definition delete_at_key (x : UUID * Row) : Z := default 0 (delete_at x.2).

Definition by_delete_at (x y : UUID * Row) : Prop :=
  delete_at_key x ≤ delete_at_key y.

#[global] Instance by_delete_at_dec x y : Decision (by_delete_at x y).
Proof. unfold by_delete_at. apply _. Defined.

(** Evaluation of a query at database time [now]: its result set. *)
Definition run (now : Time) (q : Query) (t : Table) : string + list (UUID * Row) :=
  match q with
  | SELECT_job_WHERE_id id
  | SELECT_started_at_WHERE_id id =>
      match t !! id with
      | Some r => inr [(id, r)]
      | None => inr []
      end
  | SELECT_jobs_to_cleanup limit =>
      if decide (limit < 0) then inl "pq: LIMIT must not be negative"
      else inr (take (Z.to_nat limit)
                  (merge_sort by_delete_at
                     (filter (λ x, expired now x.2 = true) (map_to_list t))))
  end.

End sql.

(** ** The Redis stream with its consumer groups *)

Module redis.

Import models.

(** [redis.XMessage]: the values of an entry are strings; each is
    described by what it decodes to as a job message. *)
Record XMessage : Type := {
  XID : string;
  Values : list (string * JSONText JobMessage)
}.

(** [redis.XStream] *)
Record XStream : Type := {
  Stream : string;
  Messages : list XMessage
}.

(** [redis.XReadGroupArgs] *)
Record XReadGroupArgs : Type := {
  Group : string;
  Consumer : string;
  Streams : list string;
  Count : Z;
  Block : Duration
}.

(** The [err] of a command result: [nil], the sentinel [redis.Nil], or
    another error. *)
Inductive Err : Type :=
| NoErr
| Nil
| Failure (msg : string).

(** A consumer group: how many entries of the stream it has delivered,
    and its pending entries list (entry id, consumer) in delivery
    order. *)
Record GroupState : Type := {
  delivered : nat;
  pending : list (string * string)
}.

Record State : Type := {
  streams : gmap string (list XMessage);
  groups : gmap (string * string) GroupState
}.

Definition entries (st : State) (stream : string) : list XMessage :=
  default [] (streams st !! stream).

(** XADD stream * data <text>: the entry gets the next id. *)
Definition xadd (stream : string) (data : JSONText JobMessage) (st : State)
    : State * string :=
  let es := entries st stream in
  let id := pretty (S (length es)) +:+ "-0" in
  ({| streams := <[stream := es ++ [{| XID := id; Values := [("data", data)] |}]]> (streams st);
      groups := groups st |}, id).

Definition find_entry (es : list XMessage) (id : string) : option XMessage :=
  List.find (λ m, bool_decide (XID m = id)) es.

(** The entries of the stream that are pending for [consumer]. *)
Definition pending_of (es : list XMessage) (g : GroupState) (consumer : string)
    : list XMessage :=
  omap (λ p : string * string,
          if bool_decide (p.2 = consumer) then find_entry es p.1 else None)
       (pending g).

(** XREADGROUP GROUP group consumer COUNT n [BLOCK ms] STREAMS stream id.
    With id "0" the command returns the consumer's own pending entries
    and never waits.  With id ">" it delivers entries never delivered to
    the group and records them as pending for the consumer; when there is
    none the wait ends with the [Nil] reply. *)
Definition xreadgroup (a : XReadGroupArgs) (st : State)
    : State * (list XStream * Err) :=
  match Streams a with
  | [stream; id] =>
      match groups st !! (stream, Group a) with
      | None => (st, ([], Failure "NOGROUP No such consumer group"))
      | Some g =>
          let es := entries st stream in
          let n := Z.to_nat (Count a) in
          if bool_decide (id = "0") then
            (st, ([{| Stream := stream;
                      Messages := take n (pending_of es g (Consumer a)) |}],
                  NoErr))
          else if bool_decide (id = ">") then
            match take n (drop (delivered g) es) with
            | [] => (st, ([], Nil))
            | ms =>
                ({| streams := streams st;
                    groups :=
                      <[(stream, Group a) :=
                          {| delivered := (delivered g + length ms)%nat;
                             pending := pending g ++ ((λ m, (XID m, Consumer a)) <$> ms) |}]>
                        (groups st) |},
                 ([{| Stream := stream; Messages := ms |}], NoErr))
            end
          else (st, ([], Failure "ERR Invalid stream ID"))
      end
  | _ => (st, ([], Failure "ERR Unbalanced XREADGROUP list of streams"))
  end.

(** XACK stream group id *)
Definition xack (stream group id : string) (st : State) : State * Z :=
  match groups st !! (stream, group) with
  | None => (st, 0)
  | Some g =>
      if bool_decide (id ∈ (pending g).*1) then
        ({| streams := streams st;
            groups := <[(stream, group) :=
                          {| delivered := delivered g;
                             pending := filter (λ p, p.1 ≠ id) (pending g) |}]>
                        (groups st) |}, 1)
      else (st, 0)
  end.

End redis.

(** ** The world outside the process, and the monad of the Go code *)

(** An object of the bucket. *)
Record Object : Type := {
  obj_data : string;
  obj_content_type : string
}.

(** A call that left the process. *)
Inductive Call : Type :=
| CallExec (s : sql.Stmt)
| CallQuery (q : sql.Query)
| CallPutObject (key : string)
| CallGetObject (key : string)
| CallRemoveObject (key : string)
| CallXAdd (stream : string) (data : JSONText models.JobMessage)
| CallXReadGroup (a : redis.XReadGroupArgs)
| CallXAck (stream group id : string).

Inductive Level : Type := INFO | WARN | ERROR.

(** The state of the services, the clock, the source of random UUIDs, and
    for each service the script of transport outcomes of the coming calls
    ([Some e]: the call fails with [e] and has no effect; [None], or an
    exhausted script: the call is carried out). *)
Record World : Type := {
  clock : Time;
  uuids : list UUID;
  jobs : sql.Table;
  db_faults : list error;
  bucket : gmap string Object;
  storage_faults : list error;
  queue : redis.State;
  redis_faults : list error;
  trace : list Call;
  log : list (Level * string)
}.

Definition M (A : Type) : Type := World → A * World.

Definition ret {A} (a : A) : M A := λ w, (a, w).

Definition bind {A B} (m : M A) (k : A → M B) : M B :=
  λ w, let '(a, w') := m w in k a w'.

Notation "x <- m ;; k" := (bind m (λ x, k))
  (at level 100, m at next level, right associativity).
Notation "m ;;; k" := (bind m (λ _, k))
  (at level 100, right associativity).

Definition next_fault (script : list error) : error * list error :=
  match script with
  | [] => (None, [])
  | f :: rest => (f, rest)
  end.

Definition record_call (c : Call) : M unit := λ w,
  (tt, {| clock := clock w; uuids := uuids w; jobs := jobs w;
          db_faults := db_faults w; bucket := bucket w;
          storage_faults := storage_faults w; queue := queue w;
          redis_faults := redis_faults w;
          trace := trace w ++ [c]; log := log w |}).

Definition logger (lvl : Level) (msg : string) : M unit := λ w,
  (tt, {| clock := clock w; uuids := uuids w; jobs := jobs w;
          db_faults := db_faults w; bucket := bucket w;
          storage_faults := storage_faults w; queue := queue w;
          redis_faults := redis_faults w;
          trace := trace w; log := log w ++ [(lvl, msg)] |}).

(** [time.Now()] *)
Definition time_Now : M Time := λ w, (clock w, w).

(** [uuid.New()] *)
Definition uuid_New : M UUID := λ w,
  (default 0%N (head (uuids w)),
   {| clock := clock w; uuids := tail (uuids w); jobs := jobs w;
      db_faults := db_faults w; bucket := bucket w;
      storage_faults := storage_faults w; queue := queue w;
      redis_faults := redis_faults w;
      trace := trace w; log := log w |}).

Definition db_fault : M error := λ w,
  let '(f, rest) := next_fault (db_faults w) in
  (f, {| clock := clock w; uuids := uuids w; jobs := jobs w;
         db_faults := rest; bucket := bucket w;
         storage_faults := storage_faults w; queue := queue w;
         redis_faults := redis_faults w;
         trace := trace w; log := log w |}).

Definition storage_fault : M error := λ w,
  let '(f, rest) := next_fault (storage_faults w) in
  (f, {| clock := clock w; uuids := uuids w; jobs := jobs w;
         db_faults := db_faults w; bucket := bucket w;
         storage_faults := rest; queue := queue w;
         redis_faults := redis_faults w;
         trace := trace w; log := log w |}).

Definition redis_fault : M error := λ w,
  let '(f, rest) := next_fault (redis_faults w) in
  (f, {| clock := clock w; uuids := uuids w; jobs := jobs w;
         db_faults := db_faults w; bucket := bucket w;
         storage_faults := storage_faults w; queue := queue w;
         redis_faults := rest;
         trace := trace w; log := log w |}).

Definition set_jobs (t : sql.Table) : M unit := λ w,
  (tt, {| clock := clock w; uuids := uuids w; jobs := t;
          db_faults := db_faults w; bucket := bucket w;
          storage_faults := storage_faults w; queue := queue w;
          redis_faults := redis_faults w;
          trace := trace w; log := log w |}).

Definition set_bucket (b : gmap string Object) : M unit := λ w,
  (tt, {| clock := clock w; uuids := uuids w; jobs := jobs w;
          db_faults := db_faults w; bucket := b;
          storage_faults := storage_faults w; queue := queue w;
          redis_faults := redis_faults w;
          trace := trace w; log := log w |}).

Definition set_queue (q : redis.State) : M unit := λ w,
  (tt, {| clock := clock w; uuids := uuids w; jobs := jobs w;
          db_faults := db_faults w; bucket := bucket w;
          storage_faults := storage_faults w; queue := q;
          redis_faults := redis_faults w;
          trace := trace w; log := log w |}).

Definition get {A} (f : World → A) : M A := λ w, (f w, w).

(** ** internal/storage: the MinIO wrapper (metrics left out) *)

Module storage.

(** [Upload]: [PutObject] *)
Definition Upload (key data : string) (size : Z) (contentType : string) : M error :=
  record_call (CallPutObject key) ;;;
  f <- storage_fault ;;
  match f with
  | Some e => ret (Some ("failed to upload object: " +:+ e))
  | None =>
      b <- get bucket ;;
      set_bucket (<[key := {| obj_data := data; obj_content_type := contentType |}]> b) ;;;
      ret None
  end.

(** [Download]: [GetObject]; the reader of a missing object is [None]. *)
Definition Download (key : string) : M (option Object * error) :=
  record_call (CallGetObject key) ;;;
  f <- storage_fault ;;
  match f with
  | Some e => ret (None, Some ("failed to get object: " +:+ e))
  | None => b <- get bucket ;; ret (b !! key, None)
  end.

(** [Delete]: [RemoveObject]; removing a missing object is not an
    error. *)
Definition Delete (key : string) : M error :=
  record_call (CallRemoveObject key) ;;;
  f <- storage_fault ;;
  match f with
  | Some e => ret (Some e)
  | None => b <- get bucket ;; set_bucket (delete key b) ;;; ret None
  end.

End storage.

(** ** internal/database/jobs.go: the job repository *)

Module database.

Import models sql.

Definition ErrNotFound : string := "job not found".

(** [db.ExecContext] followed by [result.RowsAffected()] *)
Definition ExecContext (s : Stmt) : M (Z * error) :=
  record_call (CallExec s) ;;;
  f <- db_fault ;;
  match f with
  | Some e => ret (0, Some e)
  | None =>
      now <- get clock ;;
      t <- get jobs ;;
      match exec now s t with
      | inl e => ret (0, Some e)
      | inr (t', n) => set_jobs t' ;;; ret (n, None)
      end
  end.

(** [db.QueryContext] / [db.QueryRowContext] *)
Definition QueryContext (q : Query) : M (list (UUID * Row) * error) :=
  record_call (CallQuery q) ;;;
  f <- db_fault ;;
  match f with
  | Some e => ret ([], Some e)
  | None =>
      now <- get clock ;;
      t <- get jobs ;;
      match run now q t with
      | inl e => ret ([], Some e)
      | inr rows => ret (rows, None)
      end
  end.

(** [rows.Scan] into a [models.Job], with the NULL columns mapped as in
    [GetByID]. *)
Definition scan (x : UUID * Row) : Job :=
  {| Operations := [];
     StartedAt := started_at x.2;
     CompletedAt := completed_at x.2;
     ProcessingTime := processing_time_ms x.2;
     DeleteAt := delete_at x.2;
     OriginalKey := original_key x.2;
     ProcessedKey := default "" (processed_key x.2);
     OriginalName := original_name x.2;
     ContentType := content_type x.2;
     OperationsJSON := operations x.2;
     Error := default "" (error_col x.2);
     WorkerID := default "" (worker_id x.2);
     ID := x.1;
     UserID := user_id x.2;
     CreatedAt := created_at x.2;
     UpdatedAt := updated_at x.2;
     FileSize := file_size x.2;
     Status := status x.2;
     Progress := progress x.2 |}.

(** [Create]; the job is passed by pointer, so the marshalled operations
    are visible to the caller. *)
Definition Create (job : Job) : M (Job * error) :=
  let '(job, merr) := MarshalOperations job in
  match merr with
  | Some e => ret (job, Some ("failed to marshal operations: " +:+ e))
  | None =>
      r <- ExecContext (INSERT_INTO_jobs job) ;;
      match r.2 with
      | Some e => ret (job, Some ("failed to create job: " +:+ e))
      | None => ret (job, None)
      end
  end.

(** [GetByID] *)
Definition GetByID (id : UUID) : M (option Job * error) :=
  r <- QueryContext (SELECT_job_WHERE_id id) ;;
  match r with
  | (_, Some e) => ret (None, Some ("failed to get job: " +:+ e))
  | ([], None) => ret (None, Some ErrNotFound)
  | (x :: _, None) =>
      let '(job, uerr) := UnmarshalOperations (scan x) in
      match uerr with
      | Some e => ret (None, Some ("failed to unmarshal operations: " +:+ e))
      | None => ret (Some job, None)
      end
  end.

(** [UpdateStatus] *)
Definition UpdateStatus (id : UUID) (status : JobStatus) : M error :=
  r <- ExecContext (UPDATE_jobs [SetStatus status] id None) ;;
  match r with
  | (_, Some e) => ret (Some ("failed to update job status: " +:+ e))
  | (rows, None) =>
      if decide (rows = 0) then ret (Some "job not found") else ret None
  end.

(** [UpdateProgress] *)
Definition UpdateProgress (id : UUID) (progress : Z) : M error :=
  r <- ExecContext (UPDATE_jobs [SetProgress progress] id None) ;;
  ret r.2.

(** [StartProcessing] *)
Definition StartProcessing (id : UUID) (workerID : string) : M error :=
  now <- time_Now ;;
  r <- ExecContext
         (UPDATE_jobs [SetStatus JobStatusProcessing; SetWorkerID workerID;
                       SetStartedAt now] id None) ;;
  ret r.2.

(** [CompleteJob]; [retentionHours] is a Go [int]. *)
Definition CompleteJob (id : UUID) (processedKey : string) (retentionHours : Z)
    : M error :=
  now <- time_Now ;;
  r <- QueryContext (SELECT_started_at_WHERE_id id) ;;
  match r with
  | (_, Some e) => ret (Some ("failed to get started_at: " +:+ e))
  | ([], None) =>
      ret (Some "failed to get started_at: sql: no rows in result set")
  | (x :: _, None) =>
      let processingTime :=
        match started_at x.2 with
        | Some startedAt => time.Milliseconds (time.Sub now startedAt)
        | None => 0
        end in
      let deleteAt := time.Add now (int64_mul retentionHours time.Hour) in
      r <- ExecContext
             (UPDATE_jobs [SetStatus JobStatusCompleted;
                           SetProcessedKey processedKey;
                           SetProgress 100;
                           SetCompletedAt now;
                           SetProcessingTimeMs processingTime;
                           SetDeleteAt deleteAt] id None) ;;
      ret r.2
  end.

(** [FailJob] *)
Definition FailJob (id : UUID) (errorMsg : string) : M error :=
  now <- time_Now ;;
  r <- ExecContext
         (UPDATE_jobs [SetStatus JobStatusFailed; SetError errorMsg;
                       SetCompletedAt now] id None) ;;
  ret r.2.

(** [CancelJob] *)
Definition CancelJob (id : UUID) : M error :=
  r <- ExecContext
         (UPDATE_jobs [SetStatus JobStatusCancelled] id
            (Some [JobStatusPending; JobStatusQueued])) ;;
  match r with
  | (_, Some e) => ret (Some ("failed to cancel job: " +:+ e))
  | (rows, None) =>
      if decide (rows = 0)
      then ret (Some "job cannot be canceled (already processing or completed)")
      else ret None
  end.

(** The loop of [GetJobsToCleanup] over the result set. *)
Fixpoint scan_all (rows : list (UUID * Row)) : list Job * error :=
  match rows with
  | [] => ([], None)
  | x :: rest =>
      let '(job, uerr) := UnmarshalOperations (scan x) in
      match uerr with
      | Some e => ([], Some ("failed to unmarshal operations: " +:+ e))
      | None =>
          match scan_all rest with
          | (js, None) => (job :: js, None)
          | (_, Some e) => ([], Some e)
          end
      end
  end.

(** [GetJobsToCleanup] *)
Definition GetJobsToCleanup (limit : Z) : M (list Job * error) :=
  r <- QueryContext (SELECT_jobs_to_cleanup limit) ;;
  match r with
  | (_, Some e) => ret ([], Some ("failed to get jobs to cleanup: " +:+ e))
  | (rows, None) => ret (scan_all rows)
  end.

(** [DeleteJob] *)
Definition DeleteJob (id : UUID) : M error :=
  r <- ExecContext (DELETE_FROM_jobs id) ;;
  match r with
  | (_, Some e) => ret (Some ("failed to delete job: " +:+ e))
  | (rows, None) =>
      if decide (rows = 0) then ret (Some "job not found") else ret None
  end.

End database.

(** ** internal/queue: producer and consumer *)

Module queue.

Import models redis.

Record Producer : Type := {
  p_streamName : string
}.

(** [client.XAdd(...).Result()] *)
Definition XAdd (stream : string) (data : JSONText JobMessage) : M (string * error) :=
  record_call (CallXAdd stream data) ;;;
  f <- redis_fault ;;
  match f with
  | Some e => ret ("", Some e)
  | None =>
      q <- get queue ;;
      let '(q', id) := xadd stream data q in
      set_queue q' ;;; ret (id, None)
  end.

(** [Enqueue]; [json.Marshal] of a job message cannot fail. *)
Definition Enqueue (p : Producer) (msg : JobMessage) : M error :=
  let data := Encodes msg in
  r <- XAdd (p_streamName p) data ;;
  match r.2 with
  | Some e => ret (Some ("failed to add to stream: " +:+ e))
  | None => ret None
  end.

Record Consumer : Type := {
  streamName : string;
  consumerGroup : string;
  consumerName : string;
  pollTimeout : Duration
}.

(** [type Message struct] *)
Record Message : Type := {
  MessageID : string;
  Job : JobMessage;
  Data : JSONText JobMessage
}.

(** [client.XReadGroup(...).Result()] *)
Definition XReadGroup (a : XReadGroupArgs) : M (list XStream * Err) :=
  record_call (CallXReadGroup a) ;;;
  f <- redis_fault ;;
  match f with
  | Some e => ret ([], Failure e)
  | None =>
      q <- get queue ;;
      let '(q', r) := xreadgroup a q in
      set_queue q' ;;; ret r
  end.

(** [client.XAck(...).Result()] *)
Definition XAck (stream group id : string) : M (Z * error) :=
  record_call (CallXAck stream group id) ;;;
  f <- redis_fault ;;
  match f with
  | Some e => ret (0, Some e)
  | None =>
      q <- get queue ;;
      let '(q', n) := xack stream group id q in
      set_queue q' ;;; ret (n, None)
  end.

(** [redisMsg.Values["data"]] *)
Definition lookup_value (key : string) (vs : list (string * JSONText JobMessage))
    : option (JSONText JobMessage) :=
  snd <$> List.find (λ kv, bool_decide (kv.1 = key)) vs.

(** [parseMessage] *)
Definition parseMessage (redisMsg : XMessage) : option Message * error :=
  match lookup_value "data" (Values redisMsg) with
  | None => (None, Some "invalid message format: missing data field")
  | Some data =>
      match data with
      | Encodes jobMsg =>
          (Some {| MessageID := XID redisMsg; Job := jobMsg; Data := data |}, None)
      | EmptyText =>
          (None, Some "failed to unmarshal job message: unexpected end of JSON input")
      | Malformed _ err =>
          (None, Some ("failed to unmarshal job message: " +:+ err))
      end
  end.

(** The arguments of the first read of [Consume]. *)
Definition pending_args (c : Consumer) : XReadGroupArgs :=
  {| Group := consumerGroup c;
     redis.Consumer := consumerName c;
     Streams := [streamName c; "0"];
     Count := 1;
     Block := 0 |}.

(** The arguments of the second read of [Consume]. *)
Definition fresh_args (c : Consumer) : XReadGroupArgs :=
  {| Group := consumerGroup c;
     redis.Consumer := consumerName c;
     Streams := [streamName c; ">"];
     Count := 1;
     Block := pollTimeout c |}.

(** [Consume] *)
Definition Consume (c : Consumer) : M (option Message * error) :=
  p <- XReadGroup (pending_args c) ;;
  let '(pendingMessages, err) := p in
  match err with
  | Failure e => ret (None, Some ("failed to read pending messages: " +:+ e))
  | _ =>
      match pendingMessages with
      | {| Messages := m :: _ |} :: _ => ret (parseMessage m)
      | _ =>
          s <- XReadGroup (fresh_args c) ;;
          let '(streams, err) := s in
          match err with
          | Nil => ret (None, None)
          | Failure e => ret (None, Some ("failed to read from stream: " +:+ e))
          | NoErr =>
              match streams with
              | {| Messages := m :: _ |} :: _ => ret (parseMessage m)
              | _ => ret (None, None)
              end
          end
      end
  end.

(** [Acknowledge] *)
Definition Acknowledge (c : Consumer) (messageID : string) : M error :=
  r <- XAck (streamName c) (consumerGroup c) messageID ;;
  match r.2 with
  | Some e => ret (Some ("failed to acknowledge message: " +:+ e))
  | None => ret None
  end.

End queue.

(** ** Go's [strings] on byte strings (case mapping on ASCII letters) *)

Module gostrings.

Definition lower (c : ascii) : ascii :=
  let n := nat_of_ascii c in
  if ((65 <=? n) && (n <=? 90))%nat then ascii_of_nat (n + 32) else c.

Fixpoint ToLower (s : string) : string :=
  match s with
  | EmptyString => EmptyString
  | String c rest => String (lower c) (ToLower rest)
  end.

Definition EqualFold (s t : string) : bool :=
  String.eqb (ToLower s) (ToLower t).

Definition HasSuffix (s suffix : string) : bool :=
  let n := String.length s in
  let m := String.length suffix in
  ((m <=? n)%nat && String.eqb (substring (n - m) m s) suffix)%bool.

End gostrings.

(** [id.String()]: 32 hexadecimal digits in groups 8-4-4-4-12. *)
Definition hex_digit (n : N) : ascii :=
  nth (N.to_nat n) (list_ascii_of_string "0123456789abcdef") "0"%char.

Fixpoint hex_digits (k : nat) (n : N) : string :=
  match k with
  | O => ""
  | S k' => hex_digits k' (n / 16)%N +:+ String (hex_digit (n mod 16)%N) ""
  end.

Definition UUID_String (u : UUID) : string :=
  let h := hex_digits 32 u in
  substring 0 8 h +:+ "-" +:+ substring 8 4 h +:+ "-" +:+ substring 12 4 h
    +:+ "-" +:+ substring 16 4 h +:+ "-" +:+ substring 20 12 h.

(** ** internal/api/handlers.go *)

Module api.

Import models.

Definition StatusOK : Z := 200.
Definition StatusCreated : Z := 201.
Definition StatusBadRequest : Z := 400.
Definition StatusNotFound : Z := 404.
Definition StatusInternalServerError : Z := 500.

(** The JSON document written to the client. *)
Inductive Body : Type :=
| JSONMap (kv : list (string * string))
| JSONJob (j : Job).

Record Response : Type := {
  StatusCode : Z;
  ResponseBody : Body
}.

Record Handlers : Type := {
  producer : queue.Producer;
  groupName : string
}.

(** [multipart.FileHeader] together with the content of the file. *)
Record FileHeader : Type := {
  Filename : string;
  HeaderContentType : string;   (* header.Header.Get("Content-Type") *)
  Size : Z;
  Content : string
}.

(** The parsed multipart form: [r.FormFile("image")] and
    [r.FormValue("operations")]. *)
Record Form : Type := {
  image : option FileHeader;
  operations_value : JSONText (list Operation)
}.

(** A POST /api/v1/jobs request: the user of its session, if any, and the
    outcome of [r.ParseMultipartForm]. *)
Record CreateJobRequest : Type := {
  session : option UUID;
  ParseMultipartForm : string + Form
}.

(** The [id] URL parameter, described by what [uuid.Parse] makes of
    it. *)
Inductive IDParam : Type :=
| ParsesTo (id : UUID)
| Unparsable (raw : string).

(** [writeJSON] *)
Definition writeJSON (status : Z) (data : Body) : M Response :=
  ret {| StatusCode := status; ResponseBody := data |}.

(** [writeError] *)
Definition writeError (status : Z) (message : string) : M Response :=
  writeJSON status (JSONMap [("error", message)]).

(** [isValidImageType] *)
Definition isValidImageType (contentType : string) : bool :=
  existsb (λ t, gostrings.EqualFold contentType t)
    ["image/jpeg"; "image/jpg"; "image/png"; "image/gif"].

(** [detectContentType] *)
Definition detectContentType (filename : string) : string :=
  let lower := gostrings.ToLower filename in
  if (gostrings.HasSuffix lower ".jpg" || gostrings.HasSuffix lower ".jpeg")%bool
  then "image/jpeg"
  else if gostrings.HasSuffix lower ".png" then "image/png"
  else if gostrings.HasSuffix lower ".gif" then "image/gif"
  else "application/octet-stream".

Definition validOps : list OperationType :=
  [OperationResize; OperationThumbnail; OperationBlur; OperationSharpen;
   OperationGrayscale; OperationSepia; OperationRotate; OperationFlip;
   OperationBrightness; OperationContrast; OperationSaturation;
   OperationWatermark].

(** [isValidOperation] *)
Definition isValidOperation (op : OperationType) : bool :=
  existsb (λ valid, String.eqb op valid) validOps.

Definition log_if_error (err : error) (msg : string) : M unit :=
  match err with
  | Some _ => logger ERROR msg
  | None => ret tt
  end.

(** [CreateJob] *)
Definition CreateJob (h : Handlers) (r : CreateJobRequest) : M Response :=
  let userID := match session r with
                | Some u => u
                | None => 0%N   (* 00000000-0000-0000-0000-000000000000 *)
                end in
  match ParseMultipartForm r with
  | inl err => writeError StatusBadRequest ("failed to parse form: " +:+ err)
  | inr form =>
  match image form with
  | None => writeError StatusBadRequest "image file is required"
  | Some header =>
  let contentType := HeaderContentType header in
  let contentType := if isValidImageType contentType then contentType
                     else detectContentType (Filename header) in
  if negb (isValidImageType contentType)
  then writeError StatusBadRequest "invalid image type, must be JPEG, PNG, or GIF"
  else
  match operations_value form with
  | Malformed _ err =>
      writeError StatusBadRequest ("invalid operations JSON: " +:+ err)
  | parsed =>
  let operations := match parsed with Encodes ops => ops | _ => [] end in
  match List.find (λ op, negb (isValidOperation (OpName op))) operations with
  | Some op =>
      writeError StatusBadRequest ("invalid operation: " +:+ OpName op)
  | None =>
  let operations :=
    if decide (length operations = 0%nat)
    then [{| OpName := OperationThumbnail; Parameters := [("size", JNumber 150)] |}]
    else operations in
  id <- uuid_New ;;
  let originalKey :=
    "users/" +:+ UUID_String userID +:+ "/original/" +:+ UUID_String id
      +:+ "/" +:+ Filename header in
  err <- storage.Upload originalKey (Content header) (Size header) contentType ;;
  match err with
  | Some _ =>
      logger ERROR "failed to upload file" ;;;
      writeError StatusInternalServerError "failed to upload file"
  | None =>
  now <- time_Now ;;
  fresh <- uuid_New ;;
  let job := NewJob now fresh originalKey (Filename header) contentType
               (Size header) operations in
  let job := with_UserID userID (with_ID id job) in
  c <- database.Create job ;;
  let job := c.1 in
  match c.2 with
  | Some _ =>
      logger ERROR "failed to create job" ;;;
      writeError StatusInternalServerError "failed to create job"
  | None =>
  err <- database.UpdateStatus (ID job) JobStatusQueued ;;
  log_if_error err "failed to update job status" ;;;
  let job := with_Status JobStatusQueued job in
  let msg := {| JobID := ID job; MsgOperations := operations |} in
  err <- queue.Enqueue (producer h) msg ;;
  match err with
  | Some _ =>
      logger ERROR "failed to enqueue job" ;;;
      updateErr <- database.UpdateStatus (ID job) JobStatusPending ;;
      log_if_error updateErr "failed to update job status" ;;;
      writeError StatusInternalServerError "failed to queue job"
  | None =>
      logger INFO "job created" ;;;
      writeJSON StatusCreated (JSONJob job)
  end end end end end end end.

(** [GetJob] *)
Definition GetJob (idParam : IDParam) : M Response :=
  match idParam with
  | Unparsable _ => writeError StatusBadRequest "invalid job ID"
  | ParsesTo id =>
      r <- database.GetByID id ;;
      match r with
      | (_, Some _) =>
          logger ERROR "failed to get job" ;;;
          writeError StatusInternalServerError "failed to get job"
      | (None, None) => writeError StatusNotFound "job not found"
      | (Some job, None) => writeJSON StatusOK (JSONJob job)
      end
  end.

(** [CancelJob] *)
Definition CancelJob (idParam : IDParam) : M Response :=
  match idParam with
  | Unparsable _ => writeError StatusBadRequest "invalid job ID"
  | ParsesTo id =>
      err <- database.CancelJob id ;;
      match err with
      | Some e =>
          logger ERROR "failed to cancel job" ;;;
          writeError StatusBadRequest e
      | None => writeJSON StatusOK (JSONMap [("status", "canceled")])
      end
  end.

Definition terminal (s : JobStatus) : bool :=
  (String.eqb s JobStatusCompleted || String.eqb s JobStatusFailed
   || String.eqb s JobStatusCancelled)%bool.

(** The polling loop of [StreamJobStatus]: [ticks] is the number of ticks
    of the 500 ms ticker before the client disconnects; the result is the
    list of frames written. *)
Fixpoint stream_loop (id : UUID) (ticks : nat) : M (list Job) :=
  match ticks with
  | O => ret []
  | S ticks' =>
      r <- database.GetByID id ;;
      match r with
      | (_, Some _) =>
          logger ERROR "failed to get job during stream" ;;; ret []
      | (None, None) => ret []
      | (Some job, None) =>
          if terminal (Status job) then ret [job]
          else frames <- stream_loop id ticks' ;; ret (job :: frames)
      end
  end.

(** [StreamJobStatus], on a response writer that can flush: an error
    response, or the frames of the event stream. *)
Definition StreamJobStatus (idParam : IDParam) (ticks : nat)
    : M (Response + list Job) :=
  match idParam with
  | Unparsable _ => r <- writeError StatusBadRequest "invalid job ID" ;; ret (inl r)
  | ParsesTo id =>
      r <- database.GetByID id ;;
      match r with
      | (_, Some _) =>
          logger ERROR "failed to get job" ;;;
          r <- writeError StatusInternalServerError "failed to get job" ;;
          ret (inl r)
      | (None, None) =>
          r <- writeError StatusNotFound "job not found" ;; ret (inl r)
      | (Some job, None) =>
          frames <- stream_loop id ticks ;; ret (inr (job :: frames))
      end
  end.

End api.

(** ** internal/cleanup: the retention sweeper *)

Module cleanup.

Import models.

Record Worker : Type := {
  interval : Duration;
  batchSize : Z
}.

Record Config : Type := {
  Interval : Duration;
  BatchSize : Z
}.

(** [NewWorker] *)
Definition NewWorker (cfg : Config) : Worker :=
  {| interval := if decide (Interval cfg = 0) then 5 * 60 * time.Second
                 else Interval cfg;
     batchSize := if decide (BatchSize cfg = 0) then 100 else BatchSize cfg |}.

(** [cleanupJob] *)
Definition cleanupJob (job : Job) : M error :=
  (if decide (OriginalKey job ≠ "") then
     logger INFO "deleting original file" ;;;
     err <- storage.Delete (OriginalKey job) ;;
     api.log_if_error err "failed to delete original file"
   else ret tt) ;;;
  (if decide (ProcessedKey job ≠ "") then
     logger INFO "deleting processed file" ;;;
     err <- storage.Delete (ProcessedKey job) ;;
     api.log_if_error err "failed to delete processed file"
   else ret tt) ;;;
  logger INFO "deleting job record" ;;;
  err <- database.DeleteJob (ID job) ;;
  match err with
  | Some e => ret (Some e)
  | None => logger INFO "job cleaned up successfully" ;;; ret None
  end.

(** The loop of [cleanup] over the selected jobs. *)
Fixpoint cleanup_loop (jobs : list Job) : M unit :=
  match jobs with
  | [] => ret tt
  | job :: rest =>
      err <- cleanupJob job ;;
      api.log_if_error err "failed to cleanup job" ;;;
      cleanup_loop rest
  end.

(** [cleanup]: one cleanup cycle. *)
Definition cleanup (w : Worker) : M error :=
  logger INFO "starting cleanup cycle" ;;;
  r <- database.GetJobsToCleanup (batchSize w) ;;
  match r with
  | (_, Some e) => ret (Some e)
  | (jobs, None) =>
      if decide (length jobs = 0%nat) then
        logger INFO "no jobs to cleanup" ;;; ret None
      else
        logger INFO "found jobs to cleanup" ;;;
        cleanup_loop jobs ;;;
        logger INFO "cleanup cycle completed" ;;;
        ret None
  end.

End cleanup.

(** ** cmd/worker/main.go *)

Module worker.

Import models.

(** [processor.ProcessResult] *)
Record ProcessResult : Type := {
  ResultData : string;
  ResultContentType : string
}.

(** The worker; [Process] is the image transformation of
    [internal/processor], applied to the downloaded object. *)
Record Worker : Type := {
  id : string;
  consumer : queue.Consumer;
  Process : option Object → string → list Operation → ProcessResult * error
}.

(** [processJob] *)
Definition processJob (w : Worker) (msg : queue.Message) : M error :=
  let jobID := JobID (queue.Job msg) in
  logger INFO "starting job processing" ;;;
  g <- database.GetByID jobID ;;
  match g with
  | (_, Some e) => ret (Some ("failed to get job: " +:+ e))
  | (None, None) => logger WARN "job not found, skipping" ;;; ret None
  | (Some job, None) =>
  if String.eqb (Status job) JobStatusCancelled
  then logger INFO "job canceled, skipping" ;;; ret None
  else
  err <- database.StartProcessing jobID (id w) ;;
  match err with
  | Some e => ret (Some ("failed to start processing: " +:+ e))
  | None =>
  d <- storage.Download (OriginalKey job) ;;
  match d with
  | (_, Some e) =>
      database.FailJob jobID ("failed to download image: " +:+ e) ;;;
      ret (Some ("failed to download image: " +:+ e))
  | (reader, None) =>
  match Process w reader (ContentType job) (MsgOperations (queue.Job msg)) with
  | (_, Some e) =>
      database.FailJob jobID ("failed to process image: " +:+ e) ;;;
      ret (Some ("failed to process image: " +:+ e))
  | (result, None) =>
  let processedKey :=
    "processed/" +:+ UUID_String jobID +:+ "/" +:+ OriginalName job in
  err <- storage.Upload processedKey (ResultData result)
           (Z.of_nat (String.length (ResultData result)))
           (ResultContentType result) ;;
  match err with
  | Some e =>
      database.FailJob jobID ("failed to upload processed image: " +:+ e) ;;;
      ret (Some ("failed to upload processed image: " +:+ e))
  | None =>
  err <- database.CompleteJob jobID processedKey 1 ;;
  match err with
  | Some e => ret (Some ("failed to complete job: " +:+ e))
  | None => logger INFO "job completed successfully" ;;; ret None
  end end end end end end.

(** One iteration of the loop of [run]. *)
Definition run_iteration (w : Worker) : M unit :=
  c <- queue.Consume (consumer w) ;;
  match c with
  | (_, Some _) => logger ERROR "failed to consume message"
  | (None, None) => ret tt
  | (Some msg, None) =>
      err <- processJob w msg ;;
      api.log_if_error err "failed to process job" ;;;
      err <- queue.Acknowledge (consumer w) (queue.MessageID msg) ;;
      api.log_if_error err "failed to acknowledge message"
  end.

End worker.

(** ** Vocabulary of the statements below *)

(** The next call to the database (to the object store) is carried out. *)
Definition db_up (w : World) : Prop := (next_fault (db_faults w)).1 = None.
Definition storage_up (w : World) : Prop := (next_fault (storage_faults w)).1 = None.

(** No call to the database fails on transport. *)
Definition db_reliable (w : World) : Prop := Forall (λ f, f = None) (db_faults w).

(** A world in which every call is carried out, with the given table of
    jobs, at the given instant. *)
Definition quiet_world (now : Time) (t : sql.Table) : World :=
  {| clock := now; uuids := []; jobs := t; db_faults := [];
     bucket := ∅; storage_faults := [];
     queue := {| redis.streams := ∅; redis.groups := ∅ |};
     redis_faults := []; trace := []; log := [] |}.

(** A world with the given random ids, table and transport scripts. *)
Definition scripted_world (now : Time) (ids : list UUID) (t : sql.Table)
    (db storage redis : list error) : World :=
  {| clock := now; uuids := ids; jobs := t; db_faults := db;
     bucket := ∅; storage_faults := storage;
     queue := {| redis.streams := ∅; redis.groups := ∅ |};
     redis_faults := redis; trace := []; log := [] |}.

(** A row as [Create] inserts it for an upload [photo.jpg], then moved to
    the given status. *)
Definition sample_row (st : models.JobStatus) : sql.Row :=
  {| sql.status := st;
     sql.original_key := "users/u/original/j/photo.jpg";
     sql.processed_key := None;
     sql.original_name := "photo.jpg";
     sql.content_type := "image/jpeg";
     sql.file_size := 2048;
     sql.operations := Encodes [];
     sql.error_col := None;
     sql.progress := 0;
     sql.worker_id := None;
     sql.user_id := 0%N;
     sql.created_at := 1000;
     sql.updated_at := 1000;
     sql.started_at := None;
     sql.completed_at := None;
     sql.processing_time_ms := None;
     sql.delete_at := None |}.

(** The content type [CreateJob] settles on for an upload: the one of the
    part's header if it is an accepted image type, else the one detected
    from the file name. *)
Definition resolved_content_type (header : api.FileHeader) : string :=
  if api.isValidImageType (api.HeaderContentType header)
  then api.HeaderContentType header
  else api.detectContentType (api.Filename header).

(** The operations list [CreateJob] reads from the form value, when it
    decodes. *)
Definition decoded_operations (form : api.Form) : option (list models.Operation) :=
  match api.operations_value form with
  | EmptyText => Some []
  | Encodes ops => Some ops
  | Malformed _ _ => None
  end.

(** The operations of the job: the default thumbnail when none is given. *)
Definition effective_operations (ops : list models.Operation) : list models.Operation :=
  if decide (length ops = 0%nat)
  then [{| models.OpName := models.OperationThumbnail;
           models.Parameters := [("size", JNumber 150)] |}]
  else ops.

(** The user a request acts for. *)
Definition user_of (r : api.CreateJobRequest) : UUID := default 0%N (api.session r).

(** The id [uuid.New()] returns next. *)
Definition next_uuid (w : World) : UUID := default 0%N (head (uuids w)).

Definition original_key_of (userID id : UUID) (filename : string) : string :=
  "users/" +:+ UUID_String userID +:+ "/original/" +:+ UUID_String id
    +:+ "/" +:+ filename.

(** Sample inputs. *)
Definition sample_upload : api.FileHeader :=
  {| api.Filename := "photo.jpg";
     api.HeaderContentType := "image/jpeg";
     api.Size := 2048;
     api.Content := "JFIF" |}.

Definition request_with (img : option api.FileHeader) (ops : list models.Operation)
    : api.CreateJobRequest :=
  {| api.session := None;
     api.ParseMultipartForm :=
       inr {| api.image := img; api.operations_value := Encodes ops |} |}.


Definition resize_800 : models.Operation :=
  {| models.OpName := "resize"; models.Parameters := [("width", JNumber 800)] |}.

Definition sample_handlers : api.Handlers :=
  {| api.producer := {| queue.p_streamName := "jobs" |};
     api.groupName := "workers" |}.

Definition sample_consumer : queue.Consumer :=
  {| queue.streamName := "jobs";
     queue.consumerGroup := "workers";
     queue.consumerName := "worker-1a2b3c4d";
     queue.pollTimeout := 5 * time.Second |}.

Definition sample_message (id : UUID) : models.JobMessage :=
  {| models.MsgOperations := [resize_800]; models.JobID := id |}.

(** A stream of two entries of which the first was delivered to the sample
    consumer and is not acknowledged. *)
Definition sample_queue : redis.State :=
  {| redis.streams :=
       {[ "jobs" :=
            [ {| redis.XID := "1-0";
                 redis.Values := [("data", Encodes (sample_message 7%N))] |};
              {| redis.XID := "2-0";
                 redis.Values := [("data", Encodes (sample_message 8%N))] |} ] ]};
     redis.groups :=
       {[ ("jobs", "workers") :=
            {| redis.delivered := 1;
               redis.pending := [("1-0", "worker-1a2b3c4d")] |} ]} |}.

(** A world with the given Redis state and transport script for Redis. *)
Definition queue_world (q : redis.State) (script : list error) : World :=
  {| clock := 5000; uuids := []; jobs := ∅; db_faults := [];
     bucket := ∅; storage_faults := [];
     queue := q; redis_faults := script; trace := []; log := [] |}.

(** No call to the object store fails on transport. *)
Definition storage_reliable (w : World) : Prop :=
  Forall (λ f, f = None) (storage_faults w).

(** The [operations] column of the row decodes. *)
Definition decodable (r : sql.Row) : Prop :=
  match sql.operations r with
  | Malformed _ _ => False
  | _ => True
  end.

#[global] Instance decodable_dec (r : sql.Row) : Decision (decodable r).
Proof. unfold decodable. destruct (sql.operations r); apply _. Defined.

(** The calls [cleanupJob] makes for a selected row, in order. *)
Definition cleanup_calls (x : UUID * sql.Row) : list Call :=
  (if decide (sql.original_key x.2 ≠ "")
   then [CallRemoveObject (sql.original_key x.2)] else [])
  ++ (match sql.processed_key x.2 with
      | Some k => if decide (k ≠ "") then [CallRemoveObject k] else []
      | None => []
      end)
  ++ [CallExec (sql.DELETE_FROM_jobs x.1)].

(** The same calls, read off the job [cleanupJob] is given. *)
Definition job_calls (job : models.Job) : list Call :=
  (if decide (models.OriginalKey job ≠ "")
   then [CallRemoveObject (models.OriginalKey job)] else [])
  ++ (if decide (models.ProcessedKey job ≠ "")
      then [CallRemoveObject (models.ProcessedKey job)] else [])
  ++ [CallExec (sql.DELETE_FROM_jobs (models.ID job))].

(** [key] is a non-empty object key of [job]. *)
Definition key_of (key : string) (job : models.Job) : Prop :=
  key ≠ "" ∧ (key = models.OriginalKey job ∨ key = models.ProcessedKey job).

(** The transport script of the object store when [cleanupJob] comes to
    the processed object: one outcome is used up by the delete of the
    original object, if that was attempted. *)
Definition script_after_original (job : models.Job) (w : World) : list error :=
  if decide (models.OriginalKey job ≠ "")
  then (next_fault (storage_faults w)).2
  else storage_faults w.

(** The job [GetJobsToCleanup] makes of a selected row. *)
Definition job_of_row (x : UUID * sql.Row) : models.Job :=
  (models.UnmarshalOperations (database.scan x)).1.

(** A completed row whose retention ended at [deleteAt]. *)
Definition expired_row (originalKey processedKey : string) (deleteAt : Time) : sql.Row :=
  {| sql.status := models.JobStatusCompleted;
     sql.original_key := originalKey;
     sql.processed_key := Some processedKey;
     sql.original_name := "photo.jpg";
     sql.content_type := "image/jpeg";
     sql.file_size := 2048;
     sql.operations := Encodes [];
     sql.error_col := None;
     sql.progress := 100;
     sql.worker_id := Some "worker-1a2b3c4d";
     sql.user_id := 0%N;
     sql.created_at := 1000;
     sql.updated_at := 3000;
     sql.started_at := Some 2000;
     sql.completed_at := Some 3000;
     sql.processing_time_ms := Some 0;
     sql.delete_at := Some deleteAt |}.

(** A world for the sweeper at instant 5000: rows 1 and 2 are expired
    (row 2 the earlier), row 3 is not; the objects of rows 1 and 2 are in
    the bucket; the first call to the object store fails. *)
Definition sweep_world : World :=
  {| clock := 5000; uuids := [];
     jobs := {[ 1%N := expired_row "users/u/original/1/a.jpg" "processed/1/a.jpg" 4000;
                2%N := expired_row "users/u/original/2/b.jpg" "processed/2/b.jpg" 3500;
                3%N := expired_row "users/u/original/3/c.jpg" "processed/3/c.jpg" 9000 ]};
     db_faults := [];
     bucket := {[ "users/u/original/1/a.jpg" := {| obj_data := "a"; obj_content_type := "image/jpeg" |};
                  "processed/1/a.jpg" := {| obj_data := "a'"; obj_content_type := "image/jpeg" |};
                  "users/u/original/2/b.jpg" := {| obj_data := "b"; obj_content_type := "image/jpeg" |};
                  "processed/2/b.jpg" := {| obj_data := "b'"; obj_content_type := "image/jpeg" |} ]};
     storage_faults := [Some "connection reset"];
     queue := {| redis.streams := ∅; redis.groups := ∅ |};
     redis_faults := []; trace := []; log := [] |}.

(** ** The system as a whole *)

(** What a component does in one step: a request served by the acceptor,
    one iteration of a worker's loop, one cycle of the sweeper.  (The other
    handlers of the acceptor, [ListJobs], [GetImage], [GetQueueStats] and
    [Health], only read.) *)
Inductive Action : Type :=
| ActCreateJob (h : api.Handlers) (r : api.CreateJobRequest)
| ActGetJob (p : api.IDParam)
| ActCancelJob (p : api.IDParam)
| ActStreamJobStatus (p : api.IDParam) (ticks : nat)
| ActWorker (wk : worker.Worker)
| ActSweeper (cw : cleanup.Worker).

Definition perform (a : Action) : M unit :=
  match a with
  | ActCreateJob h r => api.CreateJob h r ;;; ret tt
  | ActGetJob p => api.GetJob p ;;; ret tt
  | ActCancelJob p => api.CancelJob p ;;; ret tt
  | ActStreamJobStatus p ticks => api.StreamJobStatus p ticks ;;; ret tt
  | ActWorker wk => worker.run_iteration wk
  | ActSweeper cw => cleanup.cleanup cw ;;; ret tt
  end.

(** The worlds the system can be in: it starts with an empty table and no
    call made; components act; and, between their steps, anything may
    happen to the clock, the transport, the bucket and the queue. *)
Inductive reachable : World → Prop :=
| reach_start (w : World) :
    jobs w = ∅ → trace w = [] → reachable w
| reach_action (a : Action) (w : World) :
    reachable w → reachable (perform a w).2
| reach_env (w w' : World) :
    reachable w → jobs w' = jobs w → trace w' = trace w → reachable w'.

(** The statements of the repository methods the components call: every
    method of [jobs.go] that writes, except [UpdateProgress]. *)
Inductive component_stmt : sql.Stmt → Prop :=
| stmt_Create (j : models.Job) :
    component_stmt (sql.INSERT_INTO_jobs j)
| stmt_UpdateStatus (id : UUID) (s : models.JobStatus) :
    component_stmt (sql.UPDATE_jobs [sql.SetStatus s] id None)
| stmt_StartProcessing (id : UUID) (workerID : string) (now : Time) :
    component_stmt
      (sql.UPDATE_jobs [sql.SetStatus models.JobStatusProcessing;
                        sql.SetWorkerID workerID; sql.SetStartedAt now] id None)
| stmt_CompleteJob (id : UUID) (key : string) (now : Time) (ms : Z) (deleteAt : Time) :
    component_stmt
      (sql.UPDATE_jobs [sql.SetStatus models.JobStatusCompleted;
                        sql.SetProcessedKey key; sql.SetProgress 100;
                        sql.SetCompletedAt now; sql.SetProcessingTimeMs ms;
                        sql.SetDeleteAt deleteAt] id None)
| stmt_FailJob (id : UUID) (msg : string) (now : Time) :
    component_stmt
      (sql.UPDATE_jobs [sql.SetStatus models.JobStatusFailed; sql.SetError msg;
                        sql.SetCompletedAt now] id None)
| stmt_CancelJob (id : UUID) :
    component_stmt
      (sql.UPDATE_jobs [sql.SetStatus models.JobStatusCancelled] id
         (Some [models.JobStatusPending; models.JobStatusQueued]))
| stmt_DeleteJob (id : UUID) :
    component_stmt (sql.DELETE_FROM_jobs id).

(** A call other than the execution of a statement. *)
Definition not_exec (c : Call) : Prop :=
  match c with
  | CallExec _ => False
  | _ => True
  end.

(** A [SET] list that assigns [progress] only the value 100. *)
Definition sets_progress_100 (set : list sql.Assign) : Prop :=
  ∀ p, sql.SetProgress p ∈ set → p = 100.

(** Every row has progress 0 or 100. *)
Definition progress_ok (t : sql.Table) : Prop :=
  map_Forall (λ _ r, sql.progress r = 0 ∨ sql.progress r = 100) t.

(** The invariant of the system: the table is [progress_ok] and every
    statement executed so far is a [component_stmt]. *)
Definition system_inv (w : World) : Prop :=
  progress_ok (jobs w) ∧ ∀ s, CallExec s ∈ trace w → component_stmt s.

(** A computation keeps the invariant. *)
Definition preserves {A} (m : M A) : Prop :=
  ∀ w, system_inv w → system_inv (m w).2.

(** A fresh system: an empty table and bucket, the consumer group created
    on an empty stream. *)
Definition fresh_system : World :=
  {| clock := 5000; uuids := [7%N; 9%N]; jobs := ∅; db_faults := [];
     bucket := ∅; storage_faults := [];
     queue := {| redis.streams := ∅;
                 redis.groups :=
                   {[ ("jobs", "workers") :=
                        {| redis.delivered := 0; redis.pending := [] |} ]} |};
     redis_faults := []; trace := []; log := [] |}.

(** A worker whose transformation succeeds. *)
Definition sample_worker : worker.Worker :=
  {| worker.id := "worker-1a2b3c4d";
     worker.consumer := sample_consumer;
     worker.Process := λ _ _ _,
       ({| worker.ResultData := "JFIF'";
           worker.ResultContentType := "image/jpeg" |}, None) |}.

(** ** internal/processor: the image transformation *)

Module processor.

Import models.

(** [strings.Contains] *)
Fixpoint Contains (s substr : string) : bool :=
  (String.prefix substr s
   || match s with
      | EmptyString => false
      | String _ rest => Contains rest substr
      end)%bool.

(** The packages [image], [image/png], [image/jpeg] and [imaging] the
    processor is built on.  [Decode] is [image.Decode] on the reader of
    the downloaded object: the image and the name of its format, or the
    error.  A [float64] argument is an integer here, as the numbers of a
    parameter bag are. *)
Record Imaging : Type := {
  Image : Type;
  Decode : option Object → string + (Image * string);
  Clone : Image → Image;
  Resize : Image → Z → Z → Image;
  Thumbnail : Image → Z → Z → Image;
  Blur : Image → Z → Image;
  Sharpen : Image → Z → Image;
  Grayscale : Image → Image;
  AdjustSaturation : Image → Z → Image;
  AdjustBrightness : Image → Z → Image;
  AdjustContrast : Image → Z → Image;
  Rotate : Image → Z → Image;
  FlipH : Image → Image;
  FlipV : Image → Image;
  EncodePNG : Image → string + string;    (* png.Encode: error, or the bytes *)
  EncodeJPEG : Image → string + string    (* jpeg.Encode, quality 90 *)
}.

(** [params[key]] on the decoded JSON object: of two members with the
    same name the later one is kept. *)
Definition param (params : list (string * JSONValue)) (key : string)
    : option JSONValue :=
  snd <$> List.find (λ kv, bool_decide (kv.1 = key)) (rev params).

(** [getIntParam] *)
Definition getIntParam (params : list (string * JSONValue)) (key : string)
    (defaultVal : Z) : Z :=
  match param params key with
  | Some (JNumber z) => z
  | _ => defaultVal
  end.

(** [getFloatParam] *)
Definition getFloatParam (params : list (string * JSONValue)) (key : string)
    (defaultVal : Z) : Z :=
  match param params key with
  | Some (JNumber z) => z
  | _ => defaultVal
  end.

(** [getBoolParam] *)
Definition getBoolParam (params : list (string * JSONValue)) (key : string)
    (defaultVal : bool) : bool :=
  match param params key with
  | Some (JBool b) => b
  | _ => defaultVal
  end.

Section methods.

Variable lib : Imaging.

(** The methods of [transform.go] and [filters.go]; each returns a nil
    error. *)
Definition resize (img : Image lib) (params : list (string * JSONValue))
    : Image lib :=
  let width := getIntParam params "width" 0 in
  let height := getIntParam params "height" 0 in
  if decide (width = 0 ∧ height = 0) then img
  else Resize lib img width height.

Definition thumbnail (img : Image lib) (params : list (string * JSONValue))
    : Image lib :=
  let size := getIntParam params "size" 150 in
  Thumbnail lib img size size.

Definition blur (img : Image lib) (params : list (string * JSONValue))
    : Image lib :=
  Blur lib img (getFloatParam params "sigma" 3).

Definition sharpen (img : Image lib) (params : list (string * JSONValue))
    : Image lib :=
  Sharpen lib img (getFloatParam params "sigma" 1).

Definition grayscale (img : Image lib) : Image lib := Grayscale lib img.

Definition sepia (img : Image lib) : Image lib :=
  let gray := Grayscale lib img in
  let adjusted := AdjustSaturation lib gray (-100) in
  let adjusted := AdjustBrightness lib adjusted 5 in
  AdjustContrast lib adjusted 10.

(** The clamp of [brightness], [contrast] and [saturation]. *)
Definition clamp (amount : Z) : Z :=
  if decide (amount < -100) then -100
  else if decide (amount > 100) then 100
  else amount.

Definition brightness (img : Image lib) (params : list (string * JSONValue))
    : Image lib :=
  AdjustBrightness lib img (clamp (getFloatParam params "amount" 0)).

Definition contrast (img : Image lib) (params : list (string * JSONValue))
    : Image lib :=
  AdjustContrast lib img (clamp (getFloatParam params "amount" 0)).

Definition saturation (img : Image lib) (params : list (string * JSONValue))
    : Image lib :=
  AdjustSaturation lib img (clamp (getFloatParam params "amount" 0)).

Definition rotate (img : Image lib) (params : list (string * JSONValue))
    : Image lib :=
  Rotate lib img (getFloatParam params "angle" 0).

Definition flip (img : Image lib) (params : list (string * JSONValue))
    : Image lib :=
  if getBoolParam params "horizontal" true then FlipH lib img
  else FlipV lib img.

(** [applyOperation]: the image, or the error. *)
Definition applyOperation (img : Image lib) (op : Operation)
    : string + Image lib :=
  if String.eqb (OpName op) OperationResize then inr (resize img (Parameters op))
  else if String.eqb (OpName op) OperationThumbnail then inr (thumbnail img (Parameters op))
  else if String.eqb (OpName op) OperationBlur then inr (blur img (Parameters op))
  else if String.eqb (OpName op) OperationSharpen then inr (sharpen img (Parameters op))
  else if String.eqb (OpName op) OperationGrayscale then inr (grayscale img)
  else if String.eqb (OpName op) OperationSepia then inr (sepia img)
  else if String.eqb (OpName op) OperationRotate then inr (rotate img (Parameters op))
  else if String.eqb (OpName op) OperationFlip then inr (flip img (Parameters op))
  else if String.eqb (OpName op) OperationBrightness then inr (brightness img (Parameters op))
  else if String.eqb (OpName op) OperationContrast then inr (contrast img (Parameters op))
  else if String.eqb (OpName op) OperationSaturation then inr (saturation img (Parameters op))
  else inl ("unknown operation: " +:+ OpName op).

(** The loop of [Process] over the operations. *)
Fixpoint apply_operations (nrgba : Image lib) (operations : list Operation)
    : string + Image lib :=
  match operations with
  | [] => inr nrgba
  | op :: rest =>
      match applyOperation nrgba op with
      | inl e => inl ("failed to apply operation " +:+ OpName op +:+ ": " +:+ e)
      | inr nrgba => apply_operations nrgba rest
      end
  end.

(** The [nil] result of a failed [Process]. *)
Definition no_result : worker.ProcessResult :=
  {| worker.ResultData := ""; worker.ResultContentType := "" |}.

(** [Process] (the bounds of the result are left out) *)
Definition Process (reader : option Object) (contentType : string)
    (operations : list Operation) : worker.ProcessResult * error :=
  match Decode lib reader with
  | inl e => (no_result, Some ("failed to decode image: " +:+ e))
  | inr (img, format) =>
      let nrgba := Clone lib img in
      match apply_operations nrgba operations with
      | inl e => (no_result, Some e)
      | inr nrgba =>
          if (Contains contentType "png" || String.eqb format "png")%bool then
            match EncodePNG lib nrgba with
            | inl e => (no_result, Some ("failed to encode PNG: " +:+ e))
            | inr data =>
                ({| worker.ResultData := data;
                    worker.ResultContentType := "image/png" |}, None)
            end
          else
            match EncodeJPEG lib nrgba with
            | inl e => (no_result, Some ("failed to encode JPEG: " +:+ e))
            | inr data =>
                ({| worker.ResultData := data;
                    worker.ResultContentType := "image/jpeg" |}, None)
            end
      end
  end.

End methods.

End processor.

(** ** internal/api/middleware.go: the session store *)

Module middleware.

(** The fields of [models.User] a session is made of. *)
Record User : Type := {
  ID : UUID;
  UserEmail : string;
  UserUsername : string
}.

(** [type Session struct] *)
Record Session : Type := {
  UserID : UUID;
  Email : string;
  Username : string;
  ExpiresAt : Time
}.

(** [type SessionStore struct] (the mutex left out) *)
Record SessionStore : Type := {
  sessions : gmap string Session;
  ttl : Duration
}.

(** [NewSessionStore] *)
Definition NewSessionStore (ttl : Duration) : SessionStore :=
  {| sessions := ∅; ttl := ttl |}.

(** [Create], at instant [now]; [random] is the outcome of [rand.Read]
    followed by the base64 encoding: the error, or the session id. *)
Definition Create (s : SessionStore) (now : Time) (random : string + string)
    (user : User) : SessionStore * (string * error) :=
  match random with
  | inl e => (s, ("", Some e))
  | inr sessionID =>
      let session := {| UserID := ID user;
                        Email := UserEmail user;
                        Username := UserUsername user;
                        ExpiresAt := time.Add now (ttl s) |} in
      ({| sessions := <[sessionID := session]> (sessions s); ttl := ttl s |},
       (sessionID, None))
  end.

(** [t.After(u)] *)
Definition After (t u : Time) : bool := bool_decide (u < t).

(** [Get], at instant [now]: [None] is the result [(nil, false)]. *)
Definition Get (s : SessionStore) (now : Time) (sessionID : string)
    : option Session :=
  match sessions s !! sessionID with
  | None => None
  | Some session => if After now (ExpiresAt session) then None else Some session
  end.

(** [Delete] *)
Definition Delete (s : SessionStore) (sessionID : string) : SessionStore :=
  {| sessions := delete sessionID (sessions s); ttl := ttl s |}.

(** One tick of [cleanupExpired], at instant [now]. *)
Definition cleanupExpired (s : SessionStore) (now : Time) : SessionStore :=
  {| sessions := filter (λ kv, After now (ExpiresAt kv.2) = false) (sessions s);
     ttl := ttl s |}.

End middleware.

(** ** Redis commands of the statistics and of the start of a worker *)

Module rediscmd.

Import redis.

(** [redis.XPending]: the summary form of XPENDING. *)
Record XPending : Type := {
  PendingCount : Z;
  Consumers : list (string * Z)
}.

(** XLEN stream: a missing stream has length 0. *)
Definition xlen (stream : string) (st : State) : Z :=
  Z.of_nat (length (entries st stream)).

(** XPENDING stream group: the number of pending entries of the group and,
    for each consumer that has some, its name and their number. *)
Definition xpending (stream group : string) (st : State) : string + XPending :=
  match groups st !! (stream, group) with
  | None => inl "NOGROUP No such key or consumer group"
  | Some g =>
      inr {| PendingCount := Z.of_nat (length (pending g));
             Consumers :=
               (λ c, (c, Z.of_nat (length (filter (λ p, p.2 = c) (pending g)))))
                 <$> remove_dups (pending g).*2 |}
  end.

(** XGROUP CREATE stream group start MKSTREAM, for the starts "0" (the
    group is to be delivered the whole stream) and "$" (only the entries
    added from now on). *)
Definition xgroup_create_mkstream (stream group start : string) (st : State)
    : State * Err :=
  match groups st !! (stream, group) with
  | Some _ => (st, Failure "BUSYGROUP Consumer Group name already exists")
  | None =>
      let es := entries st stream in
      if bool_decide (start = "0") || bool_decide (start = "$") then
        ({| streams := <[stream := es]> (streams st);
            groups :=
              <[(stream, group) :=
                  {| delivered := if bool_decide (start = "0") then 0%nat
                                  else length es;
                     pending := [] |}]> (groups st) |}, NoErr)
      else (st, Failure "ERR Invalid stream ID specified as stream command argument")
  end.

(** [err.Error()] *)
Definition Error (e : Err) : option string :=
  match e with
  | NoErr => None
  | Nil => Some "redis: nil"
  | Failure msg => Some msg
  end.

End rediscmd.

(** ** internal/queue: statistics and the consumer group *)

Module queuestats.

Import models redis rediscmd.

(** [client.XLen(...).Result()] (a read, not entered in the trace) *)
Definition XLen (stream : string) : M (Z * error) :=
  f <- redis_fault ;;
  match f with
  | Some e => ret (0, Some e)
  | None => q <- get queue ;; ret (xlen stream q, None)
  end.

(** [client.XPending(...).Result()] (a read, not entered in the trace) *)
Definition XPending (stream group : string) : M (option rediscmd.XPending * error) :=
  f <- redis_fault ;;
  match f with
  | Some e => ret (None, Some e)
  | None =>
      q <- get queue ;;
      match xpending stream group q with
      | inl e => ret (None, Some e)
      | inr p => ret (Some p, None)
      end
  end.

(** [client.XGroupCreateMkStream(...).Err()] (not entered in the trace) *)
Definition XGroupCreateMkStream (stream group start : string) : M Err :=
  f <- redis_fault ;;
  match f with
  | Some e => ret (Failure e)
  | None =>
      q <- get queue ;;
      let '(q', err) := xgroup_create_mkstream stream group start q in
      set_queue q' ;;; ret err
  end.

(** [models.QueueStats] *)
Record QueueStats : Type := {
  StreamLength : Z;
  PendingMessages : Z;
  ConsumerCount : Z
}.

(** [Producer.GetStats] *)
Definition GetStats (p : queue.Producer) (consumerGroup : string)
    : M (option QueueStats * error) :=
  l <- XLen (queue.p_streamName p) ;;
  match l with
  | (_, Some e) => ret (None, Some ("failed to get stream length: " +:+ e))
  | (length, None) =>
      r <- XPending (queue.p_streamName p) consumerGroup ;;
      match r with
      | (Some pending, None) =>
          ret (Some {| StreamLength := length;
                       PendingMessages := PendingCount pending;
                       ConsumerCount := Z.of_nat (List.length (Consumers pending)) |},
               None)
      | _ =>
          ret (Some {| StreamLength := length;
                       PendingMessages := 0;
                       ConsumerCount := 0 |}, None)
      end
  end.

(** [Consumer.EnsureGroup] *)
Definition EnsureGroup (c : queue.Consumer) : M error :=
  err <- XGroupCreateMkStream (queue.streamName c) (queue.consumerGroup c) "0" ;;
  match Error err with
  | Some msg =>
      if negb (String.eqb msg "BUSYGROUP Consumer Group name already exists")
      then ret (Some ("failed to create consumer group: " +:+ msg))
      else ret None
  | None => ret None
  end.

End queuestats.

(** ** internal/database: the listing, and the health check *)

Module jobrepo.

Import models sql.

(** [ORDER BY created_at DESC] *)
Definition by_created_at_desc (x y : UUID * Row) : Prop :=
  created_at y.2 ≤ created_at x.2.

#[global] Instance by_created_at_desc_dec x y : Decision (by_created_at_desc x y).
Proof. unfold by_created_at_desc. apply _. Defined.

(** The rows of a user. *)
Definition rows_of (userID : UUID) (t : Table) : list (UUID * Row) :=
  filter (λ x, user_id x.2 = userID) (map_to_list t).

(** [SELECT COUNT( * ) FROM jobs WHERE user_id = $1] *)
Definition count_jobs (userID : UUID) (t : Table) : Z :=
  Z.of_nat (length (rows_of userID t)).

(** [SELECT ... FROM jobs WHERE user_id = $1 ORDER BY created_at DESC
    LIMIT $2 OFFSET $3] *)
Definition select_jobs (userID : UUID) (limit offset : Z) (t : Table)
    : string + list (UUID * Row) :=
  if decide (limit < 0) then inl "pq: LIMIT must not be negative"
  else if decide (offset < 0) then inl "pq: OFFSET must not be negative"
  else inr (take (Z.to_nat limit)
              (drop (Z.to_nat offset)
                 (merge_sort by_created_at_desc (rows_of userID t)))).

(** [List]; [page] and [pageSize] are Go [int]s.  (The two reads are not
    entered in the trace.) *)
Definition List (userID : UUID) (page pageSize : Z) : M (list Job * Z * error) :=
  let page := if decide (page < 1) then 1 else page in
  let pageSize := if decide (pageSize < 1) then 10 else pageSize in
  let offset := int64_mul (page - 1) pageSize in
  f <- db_fault ;;
  match f with
  | Some e => ret ([], 0, Some ("failed to count jobs: " +:+ e))
  | None =>
      t <- get jobs ;;
      let total := count_jobs userID t in
      f <- db_fault ;;
      match f with
      | Some e => ret ([], 0, Some ("failed to list jobs: " +:+ e))
      | None =>
          t <- get jobs ;;
          match select_jobs userID pageSize offset t with
          | inl e => ret ([], 0, Some ("failed to list jobs: " +:+ e))
          | inr rows =>
              match database.scan_all rows with
              | (_, Some e) => ret ([], 0, Some e)
              | (jobs, None) => ret (jobs, total, None)
              end
          end
      end
  end.

(** [DB.Health]: [PingContext] *)
Definition Health : M error := db_fault.

End jobrepo.

(** [Storage.Health]: the error of [BucketExists] *)
Definition storage_Health : M error := storage_fault.

(** ** internal/api/handlers.go: the handlers that only read *)

Module handlers.

Import models.

Definition StatusServiceUnavailable : Z := 503.

(** A GET /api/v1/jobs request: what [strconv.Atoi] returns for the
    [page] and [page_size] query values (0 for a value that is not a
    number), and the user of the session, if any. *)
Record ListJobsRequest : Type := {
  page : Z;
  page_size : Z;
  list_session : option UUID
}.

(** [models.JobListResponse] *)
Record JobListResponse : Type := {
  Jobs : list Job;
  Total : Z;
  Page : Z;
  PageSize : Z;
  TotalPages : Z
}.

(** [ListJobs]: an error response, or the 200 response with this
    listing. *)
Definition ListJobs (r : ListJobsRequest) : M (api.Response + JobListResponse) :=
  let page := if decide (page r < 1) then 1 else page r in
  let pageSize := if decide (page_size r < 1 ∨ page_size r > 100) then 20
                  else page_size r in
  let userID := match list_session r with
                | Some u => u
                | None => 0%N
                end in
  l <- jobrepo.List userID page pageSize ;;
  let '(jobs, total, err) := l in
  match err with
  | Some _ =>
      logger ERROR "failed to list jobs" ;;;
      r <- api.writeError api.StatusInternalServerError "failed to list jobs" ;;
      ret (inl r)
  | None =>
      let totalPages := Z.quot (wrap64 (wrap64 (total + pageSize) - 1)) pageSize in
      ret (inr {| Jobs := jobs; Total := total; Page := page;
                  PageSize := pageSize; TotalPages := totalPages |})
  end.

(** What [GetImage] writes when it comes to stream an object: the
    [Content-Type] header and the bytes copied to the client. *)
Record ImageStream : Type := {
  ImageContentType : string;
  ImageData : string
}.

(** [GetImage]; [original] is the [original] query value.  Reading from
    the reader of a missing object fails: the error is logged after the
    header was set and nothing is copied. *)
Definition GetImage (idParam : api.IDParam) (original : string)
    : M (api.Response + ImageStream) :=
  match idParam with
  | api.Unparsable _ =>
      r <- api.writeError api.StatusBadRequest "invalid image ID" ;; ret (inl r)
  | api.ParsesTo id =>
      g <- database.GetByID id ;;
      match g with
      | (_, Some _) =>
          logger ERROR "failed to get job" ;;;
          r <- api.writeError api.StatusInternalServerError "failed to get job" ;;
          ret (inl r)
      | (None, None) =>
          r <- api.writeError api.StatusNotFound "image not found" ;; ret (inl r)
      | (Some job, None) =>
          let imageKey := ProcessedKey job in
          let imageKey :=
            if (String.eqb imageKey "" || String.eqb original "true")%bool
            then OriginalKey job else imageKey in
          d <- storage.Download imageKey ;;
          match d with
          | (_, Some _) =>
              logger ERROR "failed to download image" ;;;
              r <- api.writeError api.StatusInternalServerError
                     "failed to download image" ;;
              ret (inl r)
          | (Some object, None) =>
              ret (inr {| ImageContentType := ContentType job;
                          ImageData := obj_data object |})
          | (None, None) =>
              logger ERROR "failed to stream image" ;;;
              ret (inr {| ImageContentType := ContentType job;
                          ImageData := "" |})
          end
      end
  end.

(** The response of [Health]: the status code, the overall status and,
    for each component in the order checked, the error of its check
    ([None]: healthy).  The connection counts of the database entry are
    left out. *)
Record HealthResponse : Type := {
  HealthStatusCode : Z;
  HealthStatus : string;
  checks : list (string * error)
}.

(** [Health] *)
Definition Health (h : api.Handlers) : M HealthResponse :=
  dbErr <- jobrepo.Health ;;
  storageErr <- storage_Health ;;
  s <- queuestats.GetStats (api.producer h) (api.groupName h) ;;
  let redisErr := s.2 in
  let status :=
    match dbErr, storageErr, redisErr with
    | None, None, None => "healthy"
    | _, _, _ => "unhealthy"
    end in
  let statusCode := if String.eqb status "unhealthy"
                    then StatusServiceUnavailable else api.StatusOK in
  ret {| HealthStatusCode := statusCode;
         HealthStatus := status;
         checks := [("database", dbErr); ("storage", storageErr);
                    ("redis", redisErr)] |}.

End handlers.

(** ** Vocabulary of the further statements *)

(** A processor over a toy imaging library: an image is its description,
    every object decodes as a JPEG. *)
Definition sample_imaging : processor.Imaging :=
  {| processor.Image := string;
     processor.Decode := λ reader,
       match reader with
       | Some object => inr (obj_data object, "jpeg")
       | None => inl "unexpected EOF"
       end;
     processor.Clone := λ img, img;
     processor.Resize := λ img _ _, img +:+ " resized";
     processor.Thumbnail := λ img _ _, img +:+ " thumbnail";
     processor.Blur := λ img _, img +:+ " blurred";
     processor.Sharpen := λ img _, img +:+ " sharpened";
     processor.Grayscale := λ img, img +:+ " gray";
     processor.AdjustSaturation := λ img _, img +:+ " saturation";
     processor.AdjustBrightness := λ img _, img +:+ " brightness";
     processor.AdjustContrast := λ img _, img +:+ " contrast";
     processor.Rotate := λ img _, img +:+ " rotated";
     processor.FlipH := λ img, img +:+ " flipped";
     processor.FlipV := λ img, img +:+ " flipped";
     processor.EncodePNG := λ img, inr ("PNG " +:+ img);
     processor.EncodeJPEG := λ img, inr ("JFIF " +:+ img) |}.

(** The row [r'] is the row [r] after a failed attempt to process it:
    FAILED with the given message, and neither eligible for cleanup nor
    given a processed object if it was not before. *)
Definition failed_with (msg : string) (r r' : sql.Row) : Prop :=
  sql.status r' = models.JobStatusFailed
  ∧ sql.error_col r' = Some msg
  ∧ sql.delete_at r' = sql.delete_at r
  ∧ sql.processed_key r' = sql.processed_key r
  ∧ sql.progress r' = sql.progress r.

(** The key [processJob] stores the processed object under. *)
Definition processed_key_of (id : UUID) (name : string) : string :=
  "processed/" +:+ UUID_String id +:+ "/" +:+ name.

(** A world with one QUEUED job, its object in the bucket. *)
Definition worker_world (storage : list error) : World :=
  {| clock := 5000; uuids := [];
     jobs := {[ 7%N := sample_row models.JobStatusQueued ]};
     db_faults := [];
     bucket := {[ "users/u/original/j/photo.jpg" :=
                    {| obj_data := "photo"; obj_content_type := "image/jpeg" |} ]};
     storage_faults := storage;
     queue := sample_queue;
     redis_faults := []; trace := []; log := [] |}.

(** The message of the first entry of [sample_queue]. *)
Definition sample_delivery : queue.Message :=
  {| queue.MessageID := "1-0";
     queue.Job := sample_message 7%N;
     queue.Data := Encodes (sample_message 7%N) |}.

(** A worker over the toy imaging library. *)
Definition imaging_worker : worker.Worker :=
  {| worker.id := "worker-1a2b3c4d";
     worker.consumer := sample_consumer;
     worker.Process := processor.Process sample_imaging |}.

(** A computation leaves the queue and the transport script of Redis as
    they are. *)
Definition keeps_queue {A} (m : M A) : Prop :=
  ∀ w, queue (m w).2 = queue w ∧ redis_faults (m w).2 = redis_faults w.

(** No call to Redis fails on transport. *)
Definition redis_reliable (w : World) : Prop :=
  Forall (λ f, f = None) (redis_faults w).

(** The first [n] iterations of the loop of the worker's [run]. *)
Fixpoint run_iterations (wk : worker.Worker) (n : nat) : M unit :=
  match n with
  | O => ret tt
  | S n' => worker.run_iteration wk ;;; run_iterations wk n'
  end.

(** The consumer has no entry in the pending entries list of the group. *)
Definition nothing_pending (g : redis.GroupState) (consumer : string) : Prop :=
  Forall (λ p : string * string, p.2 ≠ consumer) (redis.pending g).

(** A stream whose second entry does not decode, the first being
    acknowledged and the second delivered to the sample consumer. *)
Definition poisoned_queue : redis.State :=
  {| redis.streams :=
       {[ "jobs" :=
            [ {| redis.XID := "1-0";
                 redis.Values := [("data", Encodes (sample_message 7%N))] |};
              {| redis.XID := "2-0";
                 redis.Values := [("data", Malformed "{" "unexpected end of JSON input")] |};
              {| redis.XID := "3-0";
                 redis.Values := [("data", Encodes (sample_message 8%N))] |} ] ]};
     redis.groups :=
       {[ ("jobs", "workers") :=
            {| redis.delivered := 2;
               redis.pending := [("2-0", "worker-1a2b3c4d")] |} ]} |}.

(** The object [GetImage] serves for a row: the processed one when the
    row has a processed key, unless the original is asked for. *)
Definition served_key (r : sql.Row) (original : string) : string :=
  match sql.processed_key r with
  | Some k =>
      if decide (k = "" ∨ original = "true") then sql.original_key r else k
  | None => sql.original_key r
  end.

(** * Properties *)

Import models sql.

(** ** Statements and the table *)

Ltac run :=
  repeat first
    [ progress unfold database.StartProcessing, database.FailJob,
        database.CancelJob, database.CompleteJob, database.UpdateStatus,
        database.UpdateProgress, database.DeleteJob, database.Create,
        database.GetByID, database.GetJobsToCleanup,
        database.ExecContext, database.QueryContext,
        bind, ret, get, time_Now, record_call, db_fault, set_jobs, logger
    | progress simpl
    | progress cbn [clock uuids jobs db_faults bucket storage_faults queue
                    redis_faults trace log fst snd] ].

(** C1 (as amended).  [StartProcessing] issues one UPDATE whose WHERE clause
    tests the id alone.  When the database carries the statement out the
    call returns no error: a row with that id, whatever its status, gets
    status PROCESSING, [worker_id] and [started_at = now] (its other
    columns but [updated_at] are kept), the other rows are untouched, and
    if no row has that id the table is unchanged.  A transport error is
    the only error, and then the table is unchanged. *)
Theorem start_processing_unconditional (w : World) (id : UUID) (workerID : string) :
  let '(err, w') := database.StartProcessing id workerID w in
  trace w' = trace w ++
    [CallExec (UPDATE_jobs [SetStatus JobStatusProcessing; SetWorkerID workerID;
                            SetStartedAt (clock w)] id None)]
  ∧ err = (next_fault (db_faults w)).1
  ∧ (∀ id', id' ≠ id → jobs w' !! id' = jobs w !! id')
  ∧ (err ≠ None → jobs w' = jobs w)
  ∧ (jobs w !! id = None → jobs w' = jobs w)
  ∧ (∀ r, err = None → jobs w !! id = Some r →
       ∃ r', jobs w' !! id = Some r'
         ∧ status r' = JobStatusProcessing
         ∧ worker_id r' = Some workerID
         ∧ started_at r' = Some (clock w)
         ∧ progress r' = progress r
         ∧ processed_key r' = processed_key r
         ∧ completed_at r' = completed_at r
         ∧ delete_at r' = delete_at r
         ∧ error_col r' = error_col r).
Proof.
  run. destruct (next_fault (db_faults w)) as [[e|] rest] eqn:Hf; simpl.
  - repeat split; try done.
  - destruct (jobs w !! id) as [r|] eqn:Hr; simpl.
    + split; [done|]. split; [done|].
      split; [intros id' Hne; by rewrite lookup_insert_ne|].
      split; [done|]. split; [done|].
      intros r0 _ [= <-]. eexists. rewrite lookup_insert_eq.
      split; [done|]. by destruct r.
    + repeat split; try done.
Qed.

(** C1 (counterexample).  A job cancelled after the worker read it: the call
    returns no error and the row leaves its terminal status.  With no row
    of that id the call returns no error either. *)
Lemma start_processing_terminal_row :
  let w := quiet_world 5000 {[ 7%N := sample_row JobStatusCancelled ]} in
  let '(err, w') := database.StartProcessing 7%N "worker-1a2b3c4d" w in
  err = None
  ∧ status <$> jobs w !! 7%N = Some "canceled"
  ∧ status <$> jobs w' !! 7%N = Some "processing"
  ∧ (database.StartProcessing 8%N "worker-1a2b3c4d" w).1 = None.
Proof. vm_compute. done. Qed.

(** The rows a cleanup query returns are rows of the table whose
    [delete_at] has passed. *)
Lemma cleanup_rows_expired (now : Time) (limit : Z) (t : Table) (rows : list (UUID * Row)) :
  run now (SELECT_jobs_to_cleanup limit) t = inr rows →
  ∀ x, x ∈ rows → t !! x.1 = Some x.2 ∧ expired now x.2 = true.
Proof.
  simpl. case_decide; [done|]. intros [= <-] x Hx.
  apply elem_of_take in Hx as (i & Hx & _).
  apply list_elem_of_lookup_2 in Hx.
  rewrite merge_sort_Permutation in Hx.
  apply list_elem_of_filter in Hx as [Hexp Hx].
  destruct x as [k r]. by apply elem_of_map_to_list in Hx.
Qed.

(** C4 (as amended).  [FailJob] issues one UPDATE keyed on the id alone that
    sets status FAILED, [error] and [completed_at = now], and no other
    column but [updated_at]: [delete_at] is left as it was.  A failed job
    that never completed therefore keeps a null [delete_at] and no later
    cleanup query selects it. *)
Theorem fail_job_keeps_delete_at (w : World) (id : UUID) (errorMsg : string) :
  let '(err, w') := database.FailJob id errorMsg w in
  trace w' = trace w ++
    [CallExec (UPDATE_jobs [SetStatus JobStatusFailed; SetError errorMsg;
                            SetCompletedAt (clock w)] id None)]
  ∧ err = (next_fault (db_faults w)).1
  ∧ (∀ id', id' ≠ id → jobs w' !! id' = jobs w !! id')
  ∧ (∀ r, err = None → jobs w !! id = Some r →
       ∃ r', jobs w' !! id = Some r'
         ∧ status r' = JobStatusFailed
         ∧ error_col r' = Some errorMsg
         ∧ completed_at r' = Some (clock w)
         ∧ delete_at r' = delete_at r
         ∧ progress r' = progress r
         ∧ processed_key r' = processed_key r
         ∧ (delete_at r = None →
              ∀ now limit rows,
                run now (SELECT_jobs_to_cleanup limit) (jobs w') = inr rows →
                id ∉ rows.*1)).
Proof.
  run. destruct (next_fault (db_faults w)) as [[e|] rest] eqn:Hf; simpl.
  - repeat split; try done.
  - destruct (jobs w !! id) as [r|] eqn:Hr; simpl.
    + split; [done|]. split; [done|].
      split; [intros id' Hne; by rewrite lookup_insert_ne|].
      intros r0 _ [= <-]. eexists. rewrite lookup_insert_eq.
      split; [done|]. destruct r; simpl in *.
      repeat (split; [done|]).
      intros -> now limit rows Hrun Hin.
      apply list_elem_of_fmap in Hin as ([k r'] & -> & Hin).
      destruct (cleanup_rows_expired _ _ _ _ Hrun _ Hin) as [Hl Hexp].
      simpl in Hl. rewrite lookup_insert_eq in Hl. by injection Hl as <-.
    + repeat split; try done.
Qed.

(** C4 (counterexample).  A PROCESSING job that fails keeps [delete_at]
    null, and a cleanup query run long after returns nothing. *)
Lemma fail_job_not_reclaimed :
  let w := quiet_world 5000 {[ 7%N := sample_row JobStatusProcessing ]} in
  let '(err, w') := database.FailJob 7%N "failed to process image: bad data" w in
  err = None
  ∧ status <$> jobs w' !! 7%N = Some "failed"
  ∧ delete_at <$> jobs w' !! 7%N = Some None
  ∧ run (10 ^ 30) (SELECT_jobs_to_cleanup 100) (jobs w') = inr [].
Proof. vm_compute. done. Qed.

(** C5.  [CancelJob] issues one UPDATE whose WHERE clause holds the test
    [status IN (pending, queued)].  When the database carries it out, the
    call succeeds exactly when the row exists with status PENDING or
    QUEUED; otherwise it returns the not-cancellable error.  On any error
    the table is unchanged; on success only the row's status (and
    [updated_at]) changed. *)
Theorem cancel_job_conditional (w : World) (id : UUID) :
  let '(err, w') := database.CancelJob id w in
  trace w' = trace w ++
    [CallExec (UPDATE_jobs [SetStatus JobStatusCancelled] id
                 (Some [JobStatusPending; JobStatusQueued]))]
  ∧ (db_up w →
       (err = None ↔
          ∃ r, jobs w !! id = Some r
               ∧ (status r = JobStatusPending ∨ status r = JobStatusQueued)))
  ∧ (db_up w → err ≠ None →
       err = Some "job cannot be canceled (already processing or completed)")
  ∧ (err ≠ None → jobs w' = jobs w)
  ∧ (∀ id', id' ≠ id → jobs w' !! id' = jobs w !! id')
  ∧ (err = None →
       ∃ r r', jobs w !! id = Some r ∧ jobs w' !! id = Some r'
         ∧ status r' = JobStatusCancelled
         ∧ progress r' = progress r
         ∧ worker_id r' = worker_id r
         ∧ started_at r' = started_at r
         ∧ completed_at r' = completed_at r
         ∧ processed_key r' = processed_key r
         ∧ delete_at r' = delete_at r
         ∧ error_col r' = error_col r).
Proof.
  unfold db_up. run.
  destruct (next_fault (db_faults w)) as [[e|] rest] eqn:Hf; simpl.
  - repeat split; try done.
  - destruct (jobs w !! id) as [r|] eqn:Hr; simpl.
    + destruct (bool_decide (status r ∈ [JobStatusPending; JobStatusQueued])) eqn:Hst; simpl.
      * apply bool_decide_eq_true in Hst.
        split; [done|]. split.
        { intros _. split; [|done]. intros _. exists r. split; [done|].
          apply elem_of_cons in Hst as [Hst|Hst]; [by left|].
          apply list_elem_of_singleton in Hst. by right. }
        split; [done|]. split; [done|].
        split; [intros id' Hne; by rewrite lookup_insert_ne|].
        intros _. exists r. eexists. rewrite lookup_insert_eq.
        split; [done|]. split; [done|]. by destruct r.
      * apply bool_decide_eq_false in Hst.
        split; [done|]. split.
        { intros _. split; [done|]. intros (r0 & [= <-] & Hs).
          exfalso. apply Hst. destruct Hs as [Hs|Hs]; rewrite Hs.
          - by left.
          - right. by left. }
        repeat split; try done.
    + split; [done|]. split.
      { intros _. split; [done|]. by intros (r0 & ? & _). }
      repeat split; try done.
Qed.

(** ** Arithmetic of [time.Duration] *)

Lemma wrap64_small (z : Z) : minInt64 ≤ z ≤ maxInt64 → wrap64 z = z.
Proof.
  unfold minInt64, maxInt64, wrap64. intros Hz.
  rewrite Z.mod_small; lia.
Qed.

Lemma hours_in_range (h : Z) :
  1 ≤ h ≤ 2562047 → int64_mul h time.Hour = h * 3600000000000.
Proof.
  intros Hh. unfold int64_mul, time.Hour.
  apply wrap64_small. unfold minInt64, maxInt64. lia.
Qed.

Lemma next_fault_reliable (script : list error) :
  Forall (λ f, f = None) script →
  (next_fault script).1 = None ∧ Forall (λ f, f = None) (next_fault script).2.
Proof.
  destruct script as [|f rest]; simpl; [done|].
  intros Hs. by inversion Hs.
Qed.

(** C6 (as amended).  For a row that exists, a reliable database and
    [1 ≤ retention_hours ≤ 2562047] (the hours a [time.Duration] can hold),
    [CompleteJob] returns no error and leaves the row with status COMPLETED,
    progress 100, the given [processed_key], [completed_at = now],
    [processing_time_ms] the whole milliseconds of [now.Sub(started_at)]
    (zero when [started_at] is null), and
    [delete_at = now + retention_hours] hours, which is after
    [completed_at]. *)
Theorem complete_job_sets_retention (w : World) (id : UUID) (processedKey : string)
    (retentionHours : Z) (r : Row) :
  db_reliable w →
  jobs w !! id = Some r →
  1 ≤ retentionHours ≤ 2562047 →
  let '(err, w') := database.CompleteJob id processedKey retentionHours w in
  err = None
  ∧ (∀ id', id' ≠ id → jobs w' !! id' = jobs w !! id')
  ∧ ∃ r', jobs w' !! id = Some r'
      ∧ status r' = JobStatusCompleted
      ∧ progress r' = 100
      ∧ processed_key r' = Some processedKey
      ∧ completed_at r' = Some (clock w)
      ∧ processing_time_ms r' =
          Some (match started_at r with
                | Some s => time.Milliseconds (time.Sub (clock w) s)
                | None => 0
                end)
      ∧ (∀ s, started_at r = Some s → minInt64 ≤ clock w - s ≤ maxInt64 →
           processing_time_ms r' = Some (Z.quot (clock w - s) 1000000))
      ∧ delete_at r' = Some (clock w + retentionHours * 3600000000000)
      ∧ (∃ c d, completed_at r' = Some c ∧ delete_at r' = Some d ∧ c < d).
Proof.
  intros Hrel Hr Hh. unfold db_reliable in Hrel.
  destruct (next_fault_reliable _ Hrel) as [Hf1 Hrel1].
  destruct (next_fault_reliable _ Hrel1) as [Hf2 _].
  run.
  destruct (next_fault (db_faults w)) as [f1 rest1]; simpl in *. subst f1.
  run. rewrite Hr. run.
  destruct (next_fault rest1) as [f2 rest2]; simpl in *. subst f2.
  run. rewrite Hr. run.
  split; [done|].
  split; [intros id' Hne; by rewrite lookup_insert_ne|].
  eexists. rewrite lookup_insert_eq. split; [done|].
  rewrite (hours_in_range _ Hh). unfold time.Add.
  destruct r; simpl in *.
  repeat (split; [done|]).
  split.
  - intros s -> Hs. unfold time.Sub, time.Milliseconds.
    repeat case_decide; try lia. done.
  - split; [done|]. eexists _, _. split; [done|]. split; [done|]. lia.
Qed.

(** C6 (witness): a PROCESSING job completed with one hour of retention. *)
Lemma complete_job_sets_retention_witness :
  let w := quiet_world 1800000000000000000 {[ 7%N := sample_row JobStatusProcessing ]} in
  let '(err, w') := database.CompleteJob 7%N "processed/j/photo.jpg" 1 w in
  err = None
  ∧ (∀ id', id' ≠ 7%N → jobs w' !! id' = jobs w !! id')
  ∧ ∃ r', jobs w' !! 7%N = Some r'
      ∧ status r' = JobStatusCompleted
      ∧ progress r' = 100
      ∧ processed_key r' = Some "processed/j/photo.jpg"
      ∧ completed_at r' = Some (clock w)
      ∧ processing_time_ms r' =
          Some (match started_at (sample_row JobStatusProcessing) with
                | Some s => time.Milliseconds (time.Sub (clock w) s)
                | None => 0
                end)
      ∧ (∀ s, started_at (sample_row JobStatusProcessing) = Some s →
           minInt64 ≤ clock w - s ≤ maxInt64 →
           processing_time_ms r' = Some (Z.quot (clock w - s) 1000000))
      ∧ delete_at r' = Some (clock w + 1 * 3600000000000)
      ∧ (∃ c d, completed_at r' = Some c ∧ delete_at r' = Some d ∧ c < d).
Proof.
  apply (complete_job_sets_retention
           (quiet_world 1800000000000000000 {[ 7%N := sample_row JobStatusProcessing ]})
           7%N "processed/j/photo.jpg" 1 (sample_row JobStatusProcessing)).
  - unfold db_reliable. simpl. constructor.
  - reflexivity.
  - lia.
Defined.

(** C6 (counterexample).  With 2562048 hours of retention the product
    [time.Duration(retentionHours) * time.Hour] wraps around to a negative
    duration, and [delete_at] falls before [completed_at]. *)
Lemma complete_job_retention_overflow :
  let w := quiet_world 1800000000000000000 {[ 7%N := sample_row JobStatusProcessing ]} in
  let '(err, w') := database.CompleteJob 7%N "processed/j/photo.jpg" 2562048 w in
  err = None
  ∧ completed_at <$> jobs w' !! 7%N = Some (Some 1800000000000000000)
  ∧ delete_at <$> jobs w' !! 7%N = Some (Some (1800000000000000000 - 9223371273709551616)).
Proof. vm_compute. done. Qed.

(** ** The HTTP handlers *)

Ltac run_api :=
  repeat first
    [ progress unfold api.CancelJob, api.GetJob, api.writeError, api.writeJSON,
        api.log_if_error
    | progress run ].

(** C2 (as amended).  DELETE /api/v1/jobs/{id} for an id that no row has
    answers 400, with the not-cancellable message when the database carried
    the statement out, and leaves the table unchanged. *)
Theorem cancel_unknown_job_bad_request (w : World) (id : UUID) :
  jobs w !! id = None →
  let '(resp, w') := api.CancelJob (api.ParsesTo id) w in
  api.StatusCode resp = 400
  ∧ jobs w' = jobs w
  ∧ (db_up w →
       api.ResponseBody resp =
         api.JSONMap [("error", "job cannot be canceled (already processing or completed)")]).
Proof.
  intros Hid. unfold db_up. run_api.
  destruct (next_fault (db_faults w)) as [[e|] rest]; run_api.
  - done.
  - rewrite Hid. run_api. done.
Qed.

(** C2 (witness): cancelling in an empty table. *)
Lemma cancel_unknown_job_bad_request_witness :
  let w := quiet_world 5000 ∅ in
  let '(resp, w') := api.CancelJob (api.ParsesTo 7%N) w in
  api.StatusCode resp = 400
  ∧ jobs w' = jobs w
  ∧ (db_up w →
       api.ResponseBody resp =
         api.JSONMap [("error", "job cannot be canceled (already processing or completed)")]).
Proof.
  apply (cancel_unknown_job_bad_request (quiet_world 5000 ∅) 7%N).
  reflexivity.
Defined.

(** C2 (counterexample).  With no row of id 7, GET answers 500 (the
    repository reports the missing row as an error, which the handler maps
    to 500 before its 404 branch) and DELETE answers 400. *)
Lemma unknown_job_not_404 :
  let w := quiet_world 5000 ∅ in
  (api.GetJob (api.ParsesTo 7%N) w).1 =
    {| api.StatusCode := 500;
       api.ResponseBody := api.JSONMap [("error", "failed to get job")] |}
  ∧ (api.CancelJob (api.ParsesTo 7%N) w).1 =
    {| api.StatusCode := 400;
       api.ResponseBody :=
         api.JSONMap [("error", "job cannot be canceled (already processing or completed)")] |}.
Proof. vm_compute. done. Qed.





Ltac run_create :=
  repeat first
    [ progress unfold api.CreateJob, api.writeError, api.writeJSON,
        api.log_if_error, storage.Upload, queue.Enqueue, queue.XAdd,
        uuid_New, storage_fault, redis_fault, set_bucket, set_queue
    | progress run ].

(** C3 (as amended).  For an accepted upload, with the object store and
    the database carrying out their calls and a fresh job id, [CreateJob]
    puts the object, inserts the row with status PENDING, writes status
    QUEUED with an UPDATE keyed on the id alone, and only then calls the
    queue.  If the enqueue fails it writes status PENDING back, answers 500
    with "failed to queue job", and the stream is unchanged; the row ends
    PENDING.  If the enqueue succeeds it answers 201 with the job in status
    QUEUED, the row is QUEUED and the message is the last entry of the
    stream. *)
Theorem create_job_queued_then_enqueue (h : api.Handlers) (r : api.CreateJobRequest)
    (w : World) (form : api.Form) (header : api.FileHeader) (ops : list Operation) :
  api.ParseMultipartForm r = inr form →
  api.image form = Some header →
  api.isValidImageType (resolved_content_type header) = true →
  decoded_operations form = Some ops →
  Forall (λ o, api.isValidOperation (OpName o) = true) ops →
  storage_up w →
  db_reliable w →
  jobs w !! next_uuid w = None →
  let id := next_uuid w in
  let key := original_key_of (user_of r) id (api.Filename header) in
  let stream := queue.p_streamName (api.producer h) in
  let msg := {| MsgOperations := effective_operations ops; JobID := id |} in
  let '(resp, w') := api.CreateJob h r w in
  ∃ job,
    ID job = id ∧ Status job = JobStatusPending ∧ OriginalKey job = key
    ∧ match (next_fault (redis_faults w)).1 with
      | Some _ =>
          trace w' = trace w ++
            [CallPutObject key;
             CallExec (INSERT_INTO_jobs job);
             CallExec (UPDATE_jobs [SetStatus JobStatusQueued] id None);
             CallXAdd stream (Encodes msg);
             CallExec (UPDATE_jobs [SetStatus JobStatusPending] id None)]
          ∧ resp = {| api.StatusCode := 500;
                      api.ResponseBody := api.JSONMap [("error", "failed to queue job")] |}
          ∧ status <$> jobs w' !! id = Some JobStatusPending
          ∧ queue w' = queue w
      | None =>
          trace w' = trace w ++
            [CallPutObject key;
             CallExec (INSERT_INTO_jobs job);
             CallExec (UPDATE_jobs [SetStatus JobStatusQueued] id None);
             CallXAdd stream (Encodes msg)]
          ∧ resp = {| api.StatusCode := 201;
                      api.ResponseBody := api.JSONJob (with_Status JobStatusQueued job) |}
          ∧ status <$> jobs w' !! id = Some JobStatusQueued
          ∧ ∃ xid, redis.entries (queue w') stream =
                     redis.entries (queue w) stream ++
                       [{| redis.XID := xid; redis.Values := [("data", Encodes msg)] |}]
      end.
Proof.
  intros Hform Himg Hty Hdec Hvalid Hst Hdb Hfresh.
  unfold storage_up in Hst. unfold db_reliable in Hdb.
  destruct (next_fault_reliable _ Hdb) as [Hf1 Hdb1].
  destruct (next_fault_reliable _ Hdb1) as [Hf2 Hdb2].
  destruct (next_fault_reliable _ Hdb2) as [Hf3 _].
  assert (Hfind : List.find (λ op, negb (api.isValidOperation (OpName op))) ops = None).
  { clear -Hvalid. induction Hvalid as [|o ops Ho _ IH]; [done|].
    simpl. by rewrite Ho. }
  unfold next_uuid in *.
  unfold api.CreateJob. rewrite Hform, Himg.
  fold (resolved_content_type header). rewrite Hty. simpl negb. cbv iota.
  assert (Hops : match api.operations_value form with
                 | Encodes ops0 => ops0
                 | _ => []
                 end = ops).
  { unfold decoded_operations in Hdec.
    destruct (api.operations_value form); congruence. }
  assert (Hnot : ∀ raw e, api.operations_value form ≠ Malformed raw e).
  { intros raw e Hm. unfold decoded_operations in Hdec. by rewrite Hm in Hdec. }
  destruct (api.operations_value form) as [|ops0|raw e];
    [| |by destruct (Hnot raw e)]; simpl in Hops; subst ops; rewrite Hfind.
  all: match goal with
       | |- context [if decide (length ?o = 0%nat) then _ else _] =>
           fold (effective_operations o)
       end;
    fold (user_of r);
    fold (original_key_of (user_of r) (default 0%N (head (uuids w))) (api.Filename header)).
  all: run_create.
  all: destruct (next_fault (storage_faults w)) as [sf srest]; simpl in Hst; subst sf.
  all: run_create.
  all: destruct (next_fault (db_faults w)) as [f1 rest1]; simpl in *; subst f1.
  all: run_create.
  all: rewrite Hfresh.
  all: run_create.
  all: destruct (next_fault rest1) as [f2 rest2]; simpl in *; subst f2.
  all: run_create.
  all: rewrite lookup_insert_eq.
  all: run_create.
  all: destruct (next_fault (redis_faults w)) as [[e|] rrest]; run_create.
  all: try (destruct (next_fault rest2) as [f3 rest3]; simpl in *; subst f3;
            run_create; rewrite lookup_insert_eq; run_create).
  all: eexists; (split; [|split; [|split]]); revgoals;
    [ rewrite <- ?app_assoc; simpl;
      split; [reflexivity|]; split; [reflexivity|];
      rewrite ?lookup_insert_eq; simpl
    | reflexivity | reflexivity | reflexivity ].
  all: try (split; reflexivity).
  all: split; [reflexivity|].
  all: destruct (queue w) as [ss gs]; unfold redis.entries; simpl;
       rewrite lookup_insert_eq; simpl; by eexists.
Qed.

(** C3 (witness): an upload of [photo.jpg] with one [resize], the queue
    refusing the message. *)
Lemma create_job_queued_then_enqueue_witness :
  let r := request_with (Some sample_upload) [resize_800] in
  let w := scripted_world 5000 [7%N; 9%N] ∅ [] [] [Some "connection refused"] in
  let id := next_uuid w in
  let key := original_key_of (user_of r) id (api.Filename sample_upload) in
  let stream := queue.p_streamName (api.producer sample_handlers) in
  let msg := {| MsgOperations := effective_operations [resize_800]; JobID := id |} in
  let '(resp, w') := api.CreateJob sample_handlers r w in
  ∃ job,
    ID job = id ∧ Status job = JobStatusPending ∧ OriginalKey job = key
    ∧ match (next_fault (redis_faults w)).1 with
      | Some _ =>
          trace w' = trace w ++
            [CallPutObject key;
             CallExec (INSERT_INTO_jobs job);
             CallExec (UPDATE_jobs [SetStatus JobStatusQueued] id None);
             CallXAdd stream (Encodes msg);
             CallExec (UPDATE_jobs [SetStatus JobStatusPending] id None)]
          ∧ resp = {| api.StatusCode := 500;
                      api.ResponseBody := api.JSONMap [("error", "failed to queue job")] |}
          ∧ status <$> jobs w' !! id = Some JobStatusPending
          ∧ queue w' = queue w
      | None =>
          trace w' = trace w ++
            [CallPutObject key;
             CallExec (INSERT_INTO_jobs job);
             CallExec (UPDATE_jobs [SetStatus JobStatusQueued] id None);
             CallXAdd stream (Encodes msg)]
          ∧ resp = {| api.StatusCode := 201;
                      api.ResponseBody := api.JSONJob (with_Status JobStatusQueued job) |}
          ∧ status <$> jobs w' !! id = Some JobStatusQueued
          ∧ ∃ xid, redis.entries (queue w') stream =
                     redis.entries (queue w) stream ++
                       [{| redis.XID := xid; redis.Values := [("data", Encodes msg)] |}]
      end.
Proof.
  apply (create_job_queued_then_enqueue sample_handlers
           (request_with (Some sample_upload) [resize_800])
           (scripted_world 5000 [7%N; 9%N] ∅ [] [] [Some "connection refused"])
           {| api.image := Some sample_upload;
              api.operations_value := Encodes [resize_800] |}
           sample_upload [resize_800]).
  - reflexivity.
  - reflexivity.
  - vm_compute. reflexivity.
  - reflexivity.
  - repeat constructor.
  - reflexivity.
  - unfold db_reliable. simpl. constructor.
  - reflexivity.
Defined.

(** C3 (counterexample).  The queue refuses the message.  The calls made,
    in order: the row is written QUEUED before the enqueue is attempted,
    and no enqueue ever succeeds.  If the database then fails on the write
    back, the row stays QUEUED with an empty stream. *)
Lemma queued_written_before_enqueue :
  let r := request_with (Some sample_upload) [resize_800] in
  let w := scripted_world 5000 [7%N; 9%N] ∅ [] [] [Some "connection refused"] in
  let w2 := scripted_world 5000 [7%N; 9%N] ∅ [None; None; Some "bad connection"] []
              [Some "connection refused"] in
  (∃ key job msg,
     trace (api.CreateJob sample_handlers r w).2 =
       [CallPutObject key;
        CallExec (INSERT_INTO_jobs job);
        CallExec (UPDATE_jobs [SetStatus "queued"] 7%N None);
        CallXAdd "jobs" msg;
        CallExec (UPDATE_jobs [SetStatus "pending"] 7%N None)])
  ∧ redis.entries (queue (api.CreateJob sample_handlers r w).2) "jobs" = []
  ∧ api.StatusCode (api.CreateJob sample_handlers r w2).1 = 500
  ∧ status <$> jobs (api.CreateJob sample_handlers r w2).2 !! 7%N = Some "queued"
  ∧ redis.entries (queue (api.CreateJob sample_handlers r w2).2) "jobs" = [].
Proof.
  split; [|by vm_compute].
  eexists _, _, _. vm_compute. reflexivity.
Qed.

(** ** The queue consumer *)

Lemma parseMessage_not_empty (m : redis.XMessage) : queue.parseMessage m ≠ (None, None).
Proof.
  unfold queue.parseMessage.
  destruct (queue.lookup_value "data" (redis.Values m)) as [[| |]|]; done.
Qed.

Ltac run_queue :=
  repeat first
    [ progress unfold queue.Consume, queue.XReadGroup, redis_fault, set_queue
    | progress run ].

(** C8.  [Consume] first reads, with the stream id "0" (the consumer's own
    pending entries; that read never waits), and only when it brings no
    message does it read with the id ">" and [Block = pollTimeout].  A
    transport error of either read is returned as an error.  A pending
    entry is parsed and returned without any second read and without
    change to the group.  Otherwise the oldest undelivered entry is parsed,
    returned and recorded as pending for this consumer, and when there is
    none (the blocking read ran out) the result is no message and no
    error: that result arises in no other way. *)
Theorem consume_two_phase (c : queue.Consumer) (w : World) (g : redis.GroupState) :
  redis.groups (queue w) !! (queue.streamName c, queue.consumerGroup c) = Some g →
  let es := redis.entries (queue w) (queue.streamName c) in
  let mine := redis.pending_of es g (queue.consumerName c) in
  let unread := drop (redis.delivered g) es in
  let first := (next_fault (redis_faults w)).1 in
  let second := (next_fault (next_fault (redis_faults w)).2).1 in
  let '(res, w') := queue.Consume c w in
  redis.Streams (queue.pending_args c) = [queue.streamName c; "0"]
  ∧ redis.Streams (queue.fresh_args c) = [queue.streamName c; ">"]
  ∧ redis.Block (queue.fresh_args c) = queue.pollTimeout c
  ∧ match first with
    | Some e =>
        res = (None, Some ("failed to read pending messages: " +:+ e))
        ∧ trace w' = trace w ++ [CallXReadGroup (queue.pending_args c)]
        ∧ queue w' = queue w
    | None =>
        match mine with
        | m :: _ =>
            res = queue.parseMessage m
            ∧ trace w' = trace w ++ [CallXReadGroup (queue.pending_args c)]
            ∧ queue w' = queue w
        | [] =>
            trace w' = trace w ++ [CallXReadGroup (queue.pending_args c);
                                   CallXReadGroup (queue.fresh_args c)]
            ∧ match second with
              | Some e =>
                  res = (None, Some ("failed to read from stream: " +:+ e))
                  ∧ queue w' = queue w
              | None =>
                  match unread with
                  | [] => res = (None, None) ∧ queue w' = queue w
                  | m :: _ =>
                      res = queue.parseMessage m
                      ∧ redis.streams (queue w') = redis.streams (queue w)
                      ∧ redis.groups (queue w')
                          !! (queue.streamName c, queue.consumerGroup c) =
                        Some {| redis.delivered := S (redis.delivered g);
                                redis.pending :=
                                  redis.pending g ++
                                    [(redis.XID m, queue.consumerName c)] |}
                  end
              end
        end
    end
  ∧ (res = (None, None) ↔
       first = None ∧ mine = [] ∧ second = None ∧ unread = []).
Proof.
  intros Hg. simpl. run_queue.
  assert (Hassoc : ∀ (l : list Call) a b, (l ++ [a]) ++ [b] = l ++ [a; b]).
  { intros. by rewrite <- app_assoc. }
  destruct (next_fault (redis_faults w)) as [[e|] rest1]; run_queue.
  { repeat split; try done. all: intros; destruct_and?; congruence. }
  unfold redis.xreadgroup at 1. simpl. rewrite Hg. simpl.
  destruct (redis.pending_of _ g _) as [|m ms] eqn:Hmine; run_queue.
  2: { repeat split; try done.
       all: intros; destruct_and?;
         first [ congruence
               | by exfalso; eapply parseMessage_not_empty; eassumption ]. }
  destruct (next_fault rest1) as [[e|] rest2]; run_queue.
  { repeat split; try done. all: intros; destruct_and?; congruence. }
  unfold redis.xreadgroup. simpl. rewrite Hg. simpl.
  destruct (drop (redis.delivered g) _) as [|m ms] eqn:Hun; run_queue.
  { repeat split; done. }
  repeat split; try done.
  all: intros; destruct_and?;
    first [ congruence
          | by rewrite lookup_insert_eq; do 2 f_equal; lia
          | by exfalso; eapply parseMessage_not_empty; eassumption ].
Qed.

(** C8 (witness): the sample consumer has one pending entry, which it
    re-reads without a second read. *)
Lemma consume_two_phase_witness :
  let w := queue_world sample_queue [] in
  let first_entry :=
    {| redis.XID := "1-0";
       redis.Values := [("data", Encodes (sample_message 7%N))] |} in
  redis.groups (queue w) !! ("jobs", "workers") =
    Some {| redis.delivered := 1;
            redis.pending := [("1-0", "worker-1a2b3c4d")] |}
  ∧ (queue.Consume sample_consumer w).1 = queue.parseMessage first_entry
  ∧ trace (queue.Consume sample_consumer w).2 =
      [CallXReadGroup (queue.pending_args sample_consumer)].
Proof.
  intros w first_entry. split; [reflexivity|].
  pose proof (consume_two_phase sample_consumer w _ eq_refl) as H.
  destruct (queue.Consume sample_consumer w) as [res w'].
  destruct H as (_ & _ & _ & H & _).
  change (res = queue.parseMessage first_entry
          ∧ trace w' = [] ++ [CallXReadGroup (queue.pending_args sample_consumer)]
          ∧ queue w' = queue w) in H.
  destruct H as (Hres & Htr & _). split; [exact Hres|exact Htr].
Defined.

(** ** The sweeper *)

#[local] Instance by_delete_at_total : Total by_delete_at.
Proof. intros x y. unfold by_delete_at. lia. Qed.

#[local] Instance by_delete_at_trans : Transitive by_delete_at.
Proof. intros x y z. unfold by_delete_at. lia. Qed.

(** What a cleanup query selects: at most [limit] rows of the table, each
    past its [delete_at], in ascending order of [delete_at], and no
    unselected expired row precedes a selected one; an expired row is left
    out only when the limit is reached. *)
Lemma cleanup_selection (now : Time) (limit : Z) (t : Table) :
  0 ≤ limit →
  ∃ rows,
    run now (SELECT_jobs_to_cleanup limit) t = inr rows
    ∧ Z.of_nat (length rows) ≤ limit
    ∧ NoDup rows.*1
    ∧ (∀ x, x ∈ rows →
         t !! x.1 = Some x.2 ∧ ∃ d, delete_at x.2 = Some d ∧ d < now)
    ∧ StronglySorted by_delete_at rows
    ∧ (∀ id r, t !! id = Some r → expired now r = true → (id, r) ∉ rows →
         Z.of_nat (length rows) = limit
         ∧ ∀ x, x ∈ rows → by_delete_at x (id, r)).
Proof.
  intros Hlim. eexists. split.
  { simpl. case_decide; [lia|]. reflexivity. }
  set (all := merge_sort by_delete_at
                (filter (λ x, expired now x.2 = true) (map_to_list t))).
  assert (Hsorted : StronglySorted by_delete_at all)
    by (apply StronglySorted_merge_sort; apply _).
  assert (Hperm : all ≡ₚ filter (λ x, expired now x.2 = true) (map_to_list t))
    by apply merge_sort_Permutation.
  split; [rewrite length_take; lia|].
  split.
  { eapply sublist_NoDup; [|apply fmap_sublist, sublist_take].
    rewrite Hperm.
    eapply sublist_NoDup; [|apply fmap_sublist, sublist_filter].
    apply NoDup_fst_map_to_list. }
  split.
  { intros [k r] Hx.
    eapply cleanup_rows_expired with (limit := limit) in Hx as [Hl Hexp].
    2: { simpl. case_decide; [lia|]. reflexivity. }
    split; [done|]. simpl in *. unfold expired in Hexp.
    destruct (delete_at r) as [d|]; [|done].
    exists d. split; [done|]. by apply bool_decide_eq_true in Hexp. }
  split.
  { rewrite <- (take_drop (Z.to_nat limit) all) in Hsorted.
    by apply StronglySorted_app_1_l in Hsorted. }
  intros id r Hr Hexp Hnot.
  assert (Hin : (id, r) ∈ all).
  { rewrite Hperm. apply list_elem_of_filter. split; [done|].
    by apply elem_of_map_to_list. }
  rewrite <- (take_drop (Z.to_nat limit) all) in Hin, Hsorted.
  apply elem_of_app in Hin as [Hin|Hin]; [done|].
  split.
  - rewrite length_take.
    assert (Z.to_nat limit < length all)%nat; [|lia].
    destruct (decide (Z.to_nat limit < length all)%nat) as [|Hge]; [done|].
    rewrite drop_ge in Hin by lia. by apply elem_of_nil in Hin.
  - intros x Hx. eapply StronglySorted_app_1_elem_of; eauto.
Qed.

Ltac run_cleanup :=
  repeat first
    [ progress unfold cleanup.cleanupJob, api.log_if_error, storage.Delete,
        storage_fault, set_bucket
    | progress run ].

(** [cleanupJob] on one job: the calls it makes whatever their outcomes,
    the row delete under a database that carries it out, the state of the
    bucket under an object store that carries the deletes out, and the log
    entry of a failed delete of the original object. *)
Lemma cleanupJob_effect (job : Job) (w : World) :
  let '(err, w') := cleanup.cleanupJob job w in
  trace w' = trace w ++ job_calls job
  ∧ db_faults w' = (next_fault (db_faults w)).2
  ∧ clock w' = clock w
  ∧ (db_up w → jobs w' = delete (ID job) (jobs w))
  ∧ (storage_reliable w →
       storage_reliable w'
       ∧ ∀ k, bucket w' !! k =
              if decide (key_of k job) then None else bucket w !! k)
  ∧ (∀ e, OriginalKey job ≠ "" →
          (next_fault (storage_faults w)).1 = Some e →
          (ERROR, "failed to delete original file") ∈ log w')
  ∧ (∀ e, ProcessedKey job ≠ "" →
          (next_fault (script_after_original job w)).1 = Some e →
          (ERROR, "failed to delete processed file") ∈ log w').
Proof.
  unfold db_up, storage_reliable, job_calls, key_of, script_after_original.
  run_cleanup.
  destruct (decide (OriginalKey job ≠ "")) as [Hok|Hok];
    destruct (decide (ProcessedKey job ≠ "")) as [Hpk|Hpk]; run_cleanup.
  all: try (destruct (next_fault (storage_faults w)) as [[se1|] srest1] eqn:Hs1;
            run_cleanup).
  all: try (destruct (next_fault srest1) as [[se2|] srest2] eqn:Hs2; run_cleanup).
  all: destruct (next_fault (db_faults w)) as [[de|] drest] eqn:Hdb; run_cleanup.
  all: try (destruct (jobs w !! ID job) as [r|] eqn:Hr; run_cleanup).
  all: rewrite <- ?app_assoc; simpl.
  all: split; [reflexivity|]; split; [reflexivity|]; split; [reflexivity|].
  all: split; [first [ done | intros _; symmetry; by apply delete_id ]|].
  all: split;
    [|split; intros e Hk Hfault; try done; simpl in Hfault;
      rewrite ?Hs1, ?Hs2 in Hfault; simpl in Hfault; try discriminate;
      apply elem_of_app; right; by repeat constructor].
  all: intros Hrel.
  all: try (destruct (next_fault_reliable _ Hrel) as [Hn1 Hrel1];
            rewrite ?Hs1 in Hn1, Hrel1; simpl in Hn1, Hrel1; try discriminate).
  all: try (destruct (next_fault_reliable _ Hrel1) as [Hn2 Hrel2];
            rewrite ?Hs2 in Hn2, Hrel2; simpl in Hn2, Hrel2; try discriminate).
  all: split; [done|].
  all: intros k; rewrite ?lookup_delete; repeat case_decide; try done;
    destruct_and?; destruct_or?; try congruence; exfalso; naive_solver.
Qed.

Lemma job_of_row_calls (x : UUID * Row) : job_calls (job_of_row x) = cleanup_calls x.
Proof.
  unfold job_calls, cleanup_calls, job_of_row, UnmarshalOperations.
  destruct x as [k r]. simpl.
  destruct (operations r); simpl; destruct (processed_key r) as [pk|]; simpl;
    repeat case_decide; try done.
Qed.

Lemma job_of_row_ID (x : UUID * Row) : ID (job_of_row x) = x.1.
Proof.
  unfold job_of_row, UnmarshalOperations. simpl. by destruct (operations x.2).
Qed.

Lemma job_of_row_keys (x : UUID * Row) :
  OriginalKey (job_of_row x) = original_key x.2
  ∧ ProcessedKey (job_of_row x) = default "" (processed_key x.2).
Proof.
  unfold job_of_row, UnmarshalOperations. simpl. by destruct (operations x.2).
Qed.

(** The jobs [GetJobsToCleanup] builds from rows whose operations
    decode. *)
Lemma scan_all_decodable (rows : list (UUID * Row)) :
  (∀ x, x ∈ rows → decodable x.2) →
  database.scan_all rows = (job_of_row <$> rows, None).
Proof.
  induction rows as [|x rows IH]; intros Hdec; [done|].
  simpl. unfold job_of_row at 1.
  assert (Hx : decodable x.2) by (apply Hdec; left).
  unfold decodable in Hx. unfold UnmarshalOperations. simpl.
  destruct (operations x.2) as [|ops|raw e] eqn:Hops; [| |done];
    (rewrite IH; [done|intros y Hy; apply Hdec; by right]).
Qed.

(** The loop of a cleanup cycle under a reliable database: every job's
    calls are made, in order, whatever the object store answers; every
    job's row is gone; the other rows are as before. *)
Lemma cleanup_loop_effect (js : list Job) (w : World) :
  db_reliable w →
  let '(_, w') := cleanup.cleanup_loop js w in
  trace w' = trace w ++ concat (job_calls <$> js)
  ∧ db_reliable w'
  ∧ (∀ id, jobs w' !! id =
           if decide (id ∈ ID <$> js) then None else jobs w !! id)
  ∧ (storage_reliable w →
       ∀ k, bucket w' !! k =
            if decide (Exists (key_of k) js) then None else bucket w !! k).
Proof.
  revert w. induction js as [|job js IH]; intros w Hrel.
  { simpl. unfold ret. rewrite app_nil_r. repeat split; done. }
  simpl. unfold bind at 1.
  pose proof (cleanupJob_effect job w) as Hjob.
  destruct (cleanup.cleanupJob job w) as [err w1].
  destruct Hjob as (Htr & Hdbf & _ & Hjobs & Hst & _ & _).
  destruct (next_fault_reliable _ Hrel) as [Hup Hrel1].
  rewrite <- Hdbf in Hrel1. specialize (Hjobs Hup).
  unfold bind at 1.
  assert (Hlog : ∃ w2, api.log_if_error err "failed to cleanup job" w1 = (tt, w2)
                 ∧ trace w2 = trace w1 ∧ jobs w2 = jobs w1
                 ∧ db_faults w2 = db_faults w1 ∧ bucket w2 = bucket w1
                 ∧ storage_faults w2 = storage_faults w1).
  { unfold api.log_if_error, logger, ret. destruct err; eexists; by repeat split. }
  destruct Hlog as (w2 & -> & Htr2 & Hjobs2 & Hdb2 & Hb2 & Hs2).
  specialize (IH w2). unfold db_reliable in *. rewrite Hdb2 in IH.
  specialize (IH Hrel1).
  destruct (cleanup.cleanup_loop js w2) as [[] w'].
  destruct IH as (Htr' & Hrel' & Hjobs' & Hst').
  split; [by rewrite Htr', Htr2, Htr, <- app_assoc|].
  split; [done|].
  split.
  - intros id. rewrite Hjobs', Hjobs2, Hjobs.
    destruct (decide (id = ID job)) as [->|Hne].
    + rewrite lookup_delete_eq. repeat case_decide; try done.
      all: exfalso; match goal with H : _ ∉ _ :: _ |- _ => apply H end; by left.
    + rewrite lookup_delete_ne by done.
      repeat case_decide; try done; exfalso.
      all: first
        [ match goal with H : _ ∉ _ :: _ |- _ => apply H end; by right
        | match goal with H : _ ∈ _ :: _ |- _ =>
            apply elem_of_cons in H as [?|?] end; done ].
  - intros Hsrel. destruct (Hst Hsrel) as [Hsrel1 Hb1].
    unfold storage_reliable in *. rewrite Hs2 in Hst'.
    intros k. rewrite (Hst' Hsrel1 k), Hb2, Hb1.
    repeat case_decide; try done.
    + exfalso. match goal with H : ¬ Exists _ (_ :: _) |- _ => apply H end.
      by right.
    + exfalso. match goal with H : ¬ Exists _ (_ :: _) |- _ => apply H end.
      by left.
    + exfalso. match goal with H : Exists _ (_ :: _) |- _ => inversion H end; done.
Qed.

(** C9.  One cleanup cycle, under a database that carries out its calls, a
    non-negative batch size and rows whose operations decode, whatever the
    object store answers.  The cycle returns no error.  It selects at most
    [batchSize] rows, each with a non-null [delete_at] earlier than now, in
    ascending order of [delete_at], leaving an expired row out only when
    the batch is full and that row is no earlier than the selected ones.
    For each selected row, in that order, it calls the object store to
    delete the original object, then the processed object (each when its
    key is not empty), then deletes the row: these calls are made whether
    or not the deletes of objects fail.  After the cycle the selected rows
    are gone and the others unchanged; if the object store carried out its
    calls, the objects of the selected rows are gone.  A failed delete of
    an object is logged and the row is deleted all the same. *)
Theorem cleanup_cycle (cw : cleanup.Worker) (w : World) :
  db_reliable w →
  0 ≤ cleanup.batchSize cw →
  map_Forall (λ _ r, decodable r) (jobs w) →
  let '(err, w') := cleanup.cleanup cw w in
  err = None
  ∧ (∃ rows : list (UUID * Row),
       Z.of_nat (length rows) ≤ cleanup.batchSize cw
       ∧ NoDup rows.*1
       ∧ (∀ x, x ∈ rows →
            jobs w !! x.1 = Some x.2 ∧ ∃ d, delete_at x.2 = Some d ∧ d < clock w)
       ∧ StronglySorted by_delete_at rows
       ∧ (∀ id r, jobs w !! id = Some r → expired (clock w) r = true →
            (id, r) ∉ rows →
            Z.of_nat (length rows) = cleanup.batchSize cw
            ∧ ∀ x, x ∈ rows → by_delete_at x (id, r))
       ∧ trace w' = trace w ++
           CallQuery (SELECT_jobs_to_cleanup (cleanup.batchSize cw))
             :: concat (cleanup_calls <$> rows)
       ∧ (∀ id, jobs w' !! id =
                if decide (id ∈ rows.*1) then None else jobs w !! id)
       ∧ (storage_reliable w →
            ∀ x k, x ∈ rows → k ≠ "" →
              k = original_key x.2 ∨ processed_key x.2 = Some k →
              bucket w' !! k = None))
  ∧ (∀ job w0,
       db_up w0 →
       let '(_, w1) := cleanup.cleanupJob job w0 in
       jobs w1 !! ID job = None
       ∧ (∀ e, OriginalKey job ≠ "" →
               (next_fault (storage_faults w0)).1 = Some e →
               (ERROR, "failed to delete original file") ∈ log w1)
       ∧ (∀ e, ProcessedKey job ≠ "" →
               (next_fault (script_after_original job w0)).1 = Some e →
               (ERROR, "failed to delete processed file") ∈ log w1)).
Proof.
  intros Hrel Hbatch Hdec.
  assert (Hjob : ∀ job w0,
             db_up w0 →
             let '(_, w1) := cleanup.cleanupJob job w0 in
             jobs w1 !! ID job = None
             ∧ (∀ e, OriginalKey job ≠ "" →
                     (next_fault (storage_faults w0)).1 = Some e →
                     (ERROR, "failed to delete original file") ∈ log w1)
             ∧ (∀ e, ProcessedKey job ≠ "" →
                     (next_fault (script_after_original job w0)).1 = Some e →
                     (ERROR, "failed to delete processed file") ∈ log w1)).
  { intros job w0 Hup. pose proof (cleanupJob_effect job w0) as H.
    destruct (cleanup.cleanupJob job w0) as [err1 w1].
    destruct H as (_ & _ & _ & Hjobs & _ & Hlog1 & Hlog2).
    split; [|by split]. rewrite (Hjobs Hup). apply lookup_delete_eq. }
  destruct (cleanup_selection (clock w) (cleanup.batchSize cw) (jobs w) Hbatch)
    as (rows & Hrun & Hlen & Hnd & Hrows & Hsorted & Hleft).
  destruct (next_fault_reliable _ Hrel) as [Hup Hrel1].
  assert (Hscan : database.scan_all rows = (job_of_row <$> rows, None)).
  { apply scan_all_decodable. intros x Hx.
    destruct (Hrows x Hx) as [Hl _]. by eapply Hdec. }
  unfold cleanup.cleanup. run.
  destruct (next_fault (db_faults w)) as [f rest] eqn:Hf. simpl in Hup, Hrel1.
  subst f. run. simpl in Hrun. rewrite Hrun. run. rewrite Hscan.
  rewrite length_fmap.
  destruct (decide (length rows = 0%nat)) as [Hnil|Hnil]; run.
  - apply nil_length_inv in Hnil. subst rows.
    split; [done|]. split; [|done].
    exists []. split; [done|]. split; [done|]. split; [exact Hrows|].
    split; [done|]. split; [exact Hleft|]. split; [done|]. split; [done|].
    intros ? x k Hx. by apply elem_of_nil in Hx.
  - match goal with
    | |- context [cleanup.cleanup_loop ?js ?w0] =>
        pose proof (cleanup_loop_effect js w0 Hrel1) as Hloop;
        destruct (cleanup.cleanup_loop js w0) as [[] w']
    end.
    destruct Hloop as (Htr & _ & Hjobs & Hbucket). simpl in Htr, Hjobs, Hbucket.
    run. split; [done|]. split; [|done].
    exists rows. split; [done|]. split; [done|]. split; [done|].
    split; [done|]. split; [done|].
    split.
    { rewrite Htr, <- app_assoc. simpl. do 3 f_equal.
      rewrite <- list_fmap_compose. apply list_fmap_ext.
      intros i x _. apply job_of_row_calls. }
    split.
    { intros id. rewrite Hjobs. rewrite <- list_fmap_compose.
      assert (Heq : ID ∘ job_of_row <$> rows = rows.*1).
      { apply list_fmap_ext. intros i x _. apply job_of_row_ID. }
      rewrite Heq. done. }
    intros Hsrel x k Hx Hk Hkey.
    rewrite (Hbucket Hsrel k).
    rewrite decide_True; [done|].
    apply Exists_exists. exists (job_of_row x).
    split; [by apply list_elem_of_fmap_2|].
    unfold key_of. destruct (job_of_row_keys x) as [-> ->].
    split; [done|]. destruct Hkey as [->| ->]; [by left|by right].
Qed.

(** C9 (witness): two expired rows and one that is not, a batch of 100, and
    an object store that fails on its first call. *)
Lemma cleanup_cycle_witness :
  let w := sweep_world in
  let cw := cleanup.NewWorker {| cleanup.Interval := 0; cleanup.BatchSize := 0 |} in
  db_reliable w
  ∧ 0 ≤ cleanup.batchSize cw
  ∧ map_Forall (λ _ r, decodable r) (jobs w)
  ∧ (cleanup.cleanup cw w).1 = None
  ∧ trace (cleanup.cleanup cw w).2 =
      [CallQuery (SELECT_jobs_to_cleanup 100);
       CallRemoveObject "users/u/original/2/b.jpg";
       CallRemoveObject "processed/2/b.jpg";
       CallExec (DELETE_FROM_jobs 2%N);
       CallRemoveObject "users/u/original/1/a.jpg";
       CallRemoveObject "processed/1/a.jpg";
       CallExec (DELETE_FROM_jobs 1%N)]
  ∧ dom (jobs (cleanup.cleanup cw w).2) = {[ 3%N ]}.
Proof.
  intros w cw.
  assert (Hrel : db_reliable w) by (unfold db_reliable; simpl; constructor).
  assert (Hbatch : 0 ≤ cleanup.batchSize cw) by (simpl; lia).
  assert (Hdec : map_Forall (λ _ r, decodable r) (jobs w)).
  { repeat (apply map_Forall_insert_2; [exact I|]). apply map_Forall_empty. }
  split; [exact Hrel|]. split; [exact Hbatch|]. split; [exact Hdec|].
  pose proof (cleanup_cycle cw w Hrel Hbatch Hdec) as H.
  destruct (cleanup.cleanup cw w) as [err w'] eqn:Hrun.
  destruct H as (Herr & _ & _). split; [exact Herr|].
  assert (Hw' : w' = (cleanup.cleanup cw w).2) by (by rewrite Hrun).
  rewrite Hw'. split; vm_compute; reflexivity.
Defined.

(** ** Progress over the life of the system *)

Lemma preserves_ret {A} (a : A) : preserves (ret a).
Proof. by intros w Hw. Qed.

Lemma preserves_bind {A B} (m : M A) (k : A → M B) :
  preserves m → (∀ a, preserves (k a)) → preserves (bind m k).
Proof.
  intros Hm Hk w Hw. unfold bind. specialize (Hm w Hw).
  destruct (m w) as [a w1]. by apply Hk.
Qed.

(** A computation that leaves the table alone and executes no statement
    keeps the invariant. *)
Lemma preserves_frame {A} (m : M A) :
  (∀ w, jobs (m w).2 = jobs w
        ∧ ∃ cs, trace (m w).2 = trace w ++ cs ∧ Forall not_exec cs) →
  preserves m.
Proof.
  intros Hm w [Hok Htr]. destruct (Hm w) as (Hj & cs & Ht & Hcs).
  split; [by rewrite Hj|].
  intros s Hs. rewrite Ht in Hs. apply elem_of_app in Hs as [Hs|Hs]; [by apply Htr|].
  rewrite Forall_forall in Hcs. by destruct (Hcs _ Hs).
Qed.

Ltac frame_nil := apply preserves_frame; intros w; split; [done|];
  exists []; split; [by rewrite app_nil_r|constructor].

Lemma preserves_logger lvl msg : preserves (logger lvl msg).
Proof. frame_nil. Qed.

Lemma preserves_get {A} (f : World → A) : preserves (get f).
Proof. frame_nil. Qed.

Lemma preserves_time_Now : preserves time_Now.
Proof. frame_nil. Qed.

Lemma preserves_uuid_New : preserves uuid_New.
Proof. frame_nil. Qed.

Lemma preserves_db_fault : preserves db_fault.
Proof.
  apply preserves_frame; intros w; unfold db_fault.
  destruct (next_fault (db_faults w)). split; [done|].
  exists []; split; [by rewrite app_nil_r|constructor].
Qed.

Lemma preserves_storage_fault : preserves storage_fault.
Proof.
  apply preserves_frame; intros w; unfold storage_fault.
  destruct (next_fault (storage_faults w)). split; [done|].
  exists []; split; [by rewrite app_nil_r|constructor].
Qed.

Lemma preserves_redis_fault : preserves redis_fault.
Proof.
  apply preserves_frame; intros w; unfold redis_fault.
  destruct (next_fault (redis_faults w)). split; [done|].
  exists []; split; [by rewrite app_nil_r|constructor].
Qed.

Lemma preserves_set_bucket b : preserves (set_bucket b).
Proof. frame_nil. Qed.

Lemma preserves_set_queue q : preserves (set_queue q).
Proof. frame_nil. Qed.

Lemma preserves_record_call (c : Call) : not_exec c → preserves (record_call c).
Proof.
  intros Hc. apply preserves_frame; intros w; split; [done|].
  exists [c]. split; [done|]. by constructor.
Qed.

Create HintDb pres.

#[local] Hint Resolve preserves_ret preserves_logger preserves_get
  preserves_time_Now preserves_uuid_New preserves_db_fault
  preserves_storage_fault preserves_redis_fault preserves_set_bucket
  preserves_set_queue : pres.

#[local] Hint Extern 1 (preserves (record_call _)) =>
  apply preserves_record_call; exact I : pres.

Ltac pres :=
  repeat first
    [ solve [auto with pres]
    | apply preserves_bind; [|intros ?]
    | match goal with
      | |- preserves (match ?x with _ => _ end) => destruct x
      end
    | progress cbn beta iota zeta ].

(** What a [SET] list of a component does to [progress]. *)
Lemma fold_assign_progress (set : list Assign) (r : Row) :
  sets_progress_100 set →
  progress (foldl (λ r a, assign a r) r set) = progress r
  ∨ progress (foldl (λ r a, assign a r) r set) = 100.
Proof.
  revert r. induction set as [|a set IH]; intros r Hset; [by left|].
  simpl. destruct (IH (assign a r)) as [Heq|Heq].
  { intros p Hp. apply Hset. by right. }
  - rewrite Heq. destruct a; try (left; by destruct r).
    right. rewrite (Hset p); [by destruct r|by left].
  - by right.
Qed.

Lemma component_sets_progress_100 set id cond :
  component_stmt (UPDATE_jobs set id cond) → sets_progress_100 set.
Proof.
  intros Hs p Hp. inversion Hs; subst;
    repeat (apply elem_of_cons in Hp as [Hp|Hp]; [congruence|]);
    by apply elem_of_nil in Hp.
Qed.

Lemma updated_at_progress now r : progress (update_updated_at_column now r) = progress r.
Proof. by destruct r. Qed.

(** A statement of a component keeps every progress at 0 or 100, and never
    lowers the progress of a row. *)
Lemma component_stmt_progress (s : Stmt) (now : Time) (t t' : Table) (n : Z) :
  component_stmt s →
  progress_ok t →
  exec now s t = inr (t', n) →
  progress_ok t'
  ∧ ∀ id r r', t !! id = Some r → t' !! id = Some r' → progress r ≤ progress r'.
Proof.
  intros Hs Hok Hexec. destruct s as [j|set id cond|id]; simpl in Hexec.
  - destruct (t !! ID j) as [r0|] eqn:Hl; [done|]. injection Hexec as <- <-. split.
    + apply map_Forall_insert_2; [by left|done].
    + intros id r r' Hr Hr'. destruct (decide (id = ID j)) as [->|Hne]; [congruence|].
      rewrite lookup_insert_ne in Hr' by done. by simplify_eq.
  - apply component_sets_progress_100 in Hs.
    destruct (t !! id) as [r0|] eqn:Hl.
    2: { injection Hexec as <- <-. split; [done|]. intros; by simplify_eq. }
    destruct (status_matches cond r0).
    2: { injection Hexec as <- <-. split; [done|]. intros; by simplify_eq. }
    injection Hexec as <- <-.
    pose proof (Hok _ _ Hl) as Hr0. simpl in Hr0.
    pose proof (fold_assign_progress set r0 Hs) as Hfold.
    split.
    + apply map_Forall_insert_2; [|done]. rewrite updated_at_progress. lia.
    + intros id' r r' Hr Hr'. destruct (decide (id' = id)) as [->|Hne].
      * rewrite lookup_insert_eq in Hr'. simplify_eq.
        rewrite updated_at_progress. lia.
      * rewrite lookup_insert_ne in Hr' by done. by simplify_eq.
  - destruct (t !! id) as [r0|] eqn:Hl; injection Hexec as <- <-.
    + split; [by apply map_Forall_delete|].
      intros id' r r' Hr Hr'. destruct (decide (id' = id)) as [->|Hne].
      * by rewrite lookup_delete_eq in Hr'.
      * rewrite lookup_delete_ne in Hr' by done. by simplify_eq.
    + split; [done|]. intros; by simplify_eq.
Qed.

Lemma preserves_ExecContext (s : Stmt) :
  component_stmt s → preserves (database.ExecContext s).
Proof.
  intros Hs w [Hok Htr]. unfold database.ExecContext. run.
  assert (Htr' : ∀ s', CallExec s' ∈ trace w ++ [CallExec s] → component_stmt s').
  { intros s' Hin. apply elem_of_app in Hin as [Hin|Hin]; [by apply Htr|].
    apply list_elem_of_singleton in Hin. by injection Hin as ->. }
  destruct (next_fault (db_faults w)) as [[e|] rest]; run; [done|].
  destruct (exec (clock w) s (jobs w)) as [e|[t' n]] eqn:Hexec; run; [done|].
  split; [|done]. by eapply component_stmt_progress.
Qed.

Lemma preserves_QueryContext (q : Query) : preserves (database.QueryContext q).
Proof.
  apply preserves_frame. intros w. unfold database.QueryContext. run.
  destruct (next_fault (db_faults w)) as [[e|] rest]; run.
  - split; [done|]. exists [CallQuery q]. split; [done|]. by constructor.
  - destruct (run (clock w) q (jobs w)); run;
      (split; [done|]; exists [CallQuery q]; split; [done|]; by constructor).
Qed.

#[local] Hint Resolve preserves_QueryContext : pres.
#[local] Hint Extern 1 (preserves (database.ExecContext _)) =>
  apply preserves_ExecContext; constructor : pres.

Lemma preserves_log_if_error err msg : preserves (api.log_if_error err msg).
Proof. unfold api.log_if_error. pres. Qed.

Lemma preserves_Create job : preserves (database.Create job).
Proof. unfold database.Create, MarshalOperations. pres. Qed.

Lemma preserves_GetByID id : preserves (database.GetByID id).
Proof. unfold database.GetByID. pres. Qed.

Lemma preserves_UpdateStatus id s : preserves (database.UpdateStatus id s).
Proof. unfold database.UpdateStatus. pres. Qed.

Lemma preserves_StartProcessing id wid : preserves (database.StartProcessing id wid).
Proof. unfold database.StartProcessing. pres. Qed.

Lemma preserves_CompleteJob id key hours : preserves (database.CompleteJob id key hours).
Proof. unfold database.CompleteJob. pres. Qed.

Lemma preserves_FailJob id msg : preserves (database.FailJob id msg).
Proof. unfold database.FailJob. pres. Qed.

Lemma preserves_CancelJob id : preserves (database.CancelJob id).
Proof. unfold database.CancelJob. pres. Qed.

Lemma preserves_DeleteJob id : preserves (database.DeleteJob id).
Proof. unfold database.DeleteJob. pres. Qed.

Lemma preserves_GetJobsToCleanup limit : preserves (database.GetJobsToCleanup limit).
Proof. unfold database.GetJobsToCleanup. pres. Qed.

Lemma preserves_Upload key data size ct : preserves (storage.Upload key data size ct).
Proof. unfold storage.Upload. pres. Qed.

Lemma preserves_Download key : preserves (storage.Download key).
Proof. unfold storage.Download. pres. Qed.

Lemma preserves_Delete key : preserves (storage.Delete key).
Proof. unfold storage.Delete. pres. Qed.

Lemma preserves_Enqueue p msg : preserves (queue.Enqueue p msg).
Proof. unfold queue.Enqueue, queue.XAdd. pres. Qed.

Lemma preserves_XReadGroup a : preserves (queue.XReadGroup a).
Proof. unfold queue.XReadGroup. pres. Qed.

#[local] Hint Resolve preserves_log_if_error preserves_Create preserves_GetByID
  preserves_UpdateStatus preserves_StartProcessing preserves_CompleteJob
  preserves_FailJob preserves_CancelJob preserves_DeleteJob
  preserves_GetJobsToCleanup preserves_Upload preserves_Download
  preserves_Delete preserves_Enqueue preserves_XReadGroup : pres.

Lemma preserves_Consume c : preserves (queue.Consume c).
Proof. unfold queue.Consume. pres. Qed.

Lemma preserves_Acknowledge c id : preserves (queue.Acknowledge c id).
Proof. unfold queue.Acknowledge, queue.XAck. pres. Qed.

Lemma preserves_api_CreateJob h r : preserves (api.CreateJob h r).
Proof. unfold api.CreateJob, api.writeError, api.writeJSON. pres. Qed.

Lemma preserves_api_GetJob p : preserves (api.GetJob p).
Proof. unfold api.GetJob, api.writeError, api.writeJSON. pres. Qed.

Lemma preserves_api_CancelJob p : preserves (api.CancelJob p).
Proof. unfold api.CancelJob, api.writeError, api.writeJSON. pres. Qed.

Lemma preserves_stream_loop id ticks : preserves (api.stream_loop id ticks).
Proof. induction ticks as [|ticks IH]; simpl; pres. Qed.

#[local] Hint Resolve preserves_Consume preserves_Acknowledge preserves_stream_loop : pres.

Lemma preserves_api_StreamJobStatus p ticks : preserves (api.StreamJobStatus p ticks).
Proof. unfold api.StreamJobStatus, api.writeError, api.writeJSON. pres. Qed.

Lemma preserves_processJob wk msg : preserves (worker.processJob wk msg).
Proof. unfold worker.processJob. pres. Qed.

#[local] Hint Resolve preserves_processJob : pres.

Lemma preserves_run_iteration wk : preserves (worker.run_iteration wk).
Proof. unfold worker.run_iteration. pres. Qed.

Lemma preserves_cleanupJob job : preserves (cleanup.cleanupJob job).
Proof. unfold cleanup.cleanupJob. pres. Qed.

#[local] Hint Resolve preserves_cleanupJob : pres.

Lemma preserves_cleanup_loop js : preserves (cleanup.cleanup_loop js).
Proof. induction js as [|job js IH]; simpl; pres. Qed.

#[local] Hint Resolve preserves_cleanup_loop : pres.

Lemma preserves_cleanup cw : preserves (cleanup.cleanup cw).
Proof. unfold cleanup.cleanup. pres. Qed.

(** Every step of every component keeps the invariant. *)
Lemma preserves_perform (a : Action) : preserves (perform a).
Proof.
  destruct a; simpl;
    auto using preserves_run_iteration;
    (apply preserves_bind; [|intros ?; apply preserves_ret]);
    auto using preserves_api_CreateJob, preserves_api_GetJob,
      preserves_api_CancelJob, preserves_api_StreamJobStatus, preserves_cleanup.
Qed.

Lemma reachable_inv (w : World) : reachable w → system_inv w.
Proof.
  induction 1 as [w Hj Ht|a w _ IH|w w' _ IH Hj Ht].
  - split.
    + unfold progress_ok. rewrite Hj. apply map_Forall_empty.
    + intros s Hs. rewrite Ht in Hs. by apply elem_of_nil in Hs.
  - by apply preserves_perform.
  - destruct IH as [Hok Htr]. split; [by rewrite Hj|].
    intros s Hs. rewrite Ht in Hs. by apply Htr.
Qed.

(** What [GetByID] returns is the row of the table, which it leaves as it
    is. *)
Lemma GetByID_row (id : UUID) (w : World) :
  let '(res, w') := database.GetByID id w in
  jobs w' = jobs w
  ∧ ∀ j, res.1 = Some j → ∃ r, jobs w !! id = Some r ∧ Progress j = progress r.
Proof.
  unfold database.GetByID. run.
  destruct (next_fault (db_faults w)) as [[e|] rest]; run; [by split|].
  destruct (jobs w !! id) as [r|] eqn:Hr; run; [|by split].
  unfold UnmarshalOperations. simpl.
  destruct (operations r); simpl; (split; [done|]); intros j Hj; try done;
    injection Hj as <-; by exists r.
Qed.

(** The frames of the polling loop carry the progress of the row at the
    time of each tick. *)
Lemma stream_loop_frames (id : UUID) (ticks : nat) (w : World) :
  progress_ok (jobs w) →
  let '(frames, w') := api.stream_loop id ticks w in
  jobs w' = jobs w
  ∧ ∀ j, j ∈ frames → Progress j = 0 ∨ Progress j = 100.
Proof.
  revert w. induction ticks as [|ticks IH]; intros w Hok; simpl.
  { split; [done|]. intros j Hj. by apply elem_of_nil in Hj. }
  unfold bind at 1. pose proof (GetByID_row id w) as Hget.
  destruct (database.GetByID id w) as [[[job|] [e|]] w1]; destruct Hget as [Hj Hrow].
  - run. split; [done|]. intros j Hin. by apply elem_of_nil in Hin.
  - assert (Hjob : Progress job = 0 ∨ Progress job = 100).
    { destruct (Hrow job eq_refl) as (r & Hr & ->). by apply (Hok _ _ Hr). }
    destruct (api.terminal (Status job)); run.
    + split; [done|]. intros j Hin. apply list_elem_of_singleton in Hin. by subst.
    + specialize (IH w1). rewrite Hj in IH. specialize (IH Hok).
      destruct (api.stream_loop id ticks w1) as [frames w']. run.
      destruct IH as [Hj' Hframes]. split; [by rewrite Hj'|].
      intros j Hin. apply elem_of_cons in Hin as [->|Hin]; [done|by apply Hframes].
  - run. split; [done|]. intros j Hin. by apply elem_of_nil in Hin.
  - run. split; [done|]. intros j Hin. by apply elem_of_nil in Hin.
Qed.

(** C10.  In every world the system can reach, every row has progress 0 or
    100.  A job is built and inserted with progress 0; every statement the
    components execute is one of [component_stmt], of which only that of
    [CompleteJob] assigns [progress], the value 100; the statement of
    [UpdateProgress] is never executed.  So no statement of a component
    lowers the progress of a row, and every frame of the status stream
    carries progress 0 or 100. *)
Theorem progress_zero_or_hundred :
  (∀ w, reachable w →
     ∀ id r, jobs w !! id = Some r → progress r = 0 ∨ progress r = 100)
  ∧ (∀ now fresh key name ct size ops,
       Progress (NewJob now fresh key name ct size ops) = 0)
  ∧ (∀ j, progress (inserted_row j) = 0)
  ∧ (∀ w, reachable w → ∀ s, CallExec s ∈ trace w → component_stmt s)
  ∧ (∀ set id cond,
       component_stmt (UPDATE_jobs set id cond) →
       ∀ p, SetProgress p ∈ set →
         p = 100 ∧ SetStatus JobStatusCompleted ∈ set)
  ∧ (∀ w id p w0,
       reachable w →
       CallExec (UPDATE_jobs [SetProgress p] id None)
         ∈ trace (database.UpdateProgress id p w0).2
       ∧ CallExec (UPDATE_jobs [SetProgress p] id None) ∉ trace w)
  ∧ (∀ s now t t' n,
       component_stmt s → progress_ok t → exec now s t = inr (t', n) →
       ∀ id r r', t !! id = Some r → t' !! id = Some r' →
         progress r ≤ progress r')
  ∧ (∀ w p ticks frames,
       reachable w →
       (api.StreamJobStatus p ticks w).1 = inr frames →
       ∀ j, j ∈ frames → Progress j = 0 ∨ Progress j = 100).
Proof.
  split.
  { intros w Hw id r Hr. destruct (reachable_inv w Hw) as [Hok _].
    by apply (Hok _ _ Hr). }
  split; [done|]. split; [done|].
  split.
  { intros w Hw. by destruct (reachable_inv w Hw). }
  split.
  { intros set id cond Hs p Hp. inversion Hs; subst;
      repeat (apply elem_of_cons in Hp as [Hp|Hp]; [try congruence|]);
      try (by apply elem_of_nil in Hp).
    injection Hp as ->. split; [done|]. by left. }
  split.
  { intros w id p w0 Hw. split.
    - unfold database.UpdateProgress. run.
      destruct (next_fault (db_faults w0)) as [[e|] rest]; run.
      + apply elem_of_app. right. by left.
      + destruct (jobs w0 !! id); run; apply elem_of_app; right; by left.
    - intros Hin. destruct (reachable_inv w Hw) as [_ Htr].
      specialize (Htr _ Hin). inversion Htr. }
  split.
  { intros s now t t' n Hs Hok Hexec.
    by destruct (component_stmt_progress s now t t' n Hs Hok Hexec). }
  intros w p ticks frames Hw Hrun j Hj.
  destruct (reachable_inv w Hw) as [Hok _].
  unfold api.StreamJobStatus in Hrun. destruct p as [id|raw]; [|done].
  unfold bind at 1 in Hrun. pose proof (GetByID_row id w) as Hget.
  destruct (database.GetByID id w) as [[[job|] [e|]] w1]; destruct Hget as [Hjw Hrow];
    try done.
  unfold bind in Hrun.
  pose proof (stream_loop_frames id ticks w1) as Hloop.
  rewrite Hjw in Hloop. specialize (Hloop Hok).
  destruct (api.stream_loop id ticks w1) as [fs w']. simpl in Hrun.
  injection Hrun as <-. destruct Hloop as [_ Hfs].
  apply elem_of_cons in Hj as [->|Hj]; [|by apply Hfs].
  destruct (Hrow job eq_refl) as (r & Hr & ->). by apply (Hok _ _ Hr).
Qed.

(** ** The happy path, end to end *)

(** An upload is accepted with 201 and queued; one iteration of a worker
    completes it with progress 100, a processed key and one hour of
    retention, and acknowledges the message. *)
Example happy_path :
  let created := api.CreateJob sample_handlers
                   (request_with (Some sample_upload) [resize_800]) fresh_system in
  let w2 := (worker.run_iteration sample_worker created.2).2 in
  api.StatusCode created.1 = 201
  ∧ status <$> jobs created.2 !! 7%N = Some "queued"
  ∧ status <$> jobs w2 !! 7%N = Some "completed"
  ∧ progress <$> jobs w2 !! 7%N = Some 100
  ∧ processed_key <$> jobs w2 !! 7%N =
      Some (Some "processed/00000000-0000-0000-0000-000000000007/photo.jpg")
  ∧ delete_at <$> jobs w2 !! 7%N = Some (Some (5000 + 3600000000000))
  ∧ redis.groups (queue w2) !! ("jobs", "workers") =
      Some {| redis.delivered := 1; redis.pending := [] |}.
Proof. vm_compute. repeat split. Qed.

(** * Further properties of the code *)

(** ** The image processor *)

Lemma isValidOperation_validOps (name : OperationType) :
  api.isValidOperation name = true ↔ name ∈ api.validOps.
Proof.
  unfold api.isValidOperation. rewrite existsb_exists. split.
  - intros (v & Hv & Heq). apply String.eqb_eq in Heq. subst.
    by apply list_elem_of_In.
  - intros Hin. exists name. split; [by apply list_elem_of_In|].
    apply String.eqb_refl.
Qed.

(** [applyOperation] has a case for every name [isValidOperation] accepts
    but [watermark]; on any other name it returns the error of its default
    case. *)
Lemma applyOperation_cases (lib : processor.Imaging) (op : Operation) :
  (api.isValidOperation (OpName op) = true
   ∧ OpName op ≠ OperationWatermark
   ∧ ∃ f, ∀ img, processor.applyOperation lib img op = inr (f img))
  ∨ ((api.isValidOperation (OpName op) = false ∨ OpName op = OperationWatermark)
     ∧ ∀ img, processor.applyOperation lib img op =
              inl ("unknown operation: " +:+ OpName op)).
Proof.
  unfold processor.applyOperation.
  repeat match goal with
  | |- context [String.eqb (OpName op) ?s] =>
      destruct (String.eqb_spec (OpName op) s) as [Heq|?];
      [left; rewrite Heq; split; [reflexivity|]; split; [done|]; by eexists|]
  end.
  right. split; [|done].
  destruct (String.eqb_spec (OpName op) OperationWatermark) as [|Hw]; [by right|].
  left. destruct (api.isValidOperation (OpName op)) eqn:Hv; [|done].
  apply isValidOperation_validOps in Hv. unfold api.validOps in Hv.
  repeat (apply elem_of_cons in Hv as [Hv|Hv]; [done|]).
  by apply elem_of_nil in Hv.
Qed.

(** X1.  The operations the acceptor admits and the operations the
    processor can apply differ by one name: [applyOperation] succeeds
    exactly on the names [isValidOperation] accepts other than
    [watermark], for which it returns the error "unknown operation:
    watermark". *)
Theorem watermark_accepted_not_applied (lib : processor.Imaging)
    (img : processor.Image lib) (op : Operation) :
  ((∃ img', processor.applyOperation lib img op = inr img')
   ↔ api.isValidOperation (OpName op) = true ∧ OpName op ≠ OperationWatermark)
  ∧ (OpName op = OperationWatermark →
       api.isValidOperation (OpName op) = true
       ∧ processor.applyOperation lib img op = inl "unknown operation: watermark").
Proof.
  destruct (applyOperation_cases lib op) as [(Hv & Hw & f & Hf)|[Hn Hu]].
  - split; [|done]. split; [done|]. intros _. eexists. apply Hf.
  - split.
    + rewrite Hu. split; [by intros [? ?]|]. intros [Hv Hw].
      destruct Hn; congruence.
    + intros Hw. rewrite Hu, Hw. done.
Qed.

(** The loop of [Process] stops at the first operation it cannot apply. *)
Lemma apply_operations_unknown (lib : processor.Imaging)
    (pre post : list Operation) (op : Operation) (img : processor.Image lib) :
  Forall (λ o, api.isValidOperation (OpName o) = true
               ∧ OpName o ≠ OperationWatermark) pre →
  api.isValidOperation (OpName op) = false ∨ OpName op = OperationWatermark →
  processor.apply_operations lib img (pre ++ op :: post) =
    inl ("failed to apply operation " +:+ OpName op +:+ ": unknown operation: "
         +:+ OpName op).
Proof.
  intros Hpre Hop. revert img.
  induction Hpre as [|o pre [Hv Hw] _ IH]; intros img; simpl.
  - destruct (applyOperation_cases lib op) as [(Hv & Hw & _)|[_ Hu]].
    + destruct Hop; congruence.
    + by rewrite Hu.
  - destruct (applyOperation_cases lib o) as [(_ & _ & f & Hf)|[Hn _]].
    + rewrite Hf. apply IH.
    + destruct Hn; congruence.
Qed.

(** The loop of [Process] succeeds on operations that can all be
    applied. *)
Lemma apply_operations_handled (lib : processor.Imaging) (ops : list Operation)
    (img : processor.Image lib) :
  (∃ img', processor.apply_operations lib img ops = inr img')
  ↔ Forall (λ o, api.isValidOperation (OpName o) = true
                 ∧ OpName o ≠ OperationWatermark) ops.
Proof.
  revert img. induction ops as [|o ops IH]; intros img; simpl.
  { split; [by constructor|by eexists]. }
  destruct (applyOperation_cases lib o) as [(Hv & Hw & f & Hf)|[Hn Hu]].
  - rewrite Hf, IH. split; [by constructor|by inversion 1].
  - rewrite Hu. split; [by intros [? ?]|].
    inversion 1 as [|? ? [? ?]]; subst. destruct Hn; congruence.
Qed.

(** X2.  [Process] on an object that decodes fails at the first operation
    of the list that [applyOperation] has no case for, with the error
    "failed to apply operation <name>: unknown operation: <name>", whatever
    follows it in the list; [watermark], which the acceptor admits, is such
    an operation. *)
Theorem process_unknown_operation (lib : processor.Imaging) (reader : option Object)
    (contentType : string) (pre post : list Operation) (op : Operation)
    (img : processor.Image lib) (format : string) :
  processor.Decode lib reader = inr (img, format) →
  Forall (λ o, api.isValidOperation (OpName o) = true
               ∧ OpName o ≠ OperationWatermark) pre →
  api.isValidOperation (OpName op) = false ∨ OpName op = OperationWatermark →
  processor.Process lib reader contentType (pre ++ op :: post) =
    (processor.no_result,
     Some ("failed to apply operation " +:+ OpName op +:+ ": unknown operation: "
           +:+ OpName op)).
Proof.
  intros Hdec Hpre Hop. unfold processor.Process. rewrite Hdec.
  by rewrite apply_operations_unknown.
Qed.

Lemma process_unknown_operation_witness :
  processor.Process sample_imaging
    (Some {| obj_data := "photo"; obj_content_type := "image/jpeg" |})
    "image/jpeg"
    ([resize_800] ++ {| OpName := OperationWatermark; Parameters := [] |} :: []) =
    (processor.no_result,
     Some "failed to apply operation watermark: unknown operation: watermark").
Proof.
  apply (process_unknown_operation sample_imaging
           (Some {| obj_data := "photo"; obj_content_type := "image/jpeg" |})
           "image/jpeg" [resize_800]
           [] {| OpName := OperationWatermark; Parameters := [] |}
           "photo" "jpeg").
  - reflexivity.
  - repeat constructor. discriminate.
  - right. reflexivity.
Defined.

(** A result of [Process] is a PNG or a JPEG. *)
Lemma Process_png_or_jpeg (lib : processor.Imaging) (reader : option Object)
    (contentType : string) (ops : list Operation) (result : worker.ProcessResult) :
  processor.Process lib reader contentType ops = (result, None) →
  worker.ResultContentType result = "image/png"
  ∨ worker.ResultContentType result = "image/jpeg".
Proof.
  unfold processor.Process.
  destruct (processor.Decode lib reader) as [e|[img format]]; [done|].
  destruct (processor.apply_operations lib (processor.Clone lib img) ops)
    as [e|img']; [done|].
  destruct (processor.Contains contentType "png" || String.eqb format "png")%bool.
  - destruct (processor.EncodePNG lib img'); [done|]. intros [= <-]. by left.
  - destruct (processor.EncodeJPEG lib img'); [done|]. intros [= <-]. by right.
Qed.

(** X3.  What a successful [Process] returns: the object decoded, every
    operation was one [applyOperation] has a case for, and the content
    type of the result is [image/png] when the content type of the upload
    contains "png" or the decoded format is PNG, and [image/jpeg] in every
    other case (so a GIF upload is re-encoded as JPEG).  A failed
    [Process] returns no result. *)
Theorem process_result_content_type (lib : processor.Imaging)
    (reader : option Object) (contentType : string) (ops : list Operation) :
  match processor.Process lib reader contentType ops with
  | (result, None) =>
      ∃ img format,
        processor.Decode lib reader = inr (img, format)
        ∧ Forall (λ o, api.isValidOperation (OpName o) = true
                       ∧ OpName o ≠ OperationWatermark) ops
        ∧ worker.ResultContentType result =
            (if (processor.Contains contentType "png" || String.eqb format "png")%bool
             then "image/png" else "image/jpeg")
  | (result, Some _) => result = processor.no_result
  end.
Proof.
  unfold processor.Process.
  destruct (processor.Decode lib reader) as [e|[img format]] eqn:Hdec; [done|].
  destruct (processor.apply_operations lib (processor.Clone lib img) ops)
    as [e|img'] eqn:Happ; [done|].
  assert (Hops : Forall (λ o, api.isValidOperation (OpName o) = true
                              ∧ OpName o ≠ OperationWatermark) ops).
  { eapply apply_operations_handled. by eexists. }
  destruct (processor.Contains contentType "png" || String.eqb format "png")%bool
    eqn:Hpng.
  - destruct (processor.EncodePNG lib img'); [done|].
    exists img, format. by rewrite Hpng.
  - destruct (processor.EncodeJPEG lib img'); [done|].
    exists img, format. by rewrite Hpng.
Qed.

(** ** The worker *)

Ltac run_worker :=
  repeat first
    [ progress unfold worker.processJob, storage.Download, storage.Upload,
        storage_fault, set_bucket, api.log_if_error
    | progress run ].

(** The job [GetByID] builds from a row whose operations decode. *)
Lemma job_of_row_fields (x : UUID * Row) :
  decodable x.2 →
  UnmarshalOperations (database.scan x) = (job_of_row x, None)
  ∧ Status (job_of_row x) = status x.2
  ∧ OriginalName (job_of_row x) = original_name x.2
  ∧ ContentType (job_of_row x) = content_type x.2.
Proof.
  unfold decodable, job_of_row, UnmarshalOperations. simpl.
  by destruct (operations x.2).
Qed.

(** [processJob] on a job that is not cancelled, under a database that
    carries out its calls: the outcome by the behaviour of the object store
    and of the transformation. *)
Lemma processJob_outcome (wk : worker.Worker) (msg : queue.Message) (w : World) (r : Row) :
  jobs w !! JobID (queue.Job msg) = Some r →
  decodable r →
  status r ≠ JobStatusCancelled →
  db_reliable w →
  let id := JobID (queue.Job msg) in
  let '(err, w') := worker.processJob wk msg w in
  ∃ r',
    jobs w' !! id = Some r'
    ∧ (∀ id', id' ≠ id → jobs w' !! id' = jobs w !! id')
    ∧ worker_id r' = Some (worker.id wk)
    ∧ started_at r' = Some (clock w)
    ∧ completed_at r' = Some (clock w)
    ∧ content_type r' = content_type r
    ∧ original_key r' = original_key r
    ∧ operations r' = operations r
    ∧ queue w' = queue w
    ∧ redis_faults w' = redis_faults w
    ∧ clock w' = clock w
    ∧ db_reliable w'
    ∧ (storage_reliable w → storage_reliable w')
    ∧ match (next_fault (storage_faults w)).1 with
      | Some e =>
          let m := "failed to download image: " +:+ ("failed to get object: " +:+ e) in
          err = Some m ∧ failed_with m r r' ∧ bucket w' = bucket w
      | None =>
          match worker.Process wk (bucket w !! original_key r) (content_type r)
                  (MsgOperations (queue.Job msg)) with
          | (_, Some e) =>
              let m := "failed to process image: " +:+ e in
              err = Some m ∧ failed_with m r r' ∧ bucket w' = bucket w
          | (result, None) =>
              match (next_fault (next_fault (storage_faults w)).2).1 with
              | Some e =>
                  let m := "failed to upload processed image: "
                           +:+ ("failed to upload object: " +:+ e) in
                  err = Some m ∧ failed_with m r r' ∧ bucket w' = bucket w
              | None =>
                  let key := processed_key_of id (original_name r) in
                  err = None
                  ∧ status r' = JobStatusCompleted
                  ∧ progress r' = 100
                  ∧ processed_key r' = Some key
                  ∧ delete_at r' = Some (clock w + 3600000000000)
                  ∧ error_col r' = error_col r
                  ∧ bucket w' =
                      <[key := {| obj_data := worker.ResultData result;
                                  obj_content_type := worker.ResultContentType result |}]>
                        (bucket w)
              end
          end
      end.
Proof.
  intros Hr Hdec Hst Hdb. unfold db_reliable in Hdb.
  destruct (next_fault_reliable _ Hdb) as [Hf1 Hdb1].
  destruct (next_fault_reliable _ Hdb1) as [Hf2 Hdb2].
  destruct (next_fault_reliable _ Hdb2) as [Hf3 Hdb3].
  destruct (next_fault_reliable _ Hdb3) as [Hf4 Hdb4].
  destruct (job_of_row_fields (JobID (queue.Job msg), r) Hdec)
    as (Hun & Hjst & Hjname & Hjct).
  destruct (job_of_row_keys (JobID (queue.Job msg), r)) as [Hjok _].
  simpl in Hjst, Hjname, Hjct, Hjok.
  apply String.eqb_neq in Hst.
  assert (Hs1 : Forall (λ f, f = None) (storage_faults w) →
                Forall (λ f, f = None) (next_fault (storage_faults w)).2).
  { intros H. by destruct (next_fault_reliable _ H). }
  assert (Hs2 : Forall (λ f, f = None) (storage_faults w) →
                Forall (λ f, f = None)
                  (next_fault (next_fault (storage_faults w)).2).2).
  { intros H. destruct (next_fault_reliable _ H) as [_ H1].
    by destruct (next_fault_reliable _ H1). }
  unfold failed_with, processed_key_of, storage_reliable.
  run_worker.
  destruct (next_fault (db_faults w)) as [f1 rest1]; simpl in *; subst f1.
  run_worker. rewrite Hr. run_worker.
  rewrite Hun. run_worker. rewrite Hjst, Hst. run_worker.
  destruct (next_fault rest1) as [f2 rest2]; simpl in *; subst f2.
  run_worker. rewrite Hr. run_worker. rewrite Hjok.
  destruct (next_fault (storage_faults w)) as [[se1|] srest1] eqn:Hsf1; run_worker.
  { destruct (next_fault rest2) as [f3 rest3]; simpl in *; subst f3.
    run_worker. rewrite lookup_insert_eq. run_worker.
    eexists. rewrite lookup_insert_eq. split; [reflexivity|].
    split. { intros id' Hne. by rewrite !lookup_insert_ne. }
    destruct r; simpl. unfold db_reliable; simpl.
    repeat split;
      first [ reflexivity | assumption
            | intros H; specialize (Hs2 H); by rewrite Hsf2 in Hs2 ]. }
  rewrite Hjct.
  destruct (worker.Process wk (bucket w !! original_key r) (content_type r)
              (MsgOperations (queue.Job msg))) as [result [pe|]]; run_worker.
  { destruct (next_fault rest2) as [f3 rest3]; simpl in *; subst f3.
    run_worker. rewrite lookup_insert_eq. run_worker.
    eexists. rewrite lookup_insert_eq. split; [reflexivity|].
    split. { intros id' Hne. by rewrite !lookup_insert_ne. }
    destruct r; simpl. unfold db_reliable; simpl.
    repeat split;
      first [ reflexivity | assumption
            | intros H; specialize (Hs2 H); by rewrite Hsf2 in Hs2 ]. }
  rewrite Hjname.
  destruct (next_fault srest1) as [[se2|] srest2] eqn:Hsf2; run_worker.
  { destruct (next_fault rest2) as [f3 rest3]; simpl in *; subst f3.
    run_worker. rewrite lookup_insert_eq. run_worker.
    eexists. rewrite lookup_insert_eq. split; [reflexivity|].
    split. { intros id' Hne. by rewrite !lookup_insert_ne. }
    destruct r; simpl. unfold db_reliable; simpl.
    repeat split;
      first [ reflexivity | assumption
            | intros H; specialize (Hs2 H); by rewrite Hsf2 in Hs2 ]. }
  destruct (next_fault rest2) as [f3 rest3]; simpl in *; subst f3.
  run_worker. rewrite lookup_insert_eq. run_worker.
  destruct (next_fault rest3) as [f4 rest4]; simpl in *; subst f4.
  run_worker. rewrite lookup_insert_eq. run_worker.
  eexists. rewrite lookup_insert_eq. split; [reflexivity|].
  split. { intros id' Hne. by rewrite !lookup_insert_ne. }
  destruct r; simpl. unfold db_reliable; simpl.
  repeat split;
      first [ reflexivity | assumption
            | intros H; specialize (Hs2 H); by rewrite Hsf2 in Hs2 ].
Qed.

(** X4.  [processJob] on a job that is not cancelled, under a database
    that carries out its calls, returns an error exactly when the download
    of the original, the transformation or the upload of the result fails.
    Then the row is left FAILED with the returned message in [error] and
    [completed_at = now]; its [delete_at], [processed_key] and [progress]
    are as before (a failed job is not handed to the sweeper), and the
    bucket is unchanged. *)
Theorem process_job_failure_marks_failed (wk : worker.Worker) (msg : queue.Message)
    (w : World) (r : Row) :
  jobs w !! JobID (queue.Job msg) = Some r →
  decodable r →
  status r ≠ JobStatusCancelled →
  db_reliable w →
  let id := JobID (queue.Job msg) in
  let transformed := worker.Process wk (bucket w !! original_key r) (content_type r)
                       (MsgOperations (queue.Job msg)) in
  let download := (next_fault (storage_faults w)).1 in
  let upload := (next_fault (next_fault (storage_faults w)).2).1 in
  let '(err, w') := worker.processJob wk msg w in
  (err = None ↔ download = None ∧ transformed.2 = None ∧ upload = None)
  ∧ ∀ m, err = Some m →
      bucket w' = bucket w
      ∧ (∃ r', jobs w' !! id = Some r'
           ∧ failed_with m r r'
           ∧ completed_at r' = Some (clock w)
           ∧ worker_id r' = Some (worker.id wk))
      ∧ ((∃ e, download = Some e
               ∧ m = "failed to download image: " +:+ ("failed to get object: " +:+ e))
         ∨ (∃ e, download = None ∧ transformed.2 = Some e
                 ∧ m = "failed to process image: " +:+ e)
         ∨ (∃ e, download = None ∧ transformed.2 = None ∧ upload = Some e
                 ∧ m = "failed to upload processed image: "
                       +:+ ("failed to upload object: " +:+ e))).
Proof.
  intros Hr Hdec Hst Hdb. simpl.
  pose proof (processJob_outcome wk msg w r Hr Hdec Hst Hdb) as H. simpl in H.
  destruct (worker.processJob wk msg w) as [err w'].
  destruct H as (r' & Hr' & _ & Hwid & _ & Hco & _ & _ & _ & _ & _ & _ & _ & _ & H).
  destruct ((next_fault (storage_faults w)).1) as [e|].
  { destruct H as (-> & Hfail & Hb). split; [split; [done|by intros [? _]]|].
    intros m [= <-]. split; [done|]. split; [by exists r'|]. left. by exists e. }
  destruct (worker.Process wk (bucket w !! original_key r) (content_type r)
              (MsgOperations (queue.Job msg))) as [result [e|]]; simpl.
  { destruct H as (-> & Hfail & Hb). split; [split; [done|by intros (_ & ? & _)]|].
    intros m [= <-]. split; [done|]. split; [by exists r'|]. right. left. by exists e. }
  destruct ((next_fault (next_fault (storage_faults w)).2).1) as [e|].
  { destruct H as (-> & Hfail & Hb). split; [split; [done|by intros (_ & _ & ?)]|].
    intros m [= <-]. split; [done|]. split; [by exists r'|]. right. right. by exists e. }
  destruct H as (-> & _). split; [done|]. by intros m.
Qed.

(** X4 (witness): the object store refuses the download. *)
Lemma process_job_failure_marks_failed_witness :
  let wk := imaging_worker in
  let msg := sample_delivery in
  let w := worker_world [Some "connection reset"] in
  let r := sample_row JobStatusQueued in
  let id := JobID (queue.Job msg) in
  let transformed := worker.Process wk (bucket w !! original_key r) (content_type r)
                       (MsgOperations (queue.Job msg)) in
  let download := (next_fault (storage_faults w)).1 in
  let upload := (next_fault (next_fault (storage_faults w)).2).1 in
  let '(err, w') := worker.processJob wk msg w in
  (err = None ↔ download = None ∧ transformed.2 = None ∧ upload = None)
  ∧ ∀ m, err = Some m →
      bucket w' = bucket w
      ∧ (∃ r', jobs w' !! id = Some r'
           ∧ failed_with m r r'
           ∧ completed_at r' = Some (clock w)
           ∧ worker_id r' = Some (worker.id wk))
      ∧ ((∃ e, download = Some e
               ∧ m = "failed to download image: " +:+ ("failed to get object: " +:+ e))
         ∨ (∃ e, download = None ∧ transformed.2 = Some e
                 ∧ m = "failed to process image: " +:+ e)
         ∨ (∃ e, download = None ∧ transformed.2 = None ∧ upload = Some e
                 ∧ m = "failed to upload processed image: "
                       +:+ ("failed to upload object: " +:+ e))).
Proof.
  apply (process_job_failure_marks_failed imaging_worker sample_delivery
           (worker_world [Some "connection reset"]) (sample_row JobStatusQueued)).
  - reflexivity.
  - exact I.
  - discriminate.
  - constructor.
Defined.

(** X5.  [processJob] on a job that is not cancelled, when the database
    and the object store carry out their calls and the transformation
    succeeds: no error; the result is stored under
    [processed/<id>/<original name>] with the content type the
    transformation returned; the row is COMPLETED with progress 100, that
    key as [processed_key], [completed_at = now] and [delete_at] one hour
    later.  The [content_type] column of the row is not touched, and
    neither is its [error] column. *)
Theorem process_job_success (wk : worker.Worker) (msg : queue.Message)
    (w : World) (r : Row) (result : worker.ProcessResult) :
  jobs w !! JobID (queue.Job msg) = Some r →
  decodable r →
  status r ≠ JobStatusCancelled →
  db_reliable w →
  storage_reliable w →
  worker.Process wk (bucket w !! original_key r) (content_type r)
    (MsgOperations (queue.Job msg)) = (result, None) →
  let id := JobID (queue.Job msg) in
  let key := processed_key_of id (original_name r) in
  let '(err, w') := worker.processJob wk msg w in
  err = None
  ∧ bucket w' = <[key := {| obj_data := worker.ResultData result;
                            obj_content_type := worker.ResultContentType result |}]>
                  (bucket w)
  ∧ (∀ id', id' ≠ id → jobs w' !! id' = jobs w !! id')
  ∧ ∃ r', jobs w' !! id = Some r'
      ∧ status r' = JobStatusCompleted
      ∧ progress r' = 100
      ∧ processed_key r' = Some key
      ∧ worker_id r' = Some (worker.id wk)
      ∧ started_at r' = Some (clock w)
      ∧ completed_at r' = Some (clock w)
      ∧ delete_at r' = Some (clock w + 3600000000000)
      ∧ content_type r' = content_type r
      ∧ error_col r' = error_col r.
Proof.
  intros Hr Hdec Hst Hdb Hsr Hproc. simpl.
  pose proof (processJob_outcome wk msg w r Hr Hdec Hst Hdb) as H. simpl in H.
  destruct (worker.processJob wk msg w) as [err w'].
  destruct H as (r' & Hr' & Hothers & Hwid & Hsa & Hco & Hct & _ & _ & _ & _ & _ & _ & _ & H).
  destruct (next_fault_reliable _ Hsr) as [Hs1 Hsr1].
  destruct (next_fault_reliable _ Hsr1) as [Hs2 _].
  rewrite Hs1, Hproc, Hs2 in H.
  destruct H as (-> & Hstatus & Hprog & Hpk & Hda & Herr & Hb).
  split; [done|]. split; [done|]. split; [done|]. by exists r'.
Qed.

(** X5 (witness): the sample job, resized by the toy library. *)
Lemma process_job_success_witness :
  let wk := imaging_worker in
  let msg := sample_delivery in
  let w := worker_world [] in
  let r := sample_row JobStatusQueued in
  let result := {| worker.ResultData := "JFIF photo resized";
                   worker.ResultContentType := "image/jpeg" |} in
  let id := JobID (queue.Job msg) in
  let key := processed_key_of id (original_name r) in
  let '(err, w') := worker.processJob wk msg w in
  err = None
  ∧ bucket w' = <[key := {| obj_data := worker.ResultData result;
                            obj_content_type := worker.ResultContentType result |}]>
                  (bucket w)
  ∧ (∀ id', id' ≠ id → jobs w' !! id' = jobs w !! id')
  ∧ ∃ r', jobs w' !! id = Some r'
      ∧ status r' = JobStatusCompleted
      ∧ progress r' = 100
      ∧ processed_key r' = Some key
      ∧ worker_id r' = Some (worker.id wk)
      ∧ started_at r' = Some (clock w)
      ∧ completed_at r' = Some (clock w)
      ∧ delete_at r' = Some (clock w + 3600000000000)
      ∧ content_type r' = content_type r
      ∧ error_col r' = error_col r.
Proof.
  apply (process_job_success imaging_worker sample_delivery (worker_world [])
           (sample_row JobStatusQueued)
           {| worker.ResultData := "JFIF photo resized";
              worker.ResultContentType := "image/jpeg" |}).
  - reflexivity.
  - exact I.
  - discriminate.
  - constructor.
  - constructor.
  - reflexivity.
Defined.

(** X6.  [processJob] on a cancelled job: the job is dropped.  The only
    call made is the read of the row; no statement is executed, no object
    is read or written, and no error is returned. *)
Theorem process_job_skips_cancelled (wk : worker.Worker) (msg : queue.Message)
    (w : World) (r : Row) :
  jobs w !! JobID (queue.Job msg) = Some r →
  decodable r →
  status r = JobStatusCancelled →
  db_up w →
  let '(err, w') := worker.processJob wk msg w in
  err = None
  ∧ jobs w' = jobs w
  ∧ bucket w' = bucket w
  ∧ queue w' = queue w
  ∧ trace w' = trace w ++ [CallQuery (SELECT_job_WHERE_id (JobID (queue.Job msg)))].
Proof.
  intros Hr Hdec Hst Hdb. unfold db_up in Hdb.
  destruct (job_of_row_fields (JobID (queue.Job msg), r) Hdec) as (Hun & Hjst & _).
  simpl in Hjst. run_worker.
  destruct (next_fault (db_faults w)) as [f1 rest1]; simpl in *; subst f1.
  run_worker. rewrite Hr. run_worker. rewrite Hun. run_worker.
  rewrite Hjst, Hst. run_worker. done.
Qed.

(** X6 (witness): the sample job, cancelled before the worker came to
    it. *)
Lemma process_job_skips_cancelled_witness :
  let w := quiet_world 5000 {[ 7%N := sample_row JobStatusCancelled ]} in
  let '(err, w') := worker.processJob imaging_worker sample_delivery w in
  err = None
  ∧ jobs w' = jobs w
  ∧ bucket w' = bucket w
  ∧ queue w' = queue w
  ∧ trace w' = trace w ++ [CallQuery (SELECT_job_WHERE_id 7%N)].
Proof.
  apply (process_job_skips_cancelled imaging_worker sample_delivery
           (quiet_world 5000 {[ 7%N := sample_row JobStatusCancelled ]})
           (sample_row JobStatusCancelled)).
  - reflexivity.
  - exact I.
  - reflexivity.
  - reflexivity.
Defined.

(** X7.  [processJob] on a message whose job has no row (the sweeper
    deleted it, or it was never inserted): [GetByID] reports the missing
    row as the error "job not found", so [processJob] returns "failed to
    get job: job not found" and its branch for a nil job ("job not found,
    skipping") is not the one taken.  Nothing is written. *)
Theorem process_job_missing_row (wk : worker.Worker) (msg : queue.Message) (w : World) :
  jobs w !! JobID (queue.Job msg) = None →
  db_up w →
  let '(err, w') := worker.processJob wk msg w in
  err = Some "failed to get job: job not found"
  ∧ jobs w' = jobs w
  ∧ bucket w' = bucket w
  ∧ trace w' = trace w ++ [CallQuery (SELECT_job_WHERE_id (JobID (queue.Job msg)))]
  ∧ log w' = log w ++ [(INFO, "starting job processing")].
Proof.
  intros Hr Hdb. unfold db_up in Hdb. run_worker.
  destruct (next_fault (db_faults w)) as [f1 rest1]; simpl in *; subst f1.
  run_worker. rewrite Hr. run_worker. done.
Qed.

(** X7 (witness): the message of a job in an empty table. *)
Lemma process_job_missing_row_witness :
  let w := quiet_world 5000 ∅ in
  let '(err, w') := worker.processJob imaging_worker sample_delivery w in
  err = Some "failed to get job: job not found"
  ∧ jobs w' = jobs w
  ∧ bucket w' = bucket w
  ∧ trace w' = trace w ++ [CallQuery (SELECT_job_WHERE_id 7%N)]
  ∧ log w' = log w ++ [(INFO, "starting job processing")].
Proof.
  apply (process_job_missing_row imaging_worker sample_delivery (quiet_world 5000 ∅)).
  - reflexivity.
  - reflexivity.
Defined.

Lemma keeps_queue_ret {A} (a : A) : keeps_queue (ret a).
Proof. by intros w. Qed.

Lemma keeps_queue_bind {A B} (m : M A) (k : A → M B) :
  keeps_queue m → (∀ a, keeps_queue (k a)) → keeps_queue (bind m k).
Proof.
  intros Hm Hk w. unfold bind. destruct (Hm w) as [Hq Hf].
  destruct (m w) as [a w1]. simpl in *. destruct (Hk a w1) as [Hq' Hf'].
  split; congruence.
Qed.

Lemma keeps_queue_logger lvl msg : keeps_queue (logger lvl msg).
Proof. by intros w. Qed.

Lemma keeps_queue_get {A} (f : World → A) : keeps_queue (get f).
Proof. by intros w. Qed.

Lemma keeps_queue_time_Now : keeps_queue time_Now.
Proof. by intros w. Qed.

Lemma keeps_queue_record_call c : keeps_queue (record_call c).
Proof. by intros w. Qed.

Lemma keeps_queue_set_jobs t : keeps_queue (set_jobs t).
Proof. by intros w. Qed.

Lemma keeps_queue_set_bucket b : keeps_queue (set_bucket b).
Proof. by intros w. Qed.

Lemma keeps_queue_db_fault : keeps_queue db_fault.
Proof. intros w. unfold db_fault. by destruct (next_fault (db_faults w)). Qed.

Lemma keeps_queue_storage_fault : keeps_queue storage_fault.
Proof. intros w. unfold storage_fault. by destruct (next_fault (storage_faults w)). Qed.

Create HintDb keeps.

#[local] Hint Resolve keeps_queue_ret keeps_queue_logger keeps_queue_get
  keeps_queue_time_Now keeps_queue_record_call keeps_queue_set_jobs
  keeps_queue_set_bucket keeps_queue_db_fault keeps_queue_storage_fault : keeps.

Ltac keeps :=
  repeat first
    [ solve [auto with keeps]
    | apply keeps_queue_bind; [|intros ?]
    | match goal with
      | |- keeps_queue (match ?x with _ => _ end) => destruct x
      | |- keeps_queue (if ?x then _ else _) => destruct x
      | |- keeps_queue (let '(_, _) := ?x in _) => destruct x
      end
    | progress cbn beta iota zeta ].

(** [processJob] does not touch the queue. *)
Lemma keeps_queue_processJob wk msg : keeps_queue (worker.processJob wk msg).
Proof.
  unfold worker.processJob, database.GetByID, database.StartProcessing,
    database.FailJob, database.CompleteJob, database.ExecContext,
    database.QueryContext, storage.Download, storage.Upload.
  keeps.
Qed.

Lemma filter_all {A} (P : A → Prop) `{∀ x, Decision (P x)} (l : list A) :
  Forall P l → filter P l = l.
Proof.
  induction 1 as [|x l Hx _ IH]; [done|].
  rewrite filter_cons_True by done. by rewrite IH.
Qed.

(** What [Acknowledge] does: one XACK, after which, if Redis carried it
    out, no entry with that id is pending in the group. *)
Lemma Acknowledge_effect (c : queue.Consumer) (id : string) (w : World) :
  let '(err, w') := queue.Acknowledge c id w in
  trace w' = trace w
    ++ [CallXAck (queue.streamName c) (queue.consumerGroup c) id]
  ∧ redis.streams (queue w') = redis.streams (queue w)
  ∧ (∀ k, k ≠ (queue.streamName c, queue.consumerGroup c) →
       redis.groups (queue w') !! k = redis.groups (queue w) !! k)
  ∧ match (next_fault (redis_faults w)).1 with
    | Some e =>
        err = Some ("failed to acknowledge message: " +:+ e) ∧ queue w' = queue w
    | None =>
        err = None
        ∧ redis.groups (queue w') !! (queue.streamName c, queue.consumerGroup c) =
            (λ g, {| redis.delivered := redis.delivered g;
                     redis.pending := filter (λ p, p.1 ≠ id) (redis.pending g) |})
              <$> redis.groups (queue w) !! (queue.streamName c, queue.consumerGroup c)
    end.
Proof.
  unfold queue.Acknowledge, queue.XAck, redis_fault, set_queue. run.
  destruct (next_fault (redis_faults w)) as [[e|] rest]; run; [done|].
  unfold redis.xack.
  destruct (redis.groups (queue w) !! (queue.streamName c, queue.consumerGroup c))
    as [g|] eqn:Hg; run.
  2: { rewrite Hg. repeat split; done. }
  destruct (bool_decide (id ∈ (redis.pending g).*1)) eqn:Hin; run.
  - split; [done|]. split; [done|].
    split; [intros k Hk; by rewrite lookup_insert_ne|].
    split; [done|]. by rewrite lookup_insert_eq.
  - apply bool_decide_eq_false in Hin.
    split; [done|]. split; [done|]. split; [done|]. split; [done|].
    rewrite Hg. simpl. f_equal. destruct g as [d p]. simpl in *.
    f_equal. symmetry. apply filter_all. apply Forall_forall.
    intros x Hx Heq. apply Hin. apply list_elem_of_fmap. by exists x.
Qed.

(** X8.  One iteration of the worker's loop that consumed a message ends
    with the XACK of that message, whatever [processJob] did and returned
    (an error of [processJob] is only logged).  If Redis carries the XACK
    out, no entry with the id of the message is pending in the group
    afterwards, so a job that failed is not delivered again. *)
Theorem worker_acknowledges_whatever_the_outcome (wk : worker.Worker)
    (w w1 : World) (msg : queue.Message) :
  queue.Consume (worker.consumer wk) w = (Some msg, None, w1) →
  let c := worker.consumer wk in
  let w' := (worker.run_iteration wk w).2 in
  last (trace w') =
    Some (CallXAck (queue.streamName c) (queue.consumerGroup c) (queue.MessageID msg))
  ∧ ((next_fault (redis_faults w1)).1 = None →
     ∀ g, redis.groups (queue w') !! (queue.streamName c, queue.consumerGroup c) = Some g →
          queue.MessageID msg ∉ (redis.pending g).*1).
Proof.
  intros Hc. simpl.
  pose proof (keeps_queue_processJob wk msg w1) as [Hq Hf].
  destruct (worker.processJob wk msg w1) as [err w2] eqn:Hp. simpl in Hq, Hf.
  assert (Hlog : ∃ w3, api.log_if_error err "failed to process job" w2 = (tt, w3)
                 ∧ trace w3 = trace w2 ∧ queue w3 = queue w2
                 ∧ redis_faults w3 = redis_faults w2).
  { unfold api.log_if_error, logger, ret. destruct err; eexists; by repeat split. }
  destruct Hlog as (w3 & Hl3 & Htr3 & Hq3 & Hf3).
  pose proof (Acknowledge_effect (worker.consumer wk) (queue.MessageID msg) w3) as Hack.
  destruct (queue.Acknowledge (worker.consumer wk) (queue.MessageID msg) w3)
    as [aerr w4] eqn:Ha.
  destruct Hack as (Htr4 & _ & _ & Hres).
  assert (Hlog' : ∃ w5, api.log_if_error aerr "failed to acknowledge message" w4 = (tt, w5)
                  ∧ trace w5 = trace w4 ∧ queue w5 = queue w4).
  { unfold api.log_if_error, logger, ret. destruct aerr; eexists; by repeat split. }
  destruct Hlog' as (w5 & Hl5 & Htr5 & Hq5).
  assert (Hrun : worker.run_iteration wk w = (tt, w5)).
  { unfold worker.run_iteration, bind. by rewrite Hc, Hp, Hl3, Ha, Hl5. }
  rewrite Hrun. simpl. split.
  - rewrite Htr5, Htr4. apply last_snoc.
  - intros Hup g Hg. rewrite Hf3, Hf, Hup in Hres. destruct Hres as [_ Hres].
    rewrite Hq5, Hres in Hg.
    destruct (redis.groups (queue w3)
                !! (queue.streamName (worker.consumer wk),
                    queue.consumerGroup (worker.consumer wk))) as [g3|]; [|done].
    injection Hg as <-. simpl.
    intros Hin. apply list_elem_of_fmap in Hin as (p & Hp' & Hin).
    apply list_elem_of_filter in Hin as [Hne _]. done.
Qed.

(** X8 (witness): the sample worker re-reads its pending message. *)
Lemma worker_acknowledges_whatever_the_outcome_witness :
  let wk := sample_worker in
  let w := queue_world sample_queue [] in
  let msg := sample_delivery in
  let c := worker.consumer wk in
  let w' := (worker.run_iteration wk w).2 in
  last (trace w') =
    Some (CallXAck (queue.streamName c) (queue.consumerGroup c) (queue.MessageID msg))
  ∧ ((next_fault (redis_faults (queue.Consume c w).2)).1 = None →
     ∀ g, redis.groups (queue w') !! (queue.streamName c, queue.consumerGroup c) = Some g →
          queue.MessageID msg ∉ (redis.pending g).*1).
Proof.
  apply (worker_acknowledges_whatever_the_outcome sample_worker
           (queue_world sample_queue []) _ sample_delivery).
  reflexivity.
Defined.

(** ** The queue: delivery, redelivery and the consumer group *)

(** [Consume] when the consumer has a pending entry: that entry is
    parsed, with one read and no change but to the transport script. *)
Lemma Consume_pending (c : queue.Consumer) (w : World) (g : redis.GroupState)
    (m : redis.XMessage) (ms : list redis.XMessage) :
  redis.groups (queue w) !! (queue.streamName c, queue.consumerGroup c) = Some g →
  redis.pending_of (redis.entries (queue w) (queue.streamName c)) g
    (queue.consumerName c) = m :: ms →
  (next_fault (redis_faults w)).1 = None →
  let '(res, w') := queue.Consume c w in
  res = queue.parseMessage m
  ∧ queue w' = queue w
  ∧ redis_faults w' = (next_fault (redis_faults w)).2
  ∧ jobs w' = jobs w ∧ bucket w' = bucket w ∧ log w' = log w
  ∧ db_faults w' = db_faults w ∧ storage_faults w' = storage_faults w
  ∧ clock w' = clock w
  ∧ trace w' = trace w ++ [CallXReadGroup (queue.pending_args c)].
Proof.
  intros Hg Hmine Hup. run_queue.
  destruct (next_fault (redis_faults w)) as [f rest]; simpl in Hup; subst f.
  run_queue. unfold redis.xreadgroup. simpl. rewrite Hg. simpl. rewrite Hmine.
  run_queue. by destruct (queue w).
Qed.

(** [Consume] when the consumer has no pending entry and the stream has an
    entry not yet delivered to the group: the oldest such entry is parsed
    and recorded as pending for the consumer. *)
Lemma Consume_fresh (c : queue.Consumer) (w : World) (g : redis.GroupState)
    (m : redis.XMessage) (ms : list redis.XMessage) :
  redis.groups (queue w) !! (queue.streamName c, queue.consumerGroup c) = Some g →
  redis.pending_of (redis.entries (queue w) (queue.streamName c)) g
    (queue.consumerName c) = [] →
  drop (redis.delivered g) (redis.entries (queue w) (queue.streamName c)) = m :: ms →
  (next_fault (redis_faults w)).1 = None →
  (next_fault (next_fault (redis_faults w)).2).1 = None →
  let '(res, w') := queue.Consume c w in
  res = queue.parseMessage m
  ∧ redis.streams (queue w') = redis.streams (queue w)
  ∧ redis.groups (queue w') =
      <[(queue.streamName c, queue.consumerGroup c) :=
          {| redis.delivered := S (redis.delivered g);
             redis.pending := redis.pending g ++ [(redis.XID m, queue.consumerName c)] |}]>
        (redis.groups (queue w))
  ∧ redis_faults w' = (next_fault (next_fault (redis_faults w)).2).2
  ∧ jobs w' = jobs w ∧ bucket w' = bucket w.
Proof.
  intros Hg Hmine Hun Hup1 Hup2. run_queue.
  destruct (next_fault (redis_faults w)) as [f rest]; simpl in Hup1, Hup2; subst f.
  run_queue. unfold redis.xreadgroup at 1. simpl. rewrite Hg. simpl. rewrite Hmine.
  run_queue.
  destruct (next_fault rest) as [f2 rest2]; simpl in Hup2; subst f2.
  run_queue. unfold redis.xreadgroup. simpl. rewrite Hg. simpl. rewrite Hun.
  run_queue. repeat split; try done. do 3 f_equal. lia.
Qed.





(** What [Enqueue] does under a Redis that carries the XADD out. *)
Lemma Enqueue_effect (p : queue.Producer) (msg : JobMessage) (w : World) :
  (next_fault (redis_faults w)).1 = None →
  let es := redis.entries (queue w) (queue.p_streamName p) in
  let '(err, w') := queue.Enqueue p msg w in
  err = None
  ∧ redis.streams (queue w') =
      <[queue.p_streamName p :=
          es ++ [{| redis.XID := pretty (S (length es)) +:+ "-0";
                    redis.Values := [("data", Encodes msg)] |}]]>
        (redis.streams (queue w))
  ∧ redis.groups (queue w') = redis.groups (queue w)
  ∧ redis_faults w' = (next_fault (redis_faults w)).2
  ∧ jobs w' = jobs w ∧ bucket w' = bucket w.
Proof.
  intros Hup. unfold queue.Enqueue, queue.XAdd, redis_fault, set_queue. run.
  destruct (next_fault (redis_faults w)) as [f rest]; simpl in Hup; subst f.
  run. done.
Qed.

Lemma pending_of_nothing (es : list redis.XMessage) (g : redis.GroupState)
    (consumer : string) :
  nothing_pending g consumer → redis.pending_of es g consumer = [].
Proof.
  unfold nothing_pending, redis.pending_of.
  induction 1 as [|p ps Hp _ IH]; [done|].
  simpl. by rewrite bool_decide_eq_false_2.
Qed.

(** X10.  Round trip through the queue.  When the group has been delivered
    every entry of the stream and the consumer has nothing pending, a
    message enqueued by the producer of the same stream is what the next
    [Consume] returns: the job message as it was enqueued, under the id
    Redis gave the entry; the entry is then pending for the consumer. *)
Theorem enqueue_then_consume (p : queue.Producer) (c : queue.Consumer) (w : World)
    (g : redis.GroupState) (msg : JobMessage) :
  queue.p_streamName p = queue.streamName c →
  redis.groups (queue w) !! (queue.streamName c, queue.consumerGroup c) = Some g →
  redis.delivered g = length (redis.entries (queue w) (queue.streamName c)) →
  nothing_pending g (queue.consumerName c) →
  redis_reliable w →
  let id := pretty (S (redis.delivered g)) +:+ "-0" in
  let '(err, w1) := queue.Enqueue p msg w in
  let '(res, w2) := queue.Consume c w1 in
  err = None
  ∧ res = (Some {| queue.MessageID := id; queue.Job := msg;
                   queue.Data := Encodes msg |}, None)
  ∧ redis.groups (queue w2) !! (queue.streamName c, queue.consumerGroup c) =
      Some {| redis.delivered := S (redis.delivered g);
              redis.pending := redis.pending g ++ [(id, queue.consumerName c)] |}.
Proof.
  intros Hname Hg Hdel Hnone Hrel. simpl.
  destruct (next_fault_reliable _ Hrel) as [Hup1 Hrel1].
  destruct (next_fault_reliable _ Hrel1) as [Hup2 Hrel2].
  destruct (next_fault_reliable _ Hrel2) as [Hup3 _].
  pose proof (Enqueue_effect p msg w Hup1) as He. simpl in He.
  destruct (queue.Enqueue p msg w) as [err w1].
  destruct He as (-> & Hs & Hgs & Hf & _).
  rewrite Hname in Hs.
  set (es := redis.entries (queue w) (queue.streamName c)) in *.
  set (m := {| redis.XID := pretty (S (length es)) +:+ "-0";
               redis.Values := [("data", Encodes msg)] |}) in *.
  assert (Hes1 : redis.entries (queue w1) (queue.streamName c) = es ++ [m]).
  { unfold redis.entries at 1. by rewrite Hs, lookup_insert_eq. }
  pose proof (Consume_fresh c w1 g m []) as Hc.
  destruct (queue.Consume c w1) as [res w2].
  destruct Hc as (-> & _ & Hgs2 & _).
  - by rewrite Hgs.
  - by apply pending_of_nothing.
  - rewrite Hes1, Hdel. rewrite drop_app_length. done.
  - by rewrite Hf.
  - by rewrite Hf.
  - split; [done|]. split.
    + unfold queue.parseMessage, m. simpl. by rewrite Hdel.
    + rewrite Hgs2, lookup_insert_eq. unfold m. simpl. by rewrite Hdel.
Qed.

(** X10 (witness): the first job of a fresh system. *)
Lemma enqueue_then_consume_witness :
  let p := api.producer sample_handlers in
  let c := sample_consumer in
  let w := fresh_system in
  let g := {| redis.delivered := 0; redis.pending := [] |} in
  let msg := sample_message 7%N in
  let id := pretty (S (redis.delivered g)) +:+ "-0" in
  let '(err, w1) := queue.Enqueue p msg w in
  let '(res, w2) := queue.Consume c w1 in
  err = None
  ∧ res = (Some {| queue.MessageID := id; queue.Job := msg;
                   queue.Data := Encodes msg |}, None)
  ∧ redis.groups (queue w2) !! (queue.streamName c, queue.consumerGroup c) =
      Some {| redis.delivered := S (redis.delivered g);
              redis.pending := redis.pending g ++ [(id, queue.consumerName c)] |}.
Proof.
  apply (enqueue_then_consume (api.producer sample_handlers) sample_consumer
           fresh_system {| redis.delivered := 0; redis.pending := [] |}
           (sample_message 7%N)).
  - reflexivity.
  - reflexivity.
  - reflexivity.
  - constructor.
  - constructor.
Defined.

(** One iteration of the worker whose consumer is stuck on a pending
    entry that does not parse. *)
Lemma run_iteration_poisoned (wk : worker.Worker) (w : World) (g : redis.GroupState)
    (m : redis.XMessage) (ms : list redis.XMessage) (e : string) :
  let c := worker.consumer wk in
  redis.groups (queue w) !! (queue.streamName c, queue.consumerGroup c) = Some g →
  redis.pending_of (redis.entries (queue w) (queue.streamName c)) g
    (queue.consumerName c) = m :: ms →
  queue.parseMessage m = (None, Some e) →
  redis_reliable w →
  let w' := (worker.run_iteration wk w).2 in
  queue w' = queue w ∧ jobs w' = jobs w ∧ bucket w' = bucket w
  ∧ redis_reliable w'
  ∧ trace w' = trace w ++ [CallXReadGroup (queue.pending_args c)]
  ∧ log w' = log w ++ [(ERROR, "failed to consume message")].
Proof.
  intros c Hg Hmine Hparse Hrel.
  destruct (next_fault_reliable _ Hrel) as [Hup Hrel1].
  pose proof (Consume_pending c w g m ms Hg Hmine Hup) as H.
  unfold worker.run_iteration, bind. fold c.
  destruct (queue.Consume c w) as [res w1].
  destruct H as (-> & Hq & Hf & Hj & Hb & Hl & _ & _ & _ & Htr).
  rewrite Hparse. simpl. unfold redis_reliable. simpl.
  rewrite Hq, Hj, Hb, Hf, Htr, Hl. done.
Qed.

(** X11.  A pending entry that does not parse blocks its consumer.  When
    the oldest entry pending for the worker's consumer has no [data] field
    or does not decode, [Consume] returns the parse error without
    acknowledging the entry, so every later iteration of the worker's loop
    reads the same entry again: after any number of iterations the queue,
    the table and the bucket are as before, every call made was the read
    of the pending entries, and the entries behind it in the stream are
    never read by this worker. *)
Theorem poison_message_blocks_consumer (wk : worker.Worker) (w : World)
    (g : redis.GroupState) (m : redis.XMessage) (ms : list redis.XMessage)
    (e : string) (n : nat) :
  let c := worker.consumer wk in
  redis.groups (queue w) !! (queue.streamName c, queue.consumerGroup c) = Some g →
  redis.pending_of (redis.entries (queue w) (queue.streamName c)) g
    (queue.consumerName c) = m :: ms →
  queue.parseMessage m = (None, Some e) →
  redis_reliable w →
  let w' := (run_iterations wk n w).2 in
  queue w' = queue w
  ∧ jobs w' = jobs w
  ∧ bucket w' = bucket w
  ∧ trace w' = trace w ++ replicate n (CallXReadGroup (queue.pending_args c)).
Proof.
  intros c Hg Hmine Hparse. revert w Hg Hmine.
  induction n as [|n IH]; intros w Hg Hmine Hrel; simpl.
  { unfold ret. simpl. by rewrite app_nil_r. }
  unfold bind.
  pose proof (run_iteration_poisoned wk w g m ms e Hg Hmine Hparse Hrel) as H.
  simpl in H.
  destruct (worker.run_iteration wk w) as [[] w1]. simpl in H.
  destruct H as (Hq & Hj & Hb & Hrel1 & Htr & _).
  specialize (IH w1). rewrite Hq in IH. specialize (IH Hg Hmine Hrel1).
  simpl in IH. destruct IH as (Hq' & Hj' & Hb' & Htr').
  rewrite Hq', Hj', Hb', Htr', Htr, Hj, Hb, <- app_assoc. done.
Qed.

(** X11 (witness): the second entry of the stream is malformed and was
    delivered to the sample worker; five iterations later nothing has
    moved. *)
Lemma poison_message_blocks_consumer_witness :
  let wk := sample_worker in
  let w := queue_world poisoned_queue [] in
  let c := worker.consumer wk in
  let w' := (run_iterations wk 5 w).2 in
  queue w' = queue w
  ∧ jobs w' = jobs w
  ∧ bucket w' = bucket w
  ∧ trace w' = trace w ++ replicate 5 (CallXReadGroup (queue.pending_args c)).
Proof.
  apply (poison_message_blocks_consumer sample_worker
           (queue_world poisoned_queue [])
           {| redis.delivered := 2;
              redis.pending := [("2-0", "worker-1a2b3c4d")] |}
           {| redis.XID := "2-0";
              redis.Values := [("data", Malformed "{" "unexpected end of JSON input")] |}
           [] "failed to unmarshal job message: unexpected end of JSON input" 5).
  - reflexivity.
  - reflexivity.
  - reflexivity.
  - constructor.
Defined.

Ltac run_stats :=
  repeat first
    [ progress unfold queuestats.EnsureGroup, queuestats.XGroupCreateMkStream,
        queuestats.GetStats, queuestats.XLen, queuestats.XPending,
        redis_fault, set_queue
    | progress run ].

(** What [EnsureGroup] does under a Redis that carries the command out. *)
Lemma EnsureGroup_effect (c : queue.Consumer) (w : World) :
  (next_fault (redis_faults w)).1 = None →
  let key := (queue.streamName c, queue.consumerGroup c) in
  let '(err, w') := queuestats.EnsureGroup c w in
  err = None
  ∧ redis.entries (queue w') (queue.streamName c) =
      redis.entries (queue w) (queue.streamName c)
  ∧ (∀ k, k ≠ key → redis.groups (queue w') !! k = redis.groups (queue w) !! k)
  ∧ redis_faults w' = (next_fault (redis_faults w)).2
  ∧ jobs w' = jobs w ∧ bucket w' = bucket w
  ∧ match redis.groups (queue w) !! key with
    | Some g => queue w' = queue w
    | None =>
        redis.groups (queue w') !! key =
          Some {| redis.delivered := 0; redis.pending := [] |}
    end.
Proof.
  intros Hup. run_stats.
  destruct (next_fault (redis_faults w)) as [f rest]; simpl in Hup; subst f.
  run_stats. unfold rediscmd.xgroup_create_mkstream.
  destruct (redis.groups (queue w) !! (queue.streamName c, queue.consumerGroup c))
    as [g|] eqn:Hg; run_stats.
  - by destruct (queue w).
  - repeat split; try done.
    + unfold redis.entries at 1. simpl. by rewrite lookup_insert_eq.
    + intros k Hk. by rewrite lookup_insert_ne.
    + by rewrite lookup_insert_eq.
Qed.

(** X12.  [EnsureGroup] is idempotent.  Under a Redis that carries the
    command out it returns no error whether or not the group exists; it
    never changes the entries of the stream; an existing group is left
    exactly as it is (its position and its pending entries are kept: the
    BUSYGROUP reply is ignored), and a missing group is created at the
    start of the stream.  Calling it a second time changes nothing. *)
Theorem ensure_group_idempotent (c : queue.Consumer) (w : World) :
  redis_reliable w →
  let key := (queue.streamName c, queue.consumerGroup c) in
  let '(err, w1) := queuestats.EnsureGroup c w in
  let '(err2, w2) := queuestats.EnsureGroup c w1 in
  err = None ∧ err2 = None
  ∧ queue w2 = queue w1
  ∧ redis.entries (queue w1) (queue.streamName c) =
      redis.entries (queue w) (queue.streamName c)
  ∧ (∀ k, k ≠ key → redis.groups (queue w1) !! k = redis.groups (queue w) !! k)
  ∧ redis.groups (queue w1) !! key =
      Some (default {| redis.delivered := 0; redis.pending := [] |}
              (redis.groups (queue w) !! key)).
Proof.
  intros Hrel. simpl.
  destruct (next_fault_reliable _ Hrel) as [Hup1 Hrel1].
  destruct (next_fault_reliable _ Hrel1) as [Hup2 _].
  pose proof (EnsureGroup_effect c w Hup1) as H1. simpl in H1.
  destruct (queuestats.EnsureGroup c w) as [err w1].
  destruct H1 as (-> & Hes & Hothers & Hf & _ & _ & Hkey).
  rewrite <- Hf in Hup2.
  pose proof (EnsureGroup_effect c w1 Hup2) as H2. simpl in H2.
  destruct (queuestats.EnsureGroup c w1) as [err2 w2].
  destruct H2 as (-> & _ & _ & _ & _ & _ & Hkey2).
  assert (Hg1 : redis.groups (queue w1) !! (queue.streamName c, queue.consumerGroup c) =
                Some (default {| redis.delivered := 0; redis.pending := [] |}
                        (redis.groups (queue w)
                           !! (queue.streamName c, queue.consumerGroup c)))).
  { destruct (redis.groups (queue w) !! (queue.streamName c, queue.consumerGroup c))
      as [g|] eqn:Hg; simpl; [by rewrite Hkey|done]. }
  rewrite Hg1 in Hkey2. done.
Qed.

(** X12 (witness): a fresh Redis. *)
Lemma ensure_group_idempotent_witness :
  let c := sample_consumer in
  let w := quiet_world 5000 ∅ in
  let key := (queue.streamName c, queue.consumerGroup c) in
  let '(err, w1) := queuestats.EnsureGroup c w in
  let '(err2, w2) := queuestats.EnsureGroup c w1 in
  err = None ∧ err2 = None
  ∧ queue w2 = queue w1
  ∧ redis.entries (queue w1) (queue.streamName c) =
      redis.entries (queue w) (queue.streamName c)
  ∧ (∀ k, k ≠ key → redis.groups (queue w1) !! k = redis.groups (queue w) !! k)
  ∧ redis.groups (queue w1) !! key =
      Some (default {| redis.delivered := 0; redis.pending := [] |}
              (redis.groups (queue w) !! key)).
Proof.
  apply (ensure_group_idempotent sample_consumer (quiet_world 5000 ∅)).
  constructor.
Defined.

(** X13.  Jobs accepted before the first worker started are not lost: the
    group is created at the start of the stream ("0"), so when
    [EnsureGroup] creates the group of a stream that already holds
    entries, the first [Consume] returns the oldest entry of the
    stream. *)
Theorem ensure_group_delivers_backlog (c : queue.Consumer) (w : World)
    (m : redis.XMessage) (ms : list redis.XMessage) :
  redis.groups (queue w) !! (queue.streamName c, queue.consumerGroup c) = None →
  redis.entries (queue w) (queue.streamName c) = m :: ms →
  redis_reliable w →
  let '(err, w1) := queuestats.EnsureGroup c w in
  let '(res, w2) := queue.Consume c w1 in
  err = None
  ∧ res = queue.parseMessage m
  ∧ redis.groups (queue w2) !! (queue.streamName c, queue.consumerGroup c) =
      Some {| redis.delivered := 1;
              redis.pending := [(redis.XID m, queue.consumerName c)] |}.
Proof.
  intros Hg Hes Hrel.
  destruct (next_fault_reliable _ Hrel) as [Hup1 Hrel1].
  destruct (next_fault_reliable _ Hrel1) as [Hup2 Hrel2].
  destruct (next_fault_reliable _ Hrel2) as [Hup3 _].
  pose proof (EnsureGroup_effect c w Hup1) as H1. simpl in H1.
  destruct (queuestats.EnsureGroup c w) as [err w1].
  destruct H1 as (-> & Hes1 & _ & Hf & _ & _ & Hkey). rewrite Hg in Hkey.
  pose proof (Consume_fresh c w1 {| redis.delivered := 0; redis.pending := [] |}
                m ms Hkey) as Hc.
  destruct (queue.Consume c w1) as [res w2].
  destruct Hc as (-> & _ & Hgs & _).
  - done.
  - by rewrite Hes1, Hes.
  - by rewrite Hf.
  - by rewrite Hf.
  - split; [done|]. split; [done|]. by rewrite Hgs, lookup_insert_eq.
Qed.

(** X13 (witness): two jobs were enqueued before any worker ran. *)
Lemma ensure_group_delivers_backlog_witness :
  let c := sample_consumer in
  let w := queue_world {| redis.streams := redis.streams sample_queue;
                          redis.groups := ∅ |} [] in
  let m := {| redis.XID := "1-0";
              redis.Values := [("data", Encodes (sample_message 7%N))] |} in
  let '(err, w1) := queuestats.EnsureGroup c w in
  let '(res, w2) := queue.Consume c w1 in
  err = None
  ∧ res = queue.parseMessage m
  ∧ redis.groups (queue w2) !! (queue.streamName c, queue.consumerGroup c) =
      Some {| redis.delivered := 1;
              redis.pending := [(redis.XID m, queue.consumerName c)] |}.
Proof.
  apply (ensure_group_delivers_backlog sample_consumer
           (queue_world {| redis.streams := redis.streams sample_queue;
                           redis.groups := ∅ |} [])
           {| redis.XID := "1-0";
              redis.Values := [("data", Encodes (sample_message 7%N))] |}
           [{| redis.XID := "2-0";
               redis.Values := [("data", Encodes (sample_message 8%N))] |}]).
  - reflexivity.
  - reflexivity.
  - constructor.
Defined.

Lemma remove_dups_length {A} `{EqDecision A} (l : list A) :
  (length (remove_dups l) ≤ length l)%nat.
Proof.
  induction l as [|x l IH]; simpl; [done|].
  destruct (decide_rel elem_of x l); simpl; lia.
Qed.

(** X14.  [GetStats] fails only when XLEN fails; a failure of XPENDING (a
    transport error, or a group that does not exist) is reported as no
    pending message and no consumer.  The stream length is the number of
    entries of the stream, acknowledged or not.  The consumer count is the
    number of consumers that have a pending entry, so it never exceeds the
    number of pending messages and is zero when nothing is pending,
    however many workers read from the group.  The call changes nothing
    in Redis. *)
Theorem get_stats_counts (p : queue.Producer) (group : string) (w : World) :
  let stream := queue.p_streamName p in
  let '(res, w') := queuestats.GetStats p group w in
  queue w' = queue w
  ∧ match (next_fault (redis_faults w)).1 with
    | Some e => res = (None, Some ("failed to get stream length: " +:+ e))
    | None =>
        ∃ stats,
          res = (Some stats, None)
          ∧ queuestats.StreamLength stats =
              Z.of_nat (length (redis.entries (queue w) stream))
          ∧ 0 ≤ queuestats.ConsumerCount stats ≤ queuestats.PendingMessages stats
          ∧ match (next_fault (next_fault (redis_faults w)).2).1,
                  redis.groups (queue w) !! (stream, group) with
            | None, Some g =>
                queuestats.PendingMessages stats = Z.of_nat (length (redis.pending g))
                ∧ queuestats.ConsumerCount stats =
                    Z.of_nat (length (remove_dups (redis.pending g).*2))
            | _, _ =>
                queuestats.PendingMessages stats = 0
                ∧ queuestats.ConsumerCount stats = 0
            end
    end.
Proof.
  simpl. run_stats.
  destruct (next_fault (redis_faults w)) as [[e|] rest]; run_stats; [done|].
  destruct (next_fault rest) as [[e|] rest2]; run_stats.
  { split; [done|]. eexists. split; [done|]. simpl. by repeat split. }
  unfold rediscmd.xpending, rediscmd.xlen.
  destruct (redis.groups (queue w) !! (queue.p_streamName p, group)) as [g|];
    run_stats.
  - split; [done|]. eexists. split; [done|]. simpl.
    rewrite length_fmap. split; [done|]. split; [|done].
    split; [lia|]. pose proof (remove_dups_length (redis.pending g).*2) as Hl.
    rewrite length_fmap in Hl. lia.
  - split; [done|]. eexists. split; [done|]. simpl. by repeat split.
Qed.

(** ** The repository *)

(** X15.  [Create] followed by [GetByID].  Under a database that carries
    out its calls, a job whose id is not in the table is inserted and read
    back with the columns of the INSERT as given (id, status, keys and
    names of the upload, size, operations, user, creation and update
    times); every other field of the job read back has its column default,
    whatever the job passed to [Create] held: no processed key, error or
    worker, progress 0, no start, completion or deletion time.  A job whose
    id is taken is refused and the table is unchanged. *)
Theorem create_then_get_by_id (job : Job) (w : World) :
  db_reliable w →
  let '(c, w1) := database.Create job w in
  let '(g, w2) := database.GetByID (ID job) w1 in
  match jobs w !! ID job with
  | Some _ =>
      c.2 = Some "failed to create job: pq: duplicate key value violates unique constraint jobs_pkey"
      ∧ jobs w1 = jobs w
  | None =>
      c.2 = None
      ∧ jobs w2 = <[ID job := inserted_row (MarshalOperations job).1]> (jobs w)
      ∧ ∃ j, g = (Some j, None)
          ∧ ID j = ID job ∧ Status j = Status job
          ∧ OriginalKey j = OriginalKey job ∧ OriginalName j = OriginalName job
          ∧ ContentType j = ContentType job ∧ FileSize j = FileSize job
          ∧ Operations j = Operations job ∧ UserID j = UserID job
          ∧ CreatedAt j = CreatedAt job ∧ UpdatedAt j = UpdatedAt job
          ∧ ProcessedKey j = "" ∧ Error j = "" ∧ WorkerID j = ""
          ∧ Progress j = 0
          ∧ StartedAt j = None ∧ CompletedAt j = None
          ∧ ProcessingTime j = None ∧ DeleteAt j = None
  end.
Proof.
  intros Hdb. unfold db_reliable in Hdb.
  destruct (next_fault_reliable _ Hdb) as [Hf1 Hdb1].
  destruct (next_fault_reliable _ Hdb1) as [Hf2 _].
  unfold MarshalOperations. run.
  destruct (next_fault (db_faults w)) as [f1 rest1]; simpl in *; subst f1.
  run. destruct (jobs w !! ID job) as [r|] eqn:Hr; run.
  - destruct (next_fault rest1) as [f2 rest2]; simpl in *; subst f2.
    run. rewrite Hr. run.
    destruct (UnmarshalOperations (database.scan (ID job, r))) as [j [e|]]; run; done.
  - destruct (next_fault rest1) as [f2 rest2]; simpl in *; subst f2.
    run. rewrite lookup_insert_eq. run.
    split; [done|]. split; [done|]. eexists. split; [reflexivity|].
    simpl. repeat split; reflexivity.
Qed.

(** X15 (witness): a new job in an empty table. *)
Lemma create_then_get_by_id_witness :
  let job := NewJob 5000 7%N "users/u/original/j/photo.jpg" "photo.jpg"
               "image/jpeg" 2048 [resize_800] in
  let w := quiet_world 5000 ∅ in
  let '(c, w1) := database.Create job w in
  let '(g, w2) := database.GetByID (ID job) w1 in
  match jobs w !! ID job with
  | Some _ =>
      c.2 = Some "failed to create job: pq: duplicate key value violates unique constraint jobs_pkey"
      ∧ jobs w1 = jobs w
  | None =>
      c.2 = None
      ∧ jobs w2 = <[ID job := inserted_row (MarshalOperations job).1]> (jobs w)
      ∧ ∃ j, g = (Some j, None)
          ∧ ID j = ID job ∧ Status j = Status job
          ∧ OriginalKey j = OriginalKey job ∧ OriginalName j = OriginalName job
          ∧ ContentType j = ContentType job ∧ FileSize j = FileSize job
          ∧ Operations j = Operations job ∧ UserID j = UserID job
          ∧ CreatedAt j = CreatedAt job ∧ UpdatedAt j = UpdatedAt job
          ∧ ProcessedKey j = "" ∧ Error j = "" ∧ WorkerID j = ""
          ∧ Progress j = 0
          ∧ StartedAt j = None ∧ CompletedAt j = None
          ∧ ProcessingTime j = None ∧ DeleteAt j = None
  end.
Proof.
  apply (create_then_get_by_id
           (NewJob 5000 7%N "users/u/original/j/photo.jpg" "photo.jpg"
              "image/jpeg" 2048 [resize_800])
           (quiet_world 5000 ∅)).
  constructor.
Defined.

(** X16.  The writes keyed on a job id, when no row has that id and the
    database carries the statement out: [UpdateStatus] and [DeleteJob]
    look at the number of rows affected and return "job not found";
    [UpdateProgress] and [FailJob] do not, and return no error.  None of
    them changes the table. *)
Theorem writes_on_missing_row (id : UUID) (st : JobStatus) (p : Z) (msg : string)
    (w : World) :
  jobs w !! id = None →
  db_up w →
  (database.UpdateStatus id st w).1 = Some "job not found"
  ∧ (database.DeleteJob id w).1 = Some "job not found"
  ∧ (database.UpdateProgress id p w).1 = None
  ∧ (database.FailJob id msg w).1 = None
  ∧ jobs (database.UpdateStatus id st w).2 = jobs w
  ∧ jobs (database.DeleteJob id w).2 = jobs w
  ∧ jobs (database.UpdateProgress id p w).2 = jobs w
  ∧ jobs (database.FailJob id msg w).2 = jobs w.
Proof.
  intros Hr Hup. unfold db_up in Hup. run.
  destruct (next_fault (db_faults w)) as [f rest]; simpl in Hup; subst f.
  run. rewrite Hr. run. done.
Qed.

(** X16 (witness): an empty table. *)
Lemma writes_on_missing_row_witness :
  let w := quiet_world 5000 ∅ in
  (database.UpdateStatus 7%N JobStatusQueued w).1 = Some "job not found"
  ∧ (database.FailJob 7%N "failed to process image" w).1 = None.
Proof.
  intros w.
  pose proof (writes_on_missing_row 7%N JobStatusQueued 50
                "failed to process image" w eq_refl eq_refl)
    as (H1 & _ & _ & H2 & _).
  split; [exact H1|exact H2].
Defined.

(** X17.  [UpdateStatus] on a row that exists, under a database that
    carries the statement out: the status is overwritten whatever it was
    (no transition is refused: a terminal status can be replaced, and any
    string can be written); the other columns but [updated_at] are kept
    and the other rows are untouched. *)
Theorem update_status_unconditional (id : UUID) (st : JobStatus) (w : World) (r : Row) :
  jobs w !! id = Some r →
  db_up w →
  let '(err, w') := database.UpdateStatus id st w in
  err = None
  ∧ (∀ id', id' ≠ id → jobs w' !! id' = jobs w !! id')
  ∧ ∃ r', jobs w' !! id = Some r'
      ∧ status r' = st
      ∧ updated_at r' = clock w
      ∧ progress r' = progress r
      ∧ processed_key r' = processed_key r
      ∧ error_col r' = error_col r
      ∧ worker_id r' = worker_id r
      ∧ started_at r' = started_at r
      ∧ completed_at r' = completed_at r
      ∧ delete_at r' = delete_at r.
Proof.
  intros Hr Hup. unfold db_up in Hup. run.
  destruct (next_fault (db_faults w)) as [f rest]; simpl in Hup; subst f.
  run. rewrite Hr. run.
  split; [done|]. split; [intros id' Hne; by rewrite lookup_insert_ne|].
  eexists. rewrite lookup_insert_eq. split; [done|]. by destruct r.
Qed.

(** X17 (witness): a completed job is put back to PENDING. *)
Lemma update_status_unconditional_witness :
  let w := quiet_world 5000 {[ 7%N := sample_row JobStatusCompleted ]} in
  let r := sample_row JobStatusCompleted in
  let '(err, w') := database.UpdateStatus 7%N JobStatusPending w in
  err = None
  ∧ (∀ id', id' ≠ 7%N → jobs w' !! id' = jobs w !! id')
  ∧ ∃ r', jobs w' !! 7%N = Some r'
      ∧ status r' = JobStatusPending
      ∧ updated_at r' = clock w
      ∧ progress r' = progress r
      ∧ processed_key r' = processed_key r
      ∧ error_col r' = error_col r
      ∧ worker_id r' = worker_id r
      ∧ started_at r' = started_at r
      ∧ completed_at r' = completed_at r
      ∧ delete_at r' = delete_at r.
Proof.
  apply (update_status_unconditional 7%N JobStatusPending
           (quiet_world 5000 {[ 7%N := sample_row JobStatusCompleted ]})
           (sample_row JobStatusCompleted)).
  - reflexivity.
  - reflexivity.
Defined.

(** ** The handlers that only read *)

Ltac run_handlers :=
  repeat first
    [ progress unfold handlers.GetImage, handlers.Health,
        handlers.ListJobs, jobrepo.Health, storage_Health, jobrepo.List,
        storage.Download, storage_fault,
        api.writeError, api.writeJSON
    | progress run_stats ].

(** X18.  [Health] makes its three checks whatever the outcome of the
    earlier ones, and answers 200 "healthy" exactly when the ping of the
    database, the bucket check and the XLEN of the stream all succeed;
    otherwise it answers 503 "unhealthy".  The Redis check does not depend
    on the consumer group: a failing XPENDING, or a group that does not
    exist, leaves it healthy.  Nothing is changed in the store, the bucket
    or the queue. *)
Theorem health_status (h : api.Handlers) (w : World) :
  let db := (next_fault (db_faults w)).1 in
  let st := (next_fault (storage_faults w)).1 in
  let rd := (next_fault (redis_faults w)).1 in
  let '(resp, w') := handlers.Health h w in
  handlers.checks resp =
    [("database", db); ("storage", st);
     ("redis", (λ e, "failed to get stream length: " +:+ e) <$> rd)]
  ∧ (db = None ∧ st = None ∧ rd = None →
       handlers.HealthStatusCode resp = 200 ∧ handlers.HealthStatus resp = "healthy")
  ∧ (¬ (db = None ∧ st = None ∧ rd = None) →
       handlers.HealthStatusCode resp = 503 ∧ handlers.HealthStatus resp = "unhealthy")
  ∧ jobs w' = jobs w ∧ bucket w' = bucket w ∧ queue w' = queue w.
Proof.
  simpl. run_handlers.
  destruct (next_fault (db_faults w)) as [[de|] drest]; run_handlers.
  all: destruct (next_fault (storage_faults w)) as [[se|] srest]; run_handlers.
  all: destruct (next_fault (redis_faults w)) as [[re|] rrest]; run_handlers.
  all: try (destruct (next_fault rrest) as [[re2|] rrest2]; run_handlers).
  all: try (unfold rediscmd.xpending;
            destruct (redis.groups (queue w) !! (queue.p_streamName (api.producer h),
                                                 api.groupName h)); run_handlers).
  all: repeat split; try done; intros; destruct_and?; try done; exfalso; tauto.
Qed.

(** What [GetImage] answers for a row that exists, when the database and
    the object store carry out the calls. *)
Lemma GetImage_effect (id : UUID) (original : string) (w : World) (r : Row) :
  jobs w !! id = Some r →
  decodable r →
  db_up w →
  storage_up w →
  let key := served_key r original in
  let '(res, w') := handlers.GetImage (api.ParsesTo id) original w in
  res = inr {| handlers.ImageContentType := content_type r;
               handlers.ImageData :=
                 match bucket w !! key with
                 | Some object => obj_data object
                 | None => ""
                 end |}
  ∧ trace w' = trace w ++ [CallQuery (SELECT_job_WHERE_id id); CallGetObject key]
  ∧ jobs w' = jobs w ∧ bucket w' = bucket w.
Proof.
  intros Hr Hdec Hdb Hst. unfold db_up in Hdb. unfold storage_up in Hst.
  unfold served_key.
  destruct (job_of_row_fields (id, r) Hdec) as (Hun & _ & _ & Hct).
  destruct (job_of_row_keys (id, r)) as [Hok Hpk].
  simpl in Hct, Hok, Hpk.
  run_handlers.
  destruct (next_fault (db_faults w)) as [f rest]; simpl in Hdb; subst f.
  run_handlers. rewrite Hr. run_handlers. rewrite Hun. run_handlers.
  rewrite Hpk, Hok, Hct.
  destruct (next_fault (storage_faults w)) as [f srest]; simpl in Hst; subst f.
  assert (Hkey : (if (String.eqb (default "" (processed_key r)) ""
                      || String.eqb original "true")%bool
                  then original_key r else default "" (processed_key r)) =
                 match processed_key r with
                 | Some k =>
                     if decide (k = "" ∨ original = "true") then original_key r else k
                 | None => original_key r
                 end).
  { destruct (processed_key r) as [k|]; simpl; [|done].
    destruct (String.eqb_spec k ""), (String.eqb_spec original "true");
      simpl; case_decide; try done; exfalso; tauto. }
  rewrite Hkey. run_handlers.
  destruct (bucket w !! _) as [object|]; run_handlers;
    rewrite <- ?app_assoc; done.
Qed.

(** X19.  [GetImage] for a job whose row exists: the object served is the
    processed one as soon as the row has a non-empty processed key, and
    the original one before that, or when the query value [original] is
    exactly "true".  The [Content-Type] header is the [content_type]
    column of the row in both cases.  An object missing from the bucket
    gives the same header with an empty body, not an error response. *)
Theorem get_image_selects_object (id : UUID) (original : string) (w : World) (r : Row) :
  jobs w !! id = Some r →
  decodable r →
  db_up w →
  storage_up w →
  let '(res, w') := handlers.GetImage (api.ParsesTo id) original w in
  ∃ key,
    res = inr {| handlers.ImageContentType := content_type r;
                 handlers.ImageData := default "" (obj_data <$> bucket w !! key) |}
    ∧ trace w' = trace w ++ [CallQuery (SELECT_job_WHERE_id id); CallGetObject key]
    ∧ (original = "true" → key = original_key r)
    ∧ (processed_key r = None ∨ processed_key r = Some "" → key = original_key r)
    ∧ (∀ k, processed_key r = Some k → k ≠ "" → original ≠ "true" → key = k).
Proof.
  intros Hr Hdec Hdb Hst.
  pose proof (GetImage_effect id original w r Hr Hdec Hdb Hst) as H. cbv zeta in H.
  destruct (handlers.GetImage (api.ParsesTo id) original w) as [res w'].
  destruct H as (-> & Htr & _). exists (served_key r original).
  split. { by destruct (bucket w !! served_key r original). }
  split; [done|]. unfold served_key.
  destruct (processed_key r) as [k|]; simpl.
  - case_decide as Hk.
    + split; [done|]. split; [done|]. intros k' [= <-] ? ?. tauto.
    + split; [intros ->; tauto|]. split.
      * intros [?|[= ->]]; [done|tauto].
      * by intros k' [= <-].
  - split; [done|]. split; [done|]. by intros k' ?.
Qed.

(** X19 (witness): a job not yet processed. *)
Lemma get_image_selects_object_witness :
  let id := 7%N in
  let original := "" in
  let w := worker_world [] in
  let r := sample_row JobStatusQueued in
  let '(res, w') := handlers.GetImage (api.ParsesTo id) original w in
  ∃ key,
    res = inr {| handlers.ImageContentType := content_type r;
                 handlers.ImageData := default "" (obj_data <$> bucket w !! key) |}
    ∧ trace w' = trace w ++ [CallQuery (SELECT_job_WHERE_id id); CallGetObject key]
    ∧ (original = "true" → key = original_key r)
    ∧ (processed_key r = None ∨ processed_key r = Some "" → key = original_key r)
    ∧ (∀ k, processed_key r = Some k → k ≠ "" → original ≠ "true" → key = k).
Proof.
  apply (get_image_selects_object 7%N "" (worker_world []) (sample_row JobStatusQueued)).
  - reflexivity.
  - exact I.
  - reflexivity.
  - reflexivity.
Defined.

(** X20.  After a successful [processJob], [GetImage] serves the bytes
    the transformation returned, under the content type of the upload:
    the row's [content_type] column, which [CompleteJob] does not update,
    and not the content type the result was stored with.  With the
    processor of [internal/processor] the stored type is [image/png] or
    [image/jpeg], so for an upload of another accepted type (GIF, or the
    alias [image/jpg]) the header does not name the encoding of the
    bytes. *)
Theorem get_image_after_processing (lib : processor.Imaging) (wk : worker.Worker)
    (msg : queue.Message) (w : World) (r : Row) (result : worker.ProcessResult) :
  worker.Process wk = processor.Process lib →
  jobs w !! JobID (queue.Job msg) = Some r →
  decodable r →
  status r ≠ JobStatusCancelled →
  db_reliable w →
  storage_reliable w →
  worker.Process wk (bucket w !! original_key r) (content_type r)
    (MsgOperations (queue.Job msg)) = (result, None) →
  let id := JobID (queue.Job msg) in
  let key := processed_key_of id (original_name r) in
  let w1 := (worker.processJob wk msg w).2 in
  (handlers.GetImage (api.ParsesTo id) "" w1).1 =
    inr {| handlers.ImageContentType := content_type r;
           handlers.ImageData := worker.ResultData result |}
  ∧ bucket w1 !! key =
      Some {| obj_data := worker.ResultData result;
              obj_content_type := worker.ResultContentType result |}
  ∧ (worker.ResultContentType result = "image/png"
     ∨ worker.ResultContentType result = "image/jpeg").
Proof.
  intros Hlib Hr Hdec Hst Hdb Hsr Hproc. cbv zeta.
  pose proof (processJob_outcome wk msg w r Hr Hdec Hst Hdb) as H. simpl in H.
  destruct (worker.processJob wk msg w) as [err w1]. cbn [snd].
  destruct H as (r' & Hr' & _ & _ & _ & _ & Hct & _ & Hops & _ & _ & _ & Hdb1 & Hsr1 & H).
  destruct (next_fault_reliable _ Hsr) as [Hs1 Hsr'].
  destruct (next_fault_reliable _ Hsr') as [Hs2 _].
  rewrite Hs1, Hproc, Hs2 in H.
  destruct H as (_ & _ & _ & Hpk & _ & _ & Hb).
  assert (Hdec' : decodable r') by (unfold decodable in *; by rewrite Hops).
  destruct (next_fault_reliable _ Hdb1) as [Hup1 _].
  destruct (next_fault_reliable _ (Hsr1 Hsr)) as [Hup2 _].
  pose proof (GetImage_effect (JobID (queue.Job msg)) "" w1 r' Hr' Hdec' Hup1 Hup2) as Hg.
  cbv zeta in Hg.
  destruct (handlers.GetImage (api.ParsesTo (JobID (queue.Job msg))) "" w1) as [res w2].
  destruct Hg as (-> & _). cbn [fst].
  assert (Hkey : served_key r' "" = processed_key_of (JobID (queue.Job msg)) (original_name r)).
  { unfold served_key. rewrite Hpk. rewrite decide_False; [done|].
    intros [Hk|Hk]; [|done]. unfold processed_key_of in Hk. done. }
  rewrite Hkey, Hb, lookup_insert_eq, Hct. split; [done|]. split; [done|].
  rewrite Hlib in Hproc. by eapply Process_png_or_jpeg.
Qed.

(** X20 (witness): the sample job, processed by the toy library. *)
Lemma get_image_after_processing_witness :
  let wk := imaging_worker in
  let msg := sample_delivery in
  let w := worker_world [] in
  let r := sample_row JobStatusQueued in
  let result := {| worker.ResultData := "JFIF photo resized";
                   worker.ResultContentType := "image/jpeg" |} in
  let id := JobID (queue.Job msg) in
  let key := processed_key_of id (original_name r) in
  let w1 := (worker.processJob wk msg w).2 in
  (handlers.GetImage (api.ParsesTo id) "" w1).1 =
    inr {| handlers.ImageContentType := content_type r;
           handlers.ImageData := worker.ResultData result |}
  ∧ bucket w1 !! key =
      Some {| obj_data := worker.ResultData result;
              obj_content_type := worker.ResultContentType result |}
  ∧ (worker.ResultContentType result = "image/png"
     ∨ worker.ResultContentType result = "image/jpeg").
Proof.
  apply (get_image_after_processing sample_imaging imaging_worker sample_delivery
           (worker_world []) (sample_row JobStatusQueued)
           {| worker.ResultData := "JFIF photo resized";
              worker.ResultContentType := "image/jpeg" |}).
  - reflexivity.
  - reflexivity.
  - exact I.
  - discriminate.
  - constructor.
  - constructor.
  - reflexivity.
Defined.

(** ** The listing *)

#[local] Instance by_created_at_desc_total : Total jobrepo.by_created_at_desc.
Proof. intros x y. unfold jobrepo.by_created_at_desc. lia. Qed.

#[local] Instance by_created_at_desc_trans : Transitive jobrepo.by_created_at_desc.
Proof. intros x y z. unfold jobrepo.by_created_at_desc. lia. Qed.

(** What the listing query selects: a window of the rows of the user,
    newest first. *)
Lemma select_jobs_window (userID : UUID) (limit offset : Z) (t : Table) :
  0 ≤ limit →
  0 ≤ offset →
  ∃ rows,
    jobrepo.select_jobs userID limit offset t = inr rows
    ∧ Z.of_nat (length rows) =
        Z.min limit (Z.max 0 (jobrepo.count_jobs userID t - offset))
    ∧ (∀ x, x ∈ rows → t !! x.1 = Some x.2 ∧ user_id x.2 = userID)
    ∧ StronglySorted jobrepo.by_created_at_desc rows.
Proof.
  intros Hlimit Hoffset. unfold jobrepo.select_jobs, jobrepo.count_jobs.
  rewrite decide_False by lia. rewrite decide_False by lia.
  eexists. split; [reflexivity|].
  set (all := merge_sort jobrepo.by_created_at_desc (jobrepo.rows_of userID t)).
  assert (Hperm : all ≡ₚ jobrepo.rows_of userID t) by apply merge_sort_Permutation.
  assert (Hsorted : StronglySorted jobrepo.by_created_at_desc all)
    by (apply StronglySorted_merge_sort; apply _).
  split.
  { rewrite length_take, length_drop, <- Hperm. lia. }
  split.
  { intros [k r] Hx.
    assert (Hin : (k, r) ∈ all).
    { eapply elem_of_sublist; [exact Hx|].
      etrans; [apply sublist_take|apply sublist_drop]. }
    rewrite Hperm in Hin. unfold jobrepo.rows_of in Hin.
    apply list_elem_of_filter in Hin as [Hu Hin].
    split; [by apply elem_of_map_to_list|done]. }
  rewrite <- (take_drop (Z.to_nat offset) all) in Hsorted.
  apply StronglySorted_app_1_r in Hsorted.
  rewrite <- (take_drop (Z.to_nat limit) (drop (Z.to_nat offset) all)) in Hsorted.
  by apply StronglySorted_app_1_l in Hsorted.
Qed.

Lemma job_of_row_owner (x : UUID * Row) :
  UserID (job_of_row x) = user_id x.2 ∧ CreatedAt (job_of_row x) = created_at x.2.
Proof.
  unfold job_of_row, UnmarshalOperations. simpl. by destruct (operations x.2).
Qed.

(** X21.  GET /api/v1/jobs, under a database that carries out its calls
    and rows whose operations decode.  A page below 1 is read as 1, a
    page size outside 1..100 as 20.  The answer is 200 with: the total
    number of jobs of the user of the session (the system user when there
    is none); the number of pages, the least number of pages of that size
    that hold the total; and the jobs of the page, which belong to that
    user, come newest first, and number the page size, or what is left of
    the total behind the pages before (none beyond the last page).  (For
    a page whose offset fits a 64-bit integer.) *)
Theorem list_jobs_pagination (r : handlers.ListJobsRequest) (w : World) :
  let page := Z.max 1 (handlers.page r) in
  let pageSize := if decide (1 ≤ handlers.page_size r ≤ 100)
                  then handlers.page_size r else 20 in
  let user := default 0%N (handlers.list_session r) in
  let total := jobrepo.count_jobs user (jobs w) in
  db_reliable w →
  map_Forall (λ _ row, decodable row) (jobs w) →
  (page - 1) * pageSize ≤ maxInt64 →
  total ≤ maxInt64 - 100 →
  let '(res, w') := handlers.ListJobs r w in
  jobs w' = jobs w
  ∧ ∃ resp,
      res = inr resp
      ∧ handlers.Page resp = page
      ∧ handlers.PageSize resp = pageSize
      ∧ handlers.Total resp = total
      ∧ (handlers.TotalPages resp - 1) * pageSize < total
          ≤ handlers.TotalPages resp * pageSize
      ∧ Z.of_nat (length (handlers.Jobs resp)) =
          Z.min pageSize (Z.max 0 (total - (page - 1) * pageSize))
      ∧ Forall (λ j, UserID j = user) (handlers.Jobs resp)
      ∧ StronglySorted (λ a b, CreatedAt b ≤ CreatedAt a) (handlers.Jobs resp).
Proof.
  intros page pageSize user total Hdb Hdec Hoff Htotal.
  unfold db_reliable in Hdb.
  destruct (next_fault_reliable _ Hdb) as [Hf1 Hdb1].
  destruct (next_fault_reliable _ Hdb1) as [Hf2 _].
  assert (Hps : 1 ≤ pageSize ≤ 100) by (unfold pageSize; case_decide; lia).
  assert (Hpg : 1 ≤ page) by (unfold page; lia).
  assert (Hcount : 0 ≤ total) by (unfold total, jobrepo.count_jobs; lia).
  assert (Hmul : int64_mul (page - 1) pageSize = (page - 1) * pageSize).
  { unfold int64_mul. apply wrap64_small. unfold minInt64, maxInt64 in *. nia. }
  destruct (select_jobs_window user pageSize ((page - 1) * pageSize) (jobs w))
    as (rows & Hsel & Hlen & Hrows & Hsorted); [lia|nia|].
  assert (Hscan : database.scan_all rows = (job_of_row <$> rows, None)).
  { apply scan_all_decodable. intros x Hx. destruct (Hrows x Hx) as [Hl _].
    by eapply Hdec. }
  assert (Hpage : (if decide (handlers.page r < 1) then 1 else handlers.page r) = page).
  { unfold page. case_decide; lia. }
  assert (Hsize : (if decide (handlers.page_size r < 1 ∨ handlers.page_size r > 100)
                   then 20 else handlers.page_size r) = pageSize).
  { unfold pageSize. repeat case_decide; lia. }
  unfold handlers.ListJobs. rewrite Hpage, Hsize.
  replace (match handlers.list_session r with Some u => u | None => 0%N end)
    with user by (unfold user; by destruct (handlers.list_session r)).
  unfold jobrepo.List.
  rewrite (decide_False (P := page < 1)) by lia.
  rewrite (decide_False (P := pageSize < 1)) by lia.
  rewrite Hmul. run.
  destruct (next_fault (db_faults w)) as [f1 rest1]; simpl in Hf1, Hf2; subst f1.
  run. destruct (next_fault rest1) as [f2 rest2]; simpl in Hf2; subst f2.
  run. rewrite Hsel, Hscan. run.
  split; [done|]. eexists. split; [reflexivity|]. simpl.
  fold total.
  assert (Hw : wrap64 (wrap64 (total + pageSize) - 1) = total + pageSize - 1).
  { rewrite (wrap64_small (total + pageSize));
      [apply wrap64_small|]; unfold minInt64, maxInt64 in *; lia. }
  rewrite Hw. split; [done|]. split; [done|]. split; [done|].
  split.
  { rewrite Z.quot_div_nonneg by lia.
    pose proof (Z.div_mod (total + pageSize - 1) pageSize ltac:(lia)) as Hdm.
    pose proof (Z.mod_pos_bound (total + pageSize - 1) pageSize ltac:(lia)) as Hm.
    nia. }
  split; [by rewrite length_fmap|].
  split.
  - apply Forall_fmap, Forall_forall. intros x Hx. simpl.
    destruct (job_of_row_owner x) as [-> _]. by destruct (Hrows x Hx).
  - eapply StronglySorted_fmap; [|exact Hsorted].
    intros x y Hxy. destruct (job_of_row_owner x) as [_ ->].
    destruct (job_of_row_owner y) as [_ ->]. exact Hxy.
Qed.

(** X21 (witness): the first page of a table of one job, asked for with
    no query value. *)
Lemma list_jobs_pagination_witness :
  let r := {| handlers.page := 0; handlers.page_size := 0;
              handlers.list_session := None |} in
  let w := quiet_world 5000 {[ 7%N := sample_row JobStatusQueued ]} in
  let page := Z.max 1 (handlers.page r) in
  let pageSize := if decide (1 ≤ handlers.page_size r ≤ 100)
                  then handlers.page_size r else 20 in
  let user := default 0%N (handlers.list_session r) in
  let total := jobrepo.count_jobs user (jobs w) in
  let '(res, w') := handlers.ListJobs r w in
  jobs w' = jobs w
  ∧ ∃ resp,
      res = inr resp
      ∧ handlers.Page resp = page
      ∧ handlers.PageSize resp = pageSize
      ∧ handlers.Total resp = total
      ∧ (handlers.TotalPages resp - 1) * pageSize < total
          ≤ handlers.TotalPages resp * pageSize
      ∧ Z.of_nat (length (handlers.Jobs resp)) =
          Z.min pageSize (Z.max 0 (total - (page - 1) * pageSize))
      ∧ Forall (λ j, UserID j = user) (handlers.Jobs resp)
      ∧ StronglySorted (λ a b, CreatedAt b ≤ CreatedAt a) (handlers.Jobs resp).
Proof.
  apply (list_jobs_pagination
           {| handlers.page := 0; handlers.page_size := 0;
              handlers.list_session := None |}
           (quiet_world 5000 {[ 7%N := sample_row JobStatusQueued ]})).
  - constructor.
  - apply map_Forall_insert_2; [exact I|]. apply map_Forall_empty.
  - vm_compute. discriminate.
  - vm_compute. discriminate.
Defined.

(** ** The sweeper at rest *)

Lemma filter_none {A} (P : A → Prop) `{∀ x, Decision (P x)} (l : list A) :
  Forall (λ x, ¬ P x) l → filter P l = [].
Proof.
  induction 1 as [|x l Hx _ IH]; [done|].
  by rewrite filter_cons_False.
Qed.

(** X22.  A cleanup cycle over a table in which no row is past its
    [delete_at] (rows never completed have none) reads the table once and
    does nothing else: no object is removed, no row deleted, no error
    returned. *)
Theorem cleanup_nothing_expired (cw : cleanup.Worker) (w : World) :
  db_up w →
  0 ≤ cleanup.batchSize cw →
  (∀ id r, jobs w !! id = Some r → expired (clock w) r = false) →
  let '(err, w') := cleanup.cleanup cw w in
  err = None
  ∧ jobs w' = jobs w
  ∧ bucket w' = bucket w
  ∧ trace w' = trace w ++ [CallQuery (SELECT_jobs_to_cleanup (cleanup.batchSize cw))]
  ∧ log w' = log w ++ [(INFO, "starting cleanup cycle"); (INFO, "no jobs to cleanup")].
Proof.
  intros Hup Hbatch Hnone. unfold db_up in Hup.
  assert (Hrun : run (clock w) (SELECT_jobs_to_cleanup (cleanup.batchSize cw)) (jobs w)
                 = inr []).
  { simpl. rewrite decide_False by lia. rewrite filter_none;
      [change (merge_sort by_delete_at []) with (@nil (UUID * Row)); by rewrite take_nil|].
    apply Forall_forall. intros [k r] Hx Hexp. apply elem_of_map_to_list in Hx.
    simpl in Hexp. by rewrite (Hnone k r Hx) in Hexp. }
  unfold cleanup.cleanup. run.
  destruct (next_fault (db_faults w)) as [f rest]; simpl in Hup; subst f.
  run. simpl in Hrun. rewrite Hrun. run. rewrite <- !app_assoc. done.
Qed.

(** X22 (witness): a failed job, an hour after its failure. *)
Lemma cleanup_nothing_expired_witness :
  let cw := cleanup.NewWorker {| cleanup.Interval := 0; cleanup.BatchSize := 0 |} in
  let w := quiet_world 3600000005000 {[ 7%N := sample_row JobStatusFailed ]} in
  let '(err, w') := cleanup.cleanup cw w in
  err = None
  ∧ jobs w' = jobs w
  ∧ bucket w' = bucket w
  ∧ trace w' = trace w ++ [CallQuery (SELECT_jobs_to_cleanup (cleanup.batchSize cw))]
  ∧ log w' = log w ++ [(INFO, "starting cleanup cycle"); (INFO, "no jobs to cleanup")].
Proof.
  apply (cleanup_nothing_expired
           (cleanup.NewWorker {| cleanup.Interval := 0; cleanup.BatchSize := 0 |})
           (quiet_world 3600000005000 {[ 7%N := sample_row JobStatusFailed ]})).
  - reflexivity.
  - simpl. lia.
  - intros id r Hr. simpl in Hr.
    apply lookup_singleton_Some in Hr as [_ <-]. reflexivity.
Defined.

(** X23.  [NewWorker] replaces a batch size of 0 by 100 but keeps a
    negative one, and a sweeper with a negative batch size never deletes
    anything: the database refuses the negative LIMIT, the cycle returns
    that error, and no object and no row is removed. *)
Theorem cleanup_negative_batch (cfg : cleanup.Config) (w : World) :
  cleanup.BatchSize cfg < 0 →
  db_up w →
  let cw := cleanup.NewWorker cfg in
  let '(err, w') := cleanup.cleanup cw w in
  cleanup.batchSize cw = cleanup.BatchSize cfg
  ∧ err = Some "failed to get jobs to cleanup: pq: LIMIT must not be negative"
  ∧ jobs w' = jobs w
  ∧ bucket w' = bucket w
  ∧ trace w' = trace w ++ [CallQuery (SELECT_jobs_to_cleanup (cleanup.BatchSize cfg))].
Proof.
  intros Hneg Hup. unfold db_up in Hup. simpl.
  rewrite (decide_False (P := cleanup.BatchSize cfg = 0)) by lia.
  unfold cleanup.cleanup. run.
  rewrite (decide_False (P := cleanup.BatchSize cfg = 0)) by lia.
  destruct (next_fault (db_faults w)) as [f rest]; simpl in Hup; subst f.
  run. rewrite decide_True by lia. run. done.
Qed.

(** X23 (witness): a batch size of -1 over the table of the sweeper's
    sample world. *)
Lemma cleanup_negative_batch_witness :
  let cfg := {| cleanup.Interval := 0; cleanup.BatchSize := -1 |} in
  let w := sweep_world in
  let cw := cleanup.NewWorker cfg in
  let '(err, w') := cleanup.cleanup cw w in
  cleanup.batchSize cw = cleanup.BatchSize cfg
  ∧ err = Some "failed to get jobs to cleanup: pq: LIMIT must not be negative"
  ∧ jobs w' = jobs w
  ∧ bucket w' = bucket w
  ∧ trace w' = trace w ++ [CallQuery (SELECT_jobs_to_cleanup (cleanup.BatchSize cfg))].
Proof.
  apply (cleanup_negative_batch {| cleanup.Interval := 0; cleanup.BatchSize := -1 |}
           sweep_world).
  - reflexivity.
  - reflexivity.
Defined.

(** ** Cancellation and the worker *)

(** X24.  A job cancelled through the API before a worker came to it is
    dropped by the worker: DELETE answers 200 with status "canceled", and
    [processJob] on the message of that job then returns no error, reads
    the row and executes no statement, so the row stays CANCELLED and the
    bucket is not touched. *)
Theorem cancel_then_worker_drops (wk : worker.Worker) (msg : queue.Message)
    (w : World) (r : Row) :
  jobs w !! JobID (queue.Job msg) = Some r →
  status r = JobStatusPending ∨ status r = JobStatusQueued →
  decodable r →
  db_reliable w →
  let id := JobID (queue.Job msg) in
  let '(resp, w1) := api.CancelJob (api.ParsesTo id) w in
  let '(err, w2) := worker.processJob wk msg w1 in
  resp = {| api.StatusCode := 200;
            api.ResponseBody := api.JSONMap [("status", "canceled")] |}
  ∧ err = None
  ∧ status <$> jobs w2 !! id = Some JobStatusCancelled
  ∧ jobs w2 = jobs w1
  ∧ bucket w2 = bucket w
  ∧ trace w2 = trace w ++
      [CallExec (UPDATE_jobs [SetStatus JobStatusCancelled] id
                   (Some [JobStatusPending; JobStatusQueued]));
       CallQuery (SELECT_job_WHERE_id id)].
Proof.
  intros Hr Hst Hdec Hdb. unfold db_reliable in Hdb.
  destruct (next_fault_reliable _ Hdb) as [Hf1 Hdb1].
  destruct (next_fault_reliable _ Hdb1) as [Hf2 _].
  assert (Hin : bool_decide (status r ∈ [JobStatusPending; JobStatusQueued]) = true).
  { apply bool_decide_eq_true. destruct Hst as [-> | ->]; [by left|right; by left]. }
  unfold decodable in Hdec. simpl. run_api. run_worker.
  destruct (next_fault (db_faults w)) as [f1 rest1]; simpl in *; subst f1.
  run_api. run_worker. rewrite Hr. run_api. run_worker. rewrite Hin. run_api. run_worker.
  destruct (next_fault rest1) as [f2 rest2]; simpl in *; subst f2.
  run_api. run_worker. rewrite lookup_insert_eq. run_api. run_worker.
  unfold UnmarshalOperations. simpl.
  destruct r as [st ok pk on ct fs ops er pr wi ui ca ua sa co pt da]; simpl in *.
  destruct ops as [|ops|raw e]; [| |done]; run_worker;
    rewrite lookup_insert_eq, <- ?app_assoc; done.
Qed.

(** X24 (witness): the sample job, queued. *)
Lemma cancel_then_worker_drops_witness :
  let wk := imaging_worker in
  let msg := sample_delivery in
  let w := worker_world [] in
  let id := JobID (queue.Job msg) in
  let '(resp, w1) := api.CancelJob (api.ParsesTo id) w in
  let '(err, w2) := worker.processJob wk msg w1 in
  resp = {| api.StatusCode := 200;
            api.ResponseBody := api.JSONMap [("status", "canceled")] |}
  ∧ err = None
  ∧ status <$> jobs w2 !! id = Some JobStatusCancelled
  ∧ jobs w2 = jobs w1
  ∧ bucket w2 = bucket w
  ∧ trace w2 = trace w ++
      [CallExec (UPDATE_jobs [SetStatus JobStatusCancelled] id
                   (Some [JobStatusPending; JobStatusQueued]));
       CallQuery (SELECT_job_WHERE_id id)].
Proof.
  apply (cancel_then_worker_drops imaging_worker sample_delivery (worker_world [])
           (sample_row JobStatusQueued)).
  - reflexivity.
  - by right.
  - exact I.
  - constructor.
Defined.

(** ** The status stream *)

(** What [GetByID] returns: the job of the row, or an error. *)
Lemma GetByID_job (id : UUID) (w : World) :
  let '(res, w') := database.GetByID id w in
  jobs w' = jobs w
  ∧ db_faults w' = (next_fault (db_faults w)).2
  ∧ (∀ j, res.1 = Some j → res.2 = None ∧ ID j = id)
  ∧ (res.1 = None → res.2 ≠ None)
  ∧ (∀ r, jobs w !! id = Some r → decodable r → db_up w →
          res = (Some (job_of_row (id, r)), None)).
Proof.
  unfold db_up, decodable, job_of_row. run.
  destruct (next_fault (db_faults w)) as [[e|] rest]; run.
  { repeat split; done. }
  destruct (jobs w !! id) as [r|] eqn:Hr; run.
  2: { repeat split; done. }
  unfold UnmarshalOperations. simpl.
  destruct (operations r) as [|ops|raw e] eqn:Hops; simpl.
  - split; [done|]. split; [done|]. split; [by intros j [= <-]|].
    split; [done|]. intros r0 [= <-] _ _. by rewrite Hops.
  - split; [done|]. split; [done|]. split; [by intros j [= <-]|].
    split; [done|]. intros r0 [= <-] _ _. by rewrite Hops.
  - split; [done|]. split; [done|]. split; [done|]. split; [done|].
    intros r0 [= <-] Hdec. by rewrite Hops in Hdec.
Qed.




(** X26.  A job that is already in a terminal status when the client
    subscribes is sent twice: once as the first frame, and once more at the
    first tick, which is where the handler looks at the status and ends
    the stream.  (For a database that carries out its calls.) *)
Theorem stream_terminal_job_sent_twice (id : UUID) (ticks : nat) (w : World) (r : Row) :
  jobs w !! id = Some r →
  decodable r →
  api.terminal (status r) = true →
  db_reliable w →
  (api.StreamJobStatus (api.ParsesTo id) (S ticks) w).1 =
    inr [job_of_row (id, r); job_of_row (id, r)].
Proof.
  intros Hr Hdec Hterm Hdb. unfold db_reliable in Hdb.
  destruct (next_fault_reliable _ Hdb) as [Hf1 Hdb1].
  destruct (next_fault_reliable _ Hdb1) as [Hf2 _].
  destruct (job_of_row_fields (id, r) Hdec) as (_ & Hst & _).
  simpl in Hst.
  unfold api.StreamJobStatus. unfold bind at 1.
  pose proof (GetByID_job id w) as Hget.
  destruct (database.GetByID id w) as [res w1].
  destruct Hget as (Hj & Hfaults & _ & _ & Hrow).
  rewrite (Hrow r Hr Hdec Hf1). simpl. unfold bind at 1. unfold bind at 1.
  pose proof (GetByID_job id w1) as Hget1.
  destruct (database.GetByID id w1) as [res1 w2].
  destruct Hget1 as (_ & _ & _ & _ & Hrow1).
  rewrite (Hrow1 r); [|by rewrite Hj|done|unfold db_up; by rewrite Hfaults].
  rewrite Hst, Hterm. reflexivity.
Qed.

(** X26 (witness): a completed job watched for three ticks. *)
Lemma stream_terminal_job_sent_twice_witness :
  (api.StreamJobStatus (api.ParsesTo 7%N) 3
     (quiet_world 5000 {[ 7%N := sample_row JobStatusCompleted ]})).1 =
    inr [job_of_row (7%N, sample_row JobStatusCompleted);
         job_of_row (7%N, sample_row JobStatusCompleted)].
Proof.
  apply (stream_terminal_job_sent_twice 7%N 2
           (quiet_world 5000 {[ 7%N := sample_row JobStatusCompleted ]})
           (sample_row JobStatusCompleted)).
  - reflexivity.
  - exact I.
  - reflexivity.
  - constructor.
Defined.

(** ** Sessions *)

(** X27.  A session is valid up to and including its expiry instant.  A
    session created at [now] in a store of lifetime [ttl] is returned by
    [Get] at every instant up to [now + ttl] inclusive and at none after
    it; creating it leaves the other sessions as they were; after
    [Delete] it is gone at once. *)
Theorem session_valid_until_expiry (s : middleware.SessionStore) (now t : Time)
    (sessionID : string) (user : middleware.User) :
  let '(s', (id, err)) := middleware.Create s now (inr sessionID) user in
  id = sessionID ∧ err = None
  ∧ middleware.Get s' t sessionID =
      (if decide (t ≤ now + middleware.ttl s)
       then Some {| middleware.UserID := middleware.ID user;
                    middleware.Email := middleware.UserEmail user;
                    middleware.Username := middleware.UserUsername user;
                    middleware.ExpiresAt := now + middleware.ttl s |}
       else None)
  ∧ (∀ other, other ≠ sessionID →
       middleware.Get s' t other = middleware.Get s t other)
  ∧ middleware.Get (middleware.Delete s' sessionID) t sessionID = None.
Proof.
  simpl. split; [done|]. split; [done|].
  unfold middleware.Get, middleware.Delete, middleware.After, time.Add. simpl.
  rewrite lookup_insert_eq, lookup_delete_eq. simpl.
  split.
  { case_decide; [by rewrite bool_decide_eq_false_2 by lia|].
    by rewrite bool_decide_eq_true_2 by lia. }
  split; [|done]. intros other Hne. by rewrite lookup_insert_ne.
Qed.

(** X28.  The periodic cleanup of the session store cannot be observed
    through [Get]: a tick of [cleanupExpired] removes only sessions that
    [Get] already refuses, so at the instant of the tick and at any later
    one [Get] answers as it would have without the tick. *)
Theorem session_cleanup_unobservable (s : middleware.SessionStore) (tick t : Time)
    (sessionID : string) :
  tick ≤ t →
  middleware.Get (middleware.cleanupExpired s tick) t sessionID =
    middleware.Get s t sessionID.
Proof.
  intros Hle. unfold middleware.Get, middleware.cleanupExpired, middleware.After.
  simpl. rewrite map_lookup_filter.
  destruct (middleware.sessions s !! sessionID) as [x|]; simpl; [|done].
  case_guard as Hg; simpl; [done|].
  apply not_false_is_true in Hg. apply bool_decide_eq_true in Hg.
  by rewrite bool_decide_eq_true_2 by lia.
Qed.

(** X28 (witness): a session of one hour, swept after two. *)
Lemma session_cleanup_unobservable_witness :
  let s := (middleware.Create (middleware.NewSessionStore (1 * time.Hour)) 0
              (inr "c2Vzc2lvbg") {| middleware.ID := 1%N;
                                    middleware.UserEmail := "a@example.org";
                                    middleware.UserUsername := "a" |}).1 in
  middleware.Get (middleware.cleanupExpired s (2 * time.Hour)) (3 * time.Hour)
    "c2Vzc2lvbg" =
  middleware.Get s (3 * time.Hour) "c2Vzc2lvbg".
Proof.
  apply (session_cleanup_unobservable _ (2 * time.Hour) (3 * time.Hour) "c2Vzc2lvbg").
  vm_compute. discriminate.
Defined.

(** ** Accepted uploads *)

Lemma lower_idempotent (c : ascii) : gostrings.lower (gostrings.lower c) = gostrings.lower c.
Proof.
  unfold gostrings.lower.
  destruct ((65 <=? nat_of_ascii c) && (nat_of_ascii c <=? 90))%nat eqn:Hc.
  - apply andb_true_iff in Hc as [Hge Hle].
    apply Nat.leb_le in Hle, Hge.
    rewrite nat_ascii_embedding by lia.
    replace (nat_of_ascii c + 32 <=? 90)%nat with false
      by (symmetry; apply Nat.leb_gt; lia).
    by rewrite andb_false_r.
  - by rewrite Hc.
Qed.

Lemma ToLower_idempotent (s : string) :
  gostrings.ToLower (gostrings.ToLower s) = gostrings.ToLower s.
Proof.
  induction s as [|c s IH]; [done|]. simpl. by rewrite IH, lower_idempotent.
Qed.

(** X29.  The type check of [CreateJob] never looks at the bytes of the
    upload.  An upload is accepted exactly when the [Content-Type] of its
    part is one of image/jpeg, image/jpg, image/png, image/gif (in any
    letter case), or else when its file name ends in .jpg, .jpeg, .png or
    .gif (in any letter case).  In the first case the job keeps the
    header's spelling as its content type; in the second it gets the
    type of the extension. *)
Theorem accepted_upload_types (header : api.FileHeader) :
  let detected := api.detectContentType (api.Filename header) in
  (api.isValidImageType (resolved_content_type header) = true
   ↔ api.isValidImageType (api.HeaderContentType header) = true
     ∨ detected ≠ "application/octet-stream")
  ∧ (api.isValidImageType (api.HeaderContentType header) = true →
       resolved_content_type header = api.HeaderContentType header)
  ∧ (api.isValidImageType (api.HeaderContentType header) = false →
       resolved_content_type header = detected)
  ∧ (detected = "image/jpeg" ∨ detected = "image/png" ∨ detected = "image/gif"
     ∨ detected = "application/octet-stream")
  ∧ (detected ≠ "application/octet-stream"
     ↔ ∃ ext, ext ∈ [".jpg"; ".jpeg"; ".png"; ".gif"]
              ∧ gostrings.HasSuffix (gostrings.ToLower (api.Filename header)) ext = true)
  ∧ api.detectContentType (gostrings.ToLower (api.Filename header)) = detected.
Proof.
  simpl. unfold resolved_content_type.
  pose proof (ToLower_idempotent (api.Filename header)) as Hidem.
  split; [|split; [|split; [|split; [|split]]]].
  - destruct (api.isValidImageType (api.HeaderContentType header)) eqn:Hh.
    + rewrite Hh. split; [by left|done].
    + unfold api.detectContentType.
      repeat match goal with
      | |- context [if ?b then _ else _] => destruct b
      end; split; intros H; try done; try (by right); by destruct H.
  - by intros ->.
  - by intros ->.
  - unfold api.detectContentType.
    repeat match goal with
    | |- context [if ?b then _ else _] => destruct b
    end; tauto.
  - unfold api.detectContentType.
    set (name := gostrings.ToLower (api.Filename header)).
    destruct (gostrings.HasSuffix name ".jpg") eqn:H1;
      destruct (gostrings.HasSuffix name ".jpeg") eqn:H2;
      destruct (gostrings.HasSuffix name ".png") eqn:H3;
      destruct (gostrings.HasSuffix name ".gif") eqn:H4; simpl.
    all: split; [intros Hne|intros (ext & Hin & Hext)]; try done.
    all: try (eexists; split; [|eassumption]; by repeat constructor).
    all: repeat (apply elem_of_cons in Hin as [->|Hin]; [congruence|]).
    all: by apply elem_of_nil in Hin.
  - unfold api.detectContentType. by rewrite Hidem.
Qed.

(** X30.  The parameters of an operation are never validated: a missing
    parameter, or one that is not of the expected JSON type, takes its
    default.  So the job [CreateJob] builds for an upload without
    operations yields a thumbnail of 150 by 150, and a [resize] whose
    width and height are both absent or not numbers (a string "800", say)
    succeeds and returns the image as it was. *)
Theorem parameters_take_defaults (lib : processor.Imaging)
    (nrgba : processor.Image lib) (params : list (string * JSONValue)) :
  (∀ z, processor.param params "width" ≠ Some (JNumber z)) →
  (∀ z, processor.param params "height" ≠ Some (JNumber z)) →
  processor.apply_operations lib nrgba (effective_operations []) =
    inr (processor.Thumbnail lib nrgba 150 150)
  ∧ processor.apply_operations lib nrgba
      [{| OpName := OperationResize; Parameters := params |}] = inr nrgba.
Proof.
  intros Hw Hh. split; [reflexivity|].
  simpl. unfold processor.applyOperation. simpl.
  unfold processor.resize, processor.getIntParam.
  destruct (processor.param params "width") as [[z| |]|] eqn:Hpw;
    [by destruct (Hw z)| | |];
    (destruct (processor.param params "height") as [[z| |]|] eqn:Hph;
       [by destruct (Hh z)| | |]); done.
Qed.

(** X30 (witness): a resize whose width is the string "800". *)
Lemma parameters_take_defaults_witness :
  processor.apply_operations sample_imaging "photo" (effective_operations []) =
    inr "photo thumbnail"
  ∧ processor.apply_operations sample_imaging "photo"
      [{| OpName := OperationResize; Parameters := [("width", JString "800")] |}] =
    inr "photo".
Proof.
  apply (parameters_take_defaults sample_imaging "photo" [("width", JString "800")]).
  - intros z. discriminate.
  - intros z. discriminate.
Defined.
